(** * Loop iteration scheduling of libgomp (iter.c), adaptive variant

    A shallow embedding of the routines of [libgomp/iter.c] that hand out
    iteration ranges to the threads of a team: the static, dynamic and
    guided schedules of GNU libgomp and the adaptive (work queue) schedule
    added by this variant.

    C [long] and [unsigned long] are 64-bit; they are modelled as [Z] with
    the wrap-around written out ([to_long], [to_ulong]).  The outputs
    [*pstart] and [*pend] of a call are modelled as the pair the call
    stores, [None] when the call stores nothing. *)

From Stdlib Require Import ZArith Lia Bool List Znumtheory.
From stdpp Require Import base list.

Local Open Scope Z_scope.

(** ** Machine integers *)

Module MachInt.

Definition ULONG_MOD : Z := 2 ^ 64.
Definition LONG_MAX : Z := 2 ^ 63 - 1.
Definition LONG_MIN : Z := - 2 ^ 63.
Definition UINT_MOD : Z := 2 ^ 32.

(** Conversion of a value to [unsigned long]: reduction modulo 2^64. *)
Definition to_ulong (z : Z) : Z := z mod ULONG_MOD.

(** Conversion of a value to [long]: the two's complement representative. *)
Definition to_long (z : Z) : Z := (z + 2 ^ 63) mod ULONG_MOD - 2 ^ 63.

(** Conversion of a value to [int] (32 bits). *)
Definition to_int (z : Z) : Z := (z + 2 ^ 31) mod UINT_MOD - 2 ^ 31.

Definition in_long (z : Z) : Prop := LONG_MIN <= z <= LONG_MAX.

(** Arithmetic on [long]; the quotient of C truncates toward zero. *)
Definition ladd (a b : Z) : Z := to_long (a + b).
Definition lsub (a b : Z) : Z := to_long (a - b).
Definition lmul (a b : Z) : Z := to_long (a * b).
Definition ldiv (a b : Z) : Z := to_long (Z.quot a b).

(** Arithmetic on [unsigned long]. *)
Definition uadd (a b : Z) : Z := to_ulong (a + b).
Definition usub (a b : Z) : Z := to_ulong (a - b).
Definition umul (a b : Z) : Z := to_ulong (a * b).
Definition udiv (a b : Z) : Z := a / b.

End MachInt.

Import MachInt.

(** ** Data model *)

(** Modelled from the spec: [libgomp.h], which declares the structures, is
    not among the sources.  The fields are those [iter.c] reads and writes;
    their types are the types of the locals that receive them in [iter.c]
    ([long] for bounds, step, chunk and cursor, [unsigned long] for the
    team size) and, for [static_trip], the [int] of the spec's data model. *)

Record gomp_ws_adaptive_chunk : Type := {
  begin : Z;          (* long: first iteration not yet taken by the owner *)
  chunk_end : Z;      (* long, field [end]: one past the last iteration owned *)
  nb_exec : Z;        (* long: iterations taken since the last reconciliation *)
  is_init : bool
}.

Record gomp_work_share : Type := {
  chunk_size : Z;     (* long *)
  ws_end : Z;         (* long, field [end] *)
  incr : Z;           (* long *)
  next : Z;           (* long: shared cursor of dynamic and guided *)
  mode : bool;        (* nonzero: the fetch-and-add path of dynamic is safe *)
  start_t0 : Z;       (* long *)
  nb_iterations_left : Z;
  adaptive_chunks : list gomp_ws_adaptive_chunk
}.

Record gomp_team : Type := { nthreads : Z (* unsigned *) }.

(** The fields of [thr->ts] that the schedulers use.  [team] is a pointer
    that may be null (an orphaned construct). *)
Record gomp_thread : Type := {
  team : option gomp_team;
  team_id : Z;        (* unsigned *)
  static_trip : Z     (* int; -1 marks the terminal state *)
}.

Definition set_static_trip (thr : gomp_thread) (t : Z) : gomp_thread :=
  {| team := team thr; team_id := team_id thr; static_trip := t |}.

Definition set_next (ws : gomp_work_share) (v : Z) : gomp_work_share :=
  {| chunk_size := chunk_size ws; ws_end := ws_end ws; incr := incr ws;
     next := v; mode := mode ws; start_t0 := start_t0 ws;
     nb_iterations_left := nb_iterations_left ws;
     adaptive_chunks := adaptive_chunks ws |}.

(** [team ? team->nthreads : 1], as an [unsigned long]. *)
Definition team_nthreads (thr : gomp_thread) : Z :=
  match team thr with
  | Some t => to_ulong (nthreads t)
  | None => 1
  end.

(** ** Static schedule *)

Record static_result : Type := {
  st_ret : Z;                     (* the [int] returned *)
  st_out : option (Z * Z);        (* the stores to [*pstart], [*pend] *)
  st_thr : gomp_thread            (* the thread state after the call *)
}.

(** [n = (ws->end - ws->next + s) / ws->incr] with
    [s = ws->incr + (ws->incr > 0 ? -1 : 1)], stored in an [unsigned long]. *)
Definition static_niter (ws : gomp_work_share) : Z :=
  let s := ladd (incr ws) (if incr ws >? 0 then -1 else 1) in
  to_ulong (ldiv (ladd (lsub (ws_end ws) (next ws)) s) (incr ws)).

(** [(long) k * ws->incr + ws->next]. *)
Definition static_point (ws : gomp_work_share) (k : Z) : Z :=
  ladd (lmul (to_long k) (incr ws)) (next ws).

Definition gomp_iter_static_next (thr : gomp_thread) (ws : gomp_work_share)
  : static_result :=
  let nthr := team_nthreads thr in
  if static_trip thr =? -1 then
    {| st_ret := -1; st_out := None; st_thr := thr |}
  else if nthr =? 1 then
    {| st_ret := if next ws =? ws_end ws then 1 else 0;
       st_out := Some (next ws, ws_end ws);
       st_thr := set_static_trip thr (-1) |}
  else if chunk_size ws =? 0 then
    if static_trip thr >? 0 then
      {| st_ret := 1; st_out := None; st_thr := thr |}
    else
      let n := static_niter ws in
      let i := to_ulong (team_id thr) in
      let q := udiv n nthr in
      let q := uadd q (if umul q nthr =? n then 0 else 1) in
      let s0 := umul q i in
      let e0 := uadd s0 q in
      let e0 := if e0 >? n then n else e0 in
      if s0 >=? e0 then
        {| st_ret := 1; st_out := None; st_thr := set_static_trip thr 1 |}
      else
        {| st_ret := 0;
           st_out := Some (static_point ws s0, static_point ws e0);
           st_thr := set_static_trip thr (if e0 =? n then -1 else 1) |}
  else
    let n := static_niter ws in
    let i := to_ulong (team_id thr) in
    let c := to_ulong (chunk_size ws) in
    let s0 := umul (uadd (umul (to_ulong (static_trip thr)) nthr) i) c in
    let e0 := uadd s0 c in
    if s0 >=? n then
      {| st_ret := 1; st_out := None; st_thr := thr |}
    else
      let e0 := if e0 >? n then n else e0 in
      {| st_ret := 0;
         st_out := Some (static_point ws s0, static_point ws e0);
         st_thr := set_static_trip thr
                     (if e0 =? n then -1 else to_int (static_trip thr + 1)) |}.

(** The thread state after [k] further calls. *)
Fixpoint static_calls (k : nat) (thr : gomp_thread) (ws : gomp_work_share)
  : gomp_thread :=
  match k with
  | O => thr
  | S k' => static_calls k' (st_thr (gomp_iter_static_next thr ws)) ws
  end.

(** ** Dynamic schedule *)

(** The result of the [bool]-returning schedulers: the value returned, the
    stores to [*pstart] and [*pend], and the work share after the call. *)
Definition next_result : Type := (bool * option (Z * Z) * gomp_work_share)%type.

(** The clamp of [chunk] to what is left, in the direction of [incr]. *)
Definition dynamic_clamp (incr chunk left : Z) : Z :=
  if incr <? 0 then (if chunk <? left then left else chunk)
  else (if chunk >? left then left else chunk).

Definition gomp_iter_dynamic_next_locked (ws : gomp_work_share) : next_result :=
  let start := next ws in
  if start =? ws_end ws then (false, None, ws)
  else
    let chunk := chunk_size ws in
    let left := lsub (ws_end ws) start in
    let chunk := dynamic_clamp (incr ws) chunk left in
    let e := ladd start chunk in
    (true, Some (start, e), set_next ws e).

(** The compare-and-swap loop of [gomp_iter_dynamic_next].  [seen] lists the
    values that other threads left in [ws->next] at the successive
    compare-and-swap attempts of this call; past the end of the list the
    attempt is undisturbed and succeeds.  [chunk] is the local of the
    source, which keeps its clamped value from one attempt to the next.
    The last component is [ws->next] after the call. *)
Fixpoint dynamic_cas_loop (seen : list Z) (endv incr chunk start : Z)
  : bool * option (Z * Z) * Z :=
  let left := lsub endv start in
  if start =? endv then (false, None, start)
  else
    let chunk := dynamic_clamp incr chunk left in
    let nend := ladd start chunk in
    match seen with
    | [] => (true, Some (start, nend), nend)
    | tmp :: seen' =>
        if tmp =? start then (true, Some (start, nend), nend)
        else dynamic_cas_loop seen' endv incr chunk tmp
    end.

(** [gomp_iter_dynamic_next]: when [ws->mode] is set, one
    [__sync_fetch_and_add (&ws->next, chunk)], whose effect on [ws->next]
    does not depend on the test that follows. *)
Definition gomp_iter_dynamic_next (seen : list Z) (ws : gomp_work_share)
  : next_result :=
  let endv := ws_end ws in
  let incr := incr ws in
  let chunk := chunk_size ws in
  if mode ws then
    let tmp := next ws in
    let ws' := set_next ws (ladd tmp chunk) in
    if incr >? 0 then
      if tmp >=? endv then (false, None, ws')
      else
        let nend := ladd tmp chunk in
        let nend := if nend >? endv then endv else nend in
        (true, Some (tmp, nend), ws')
    else
      if tmp <=? endv then (false, None, ws')
      else
        let nend := ladd tmp chunk in
        let nend := if nend <? endv then endv else nend in
        (true, Some (tmp, nend), ws')
  else
    let '(r, out, nxt) := dynamic_cas_loop seen endv incr chunk (next ws) in
    (r, out, set_next ws nxt).

(** The work share after [k] calls of [gomp_iter_dynamic_next] that are
    not disturbed. *)
Fixpoint dynamic_calls (k : nat) (ws : gomp_work_share) : gomp_work_share :=
  match k with
  | O => ws
  | S k' => dynamic_calls k' (snd (gomp_iter_dynamic_next [] ws))
  end.

(** ** Guided schedule *)

(** The end of the claim that starts at [start]; the same computation in
    the locked and in the compare-and-swap variant.  [n] and [q] are
    [unsigned long], and so is the product [q * incr] and its sum with
    [start], which is converted back to [long] by the assignment. *)
Definition guided_claim (nthr endv incr chunk start : Z) : Z :=
  let n := to_ulong (ldiv (lsub endv start) incr) in
  let q := udiv (usub (uadd n nthr) 1) nthr in
  let q := if q <? to_ulong chunk then to_ulong chunk else q in
  if q <=? n then to_long (uadd (to_ulong start) (umul q (to_ulong incr)))
  else endv.

Definition gomp_iter_guided_next_locked (thr : gomp_thread)
  (ws : gomp_work_share) : next_result :=
  let nthr := team_nthreads thr in
  if next ws =? ws_end ws then (false, None, ws)
  else
    let start := next ws in
    let e := guided_claim nthr (ws_end ws) (incr ws) (chunk_size ws) start in
    (true, Some (start, e), set_next ws e).

(** The compare-and-swap loop of [gomp_iter_guided_next]; [seen] as in
    [dynamic_cas_loop]. *)
Fixpoint guided_cas_loop (seen : list Z) (nthr endv incr chunk start : Z)
  : bool * option (Z * Z) * Z :=
  if start =? endv then (false, None, start)
  else
    let nend := guided_claim nthr endv incr chunk start in
    match seen with
    | [] => (true, Some (start, nend), nend)
    | tmp :: seen' =>
        if tmp =? start then (true, Some (start, nend), nend)
        else guided_cas_loop seen' nthr endv incr chunk tmp
    end.

Definition gomp_iter_guided_next (seen : list Z) (thr : gomp_thread)
  (ws : gomp_work_share) : next_result :=
  let nthr := team_nthreads thr in
  let '(r, out, nxt) :=
    guided_cas_loop seen nthr (ws_end ws) (incr ws) (chunk_size ws) (next ws) in
  (r, out, set_next ws nxt).

(** Repeated claims by calls of [gomp_iter_guided_next_locked]: the cursor
    after at most [k] successful claims, stopping at the first call that
    returns false. *)
Fixpoint guided_drain (k : nat) (thr : gomp_thread) (ws : gomp_work_share)
  : gomp_work_share :=
  match k with
  | O => ws
  | S k' =>
      match gomp_iter_guided_next_locked thr ws with
      | (true, _, ws') => guided_drain k' thr ws'
      | (false, _, ws') => ws'
      end
  end.

(** ** Adaptive schedule *)

Definition set_adaptive_chunks (ws : gomp_work_share)
  (l : list gomp_ws_adaptive_chunk) : gomp_work_share :=
  {| chunk_size := chunk_size ws; ws_end := ws_end ws; incr := incr ws;
     next := next ws; mode := mode ws; start_t0 := start_t0 ws;
     nb_iterations_left := nb_iterations_left ws;
     adaptive_chunks := l |}.

(** [gomp_iter_adaptive_try_local_work], run without a thief in between:
    the owner advances [begin], compares with [end], and on failure rolls
    back and retries under the lock of the queue with the clamped size. *)
Definition gomp_iter_adaptive_try_local_work (local_queue : gomp_ws_adaptive_chunk)
  (chunk_size : Z) : bool * option (Z * Z) * gomp_ws_adaptive_chunk :=
  let b := ladd (begin local_queue) chunk_size in
  if b <? chunk_end local_queue then
    (true, Some (lsub b chunk_size, b),
     {| begin := b; chunk_end := chunk_end local_queue;
        nb_exec := ladd (nb_exec local_queue) chunk_size;
        is_init := is_init local_queue |})
  else
    let b := lsub b chunk_size in
    let size := lsub (chunk_end local_queue) b in
    if size >? 0 then
      let size := if size >? chunk_size then chunk_size else size in
      let b := ladd b size in
      (true, Some (lsub b size, b),
       {| begin := b; chunk_end := chunk_end local_queue;
          nb_exec := ladd (nb_exec local_queue) size;
          is_init := is_init local_queue |})
    else
      (false, None,
       {| begin := b; chunk_end := chunk_end local_queue;
          nb_exec := nb_exec local_queue;
          is_init := is_init local_queue |}).

(** [gomp_iter_adaptive_next].  [gomp_loop_adaptive_init_worker] is declared
    [extern] in [iter.c] and defined elsewhere: its effect on the work share
    is the parameter [init_worker].  The block that publishes [nb_exec] and
    steals is between [#if 0] and [#endif] in the source, so that a call
    without local work falls through to [return false].  The result is
    [None] when [team_id] is not an index of [adaptive_chunks]. *)
Definition gomp_iter_adaptive_next
  (init_worker : gomp_work_share -> gomp_thread -> Z -> Z -> Z -> gomp_work_share)
  (thr : gomp_thread) (ws : gomp_work_share) : option next_result :=
  let tid := Z.to_nat (team_id thr) in
  match adaptive_chunks ws !! tid with
  | None => None
  | Some slot =>
      let ws1 := if is_init slot then ws
                 else init_worker ws thr (start_t0 ws) (ws_end ws) (incr ws) in
      match adaptive_chunks ws1 !! tid with
      | None => None
      | Some local_chunk =>
          let '(r, out, q) :=
            gomp_iter_adaptive_try_local_work local_chunk (chunk_size ws1) in
          let ws2 := set_adaptive_chunks ws1 (<[tid := q]> (adaptive_chunks ws1)) in
          if r then Some (true, out, ws2) else Some (false, out, ws2)
      end
  end.

(** ** Adaptive schedule: victims and stealing *)

(** The loop [do victim_id = rand_r (&thr->seed) % nthreads; while
    (victim_id == self)].  [rand_r] is a library routine: [draws] lists its
    successive results for this thread.  The result is the index drawn and
    the draws that are left, or [None] when the draws run out before the
    loop ends. *)
Fixpoint pick_loop (draws : list Z) (nthreads self : Z)
  : option (Z * list Z) :=
  match draws with
  | [] => None
  | r :: rest =>
      let victim_id := Z.rem r nthreads in
      if victim_id =? self then pick_loop rest nthreads self
      else Some (victim_id, rest)
  end.

(** [gomp_loop_adaptive_random_pick_victim]: the index in
    [adaptive_chunks] of the queue it points to, [None] for the null
    pointer, with the draws that are left.  The outer [None] stands for a
    call without result: a null [team], or draws that run out. *)
Definition gomp_loop_adaptive_random_pick_victim (draws : list Z)
  (thr : gomp_thread) : option (option Z * list Z) :=
  match team thr with
  | None => None
  | Some t =>
      let nthreads := nthreads t in
      if nthreads =? 1 then Some (None, draws)
      else
        match pick_loop draws nthreads (team_id thr) with
        | None => None
        | Some (victim_id, rest) => Some (Some victim_id, rest)
        end
  end.

(** Modelled from the spec: the thread pool's table [numa_info] and the
    fields [numaid] and [index_numanode] of the thread are declared in
    [libgomp.h], which is not among the sources.  A node of the table has
    the number of threads resident on it and their team indices; the
    thread knows its node and its index within the node. *)
Record gomp_numa_node : Type := {
  numa_size : Z;            (* field [size] *)
  team_ids : list Z
}.

Record numa_ctx : Type := {
  numa_info : list gomp_numa_node;
  numaid : nat;
  index_numanode : Z
}.

(** [gomp_loop_adaptive_numa_pick_victim]: the draw is among the threads
    of the caller's node and is converted to a team index by the table. *)
Definition gomp_loop_adaptive_numa_pick_victim (draws : list Z)
  (ctx : numa_ctx) : option (option Z * list Z) :=
  match numa_info ctx !! numaid ctx with
  | None => None
  | Some node =>
      let nthreads := numa_size node in
      if nthreads =? 1 then Some (None, draws)
      else
        match pick_loop draws nthreads (index_numanode ctx) with
        | None => None
        | Some (victim_id, rest) =>
            if victim_id <? 0 then None
            else
              match team_ids node !! Z.to_nat victim_id with
              | None => None
              | Some v => Some (Some v, rest)
              end
        end
  end.

(** The macro [gomp_loop_adaptive_is_finished]. *)
Definition gomp_loop_adaptive_is_finished (ws : gomp_work_share) : bool :=
  nb_iterations_left ws =? 0.

(** The configurations of [gomp_iter_adaptive_steal]: without
    [LIBGOMP_USE_NUMA], or with it, and then with or without
    [LIBGOMP_USE_PWS_STRICT]. *)
Inductive steal_config : Type :=
  | NoNuma
  | Numa (ctx : numa_ctx) (pws_strict : bool).

(** The [for] loop of the NUMA configuration: at most [k] picks on the
    caller's node, until one has a queue with [end > begin]. *)
Fixpoint numa_attempts (k : nat) (draws : list Z) (ctx : numa_ctx)
  (ws : gomp_work_share) : option (option Z * list Z) :=
  match k with
  | O => Some (None, draws)
  | S k' =>
      match gomp_loop_adaptive_numa_pick_victim draws ctx with
      | None => None
      | Some (None, rest) => numa_attempts k' rest ctx ws
      | Some (Some v, rest) =>
          if v <? 0 then None
          else
            match adaptive_chunks ws !! Z.to_nat v with
            | None => None
            | Some victim_queue =>
                if chunk_end victim_queue >? begin victim_queue
                then Some (Some v, rest)
                else numa_attempts k' rest ctx ws
            end
      end
  end.

(** The choice of the victim at the head of [gomp_iter_adaptive_steal]:
    [Some v] when the function goes on with the queue of index [v], and
    [None] when it returns false at once or goes on with a null pointer,
    which returns false as well. *)
Definition adaptive_select_victim (cfg : steal_config) (draws : list Z)
  (thr : gomp_thread) (ws : gomp_work_share) : option (option Z * list Z) :=
  match cfg with
  | NoNuma => gomp_loop_adaptive_random_pick_victim draws thr
  | Numa ctx pws_strict =>
      match numa_info ctx !! numaid ctx with
      | None => None
      | Some node =>
          let nthreads := numa_size node in
          match numa_attempts (Z.to_nat (1 + Z.quot nthreads 2)) draws ctx ws
          with
          | None => None
          | Some (Some v, rest) => Some (Some v, rest)
          | Some (None, rest) =>
              if gomp_loop_adaptive_is_finished ws then Some (None, rest)
              else if pws_strict then Some (None, rest)
              else gomp_loop_adaptive_random_pick_victim rest thr
          end
      end
  end.

Definition set_chunk_end (q : gomp_ws_adaptive_chunk) (e : Z)
  : gomp_ws_adaptive_chunk :=
  {| begin := begin q; chunk_end := e; nb_exec := nb_exec q;
     is_init := is_init q |}.

(** The body of [gomp_iter_adaptive_steal] from the label [do_steal] on,
    for the victim of index [v] and the local queue of index [lq].  The
    size to steal is read without the lock; [disturb] is what other
    threads did to the victim's queue between that read and the moment
    the lock is held (the identity when nobody did anything).  [None]
    when an index is outside [adaptive_chunks]. *)
Definition adaptive_steal_from (disturb : gomp_ws_adaptive_chunk -> gomp_ws_adaptive_chunk)
  (v lq : nat) (chunk_size : Z) (ws : gomp_work_share) : option next_result :=
  match adaptive_chunks ws !! v with
  | None => None
  | Some victim_queue =>
      let size :=
        ldiv (lsub (chunk_end victim_queue) (begin victim_queue)) 2 in
      if size <=? 0 then Some (false, None, ws)
      else
        let victim_queue := disturb victim_queue in
        let e := lsub (chunk_end victim_queue) size in
        if e <? begin victim_queue then
          Some (false, None,
                set_adaptive_chunks ws
                  (<[v := set_chunk_end victim_queue (ladd e size)]>
                     (adaptive_chunks ws)))
        else
          let local_size := if size <=? chunk_size then size else chunk_size in
          let pstart := e in
          let pend := ladd e local_size in
          let chunks1 :=
            <[v := set_chunk_end victim_queue e]> (adaptive_chunks ws) in
          match chunks1 !! lq with
          | None => None
          | Some local_queue =>
              let local_queue' :=
                {| begin := pend; chunk_end := ladd e size;
                   nb_exec := ladd (nb_exec local_queue) (lsub pend pstart);
                   is_init := is_init local_queue |} in
              Some (true, Some (pstart, pend),
                    set_adaptive_chunks ws (<[lq := local_queue']> chunks1))
          end
  end.

(** [gomp_iter_adaptive_steal], for the local queue of index [lq]; the
    result comes with the draws that are left. *)
Definition gomp_iter_adaptive_steal (cfg : steal_config) (draws : list Z)
  (disturb : gomp_ws_adaptive_chunk -> gomp_ws_adaptive_chunk)
  (thr : gomp_thread) (lq : nat) (chunk_size : Z) (ws : gomp_work_share)
  : option (next_result * list Z) :=
  match adaptive_select_victim cfg draws thr ws with
  | None => None
  | Some (None, rest) => Some ((false, None, ws), rest)
  | Some (Some v, rest) =>
      if v <? 0 then None
      else
        match adaptive_steal_from disturb (Z.to_nat v) lq chunk_size ws with
        | None => None
        | Some r => Some (r, rest)
        end
  end.

(** ** The claims of the specification, as written

    The following definitions follow the wording of the specification, to
    be compared with the functions above. *)

(** Specification of the return value of [gomp_iter_static_next], as
    written: negative exactly when the call produces the range that is the
    final one (marked in the code by the terminal [static_trip]); zero for
    a range that is not final; positive when no range is produced. *)
Definition static_return_as_specified (thr : gomp_thread)
  (ws : gomp_work_share) : Prop :=
  let r := gomp_iter_static_next thr ws in
  let final := static_trip (st_thr r) = -1 in
  (st_ret r < 0 <-> (st_out r <> None /\ final))
  /\ (st_out r <> None -> ~ final -> st_ret r = 0)
  /\ (st_out r = None -> 0 < st_ret r).

(** Ceiling of a quotient of nonnegative numbers. *)
Definition ceil_div (a b : Z) : Z := (a + b - 1) / b.

(** Specification of the guided claim, as written: from the observed
    cursor [start] the new cursor is [start + min(q, n) * incr] with
    [n = (end - start) / incr] and [q = max(ceil(n / nthreads), chunk_size)]. *)
Definition guided_claim_as_specified (nthr endv incr chunk start : Z) : Z :=
  let n := Z.quot (endv - start) incr in
  let q := Z.max (ceil_div n nthr) chunk in
  start + Z.min q n * incr.

(** The guided claim in unbounded arithmetic, with the cases of the code:
    [q] steps from [start] when [q <= n], and otherwise the end of the
    loop, whatever the distance to it. *)
Definition guided_target (nthr endv incr chunk start : Z) : Z :=
  let n := Z.quot (endv - start) incr in
  let q := Z.max (ceil_div n nthr) chunk in
  if q <=? n then start + q * incr else endv.

(** Specification of a call of [gomp_iter_adaptive_next] that returns
    false, as written: the executed count of the worker has been
    subtracted from [nb_iterations_left] and reset, and the counter of
    iterations left has been observed to be zero. *)
Definition adaptive_false_as_specified
  (init_worker : gomp_work_share -> gomp_thread -> Z -> Z -> Z -> gomp_work_share)
  (thr : gomp_thread) (ws : gomp_work_share) : Prop :=
  forall out ws' (local_chunk local_chunk' : gomp_ws_adaptive_chunk),
    gomp_iter_adaptive_next init_worker thr ws = Some (false, out, ws') ->
    adaptive_chunks ws !! Z.to_nat (team_id thr) = Some local_chunk ->
    adaptive_chunks ws' !! Z.to_nat (team_id thr) = Some local_chunk' ->
    nb_iterations_left ws' = lsub (nb_iterations_left ws) (nb_exec local_chunk)
    /\ nb_exec local_chunk' = 0
    /\ nb_iterations_left ws' = 0.

(** ** Preconditions established when the work share is initialised *)

(** The step is a nonzero [long] and the end of the loop is a [long]. *)
Definition step_ok (ws : gomp_work_share) : Prop :=
  incr ws <> 0 /\ in_long (incr ws) /\ in_long (ws_end ws).

(** The cursor value [v] has not passed the end of the loop in the
    direction of the step, and its distance to the end fits a [long]. *)
Definition cursor_ok (ws : gomp_work_share) (v : Z) : Prop :=
  in_long v /\ Z.abs (ws_end ws - v) <= LONG_MAX
  /\ (0 < incr ws -> v <= ws_end ws)
  /\ (incr ws < 0 -> ws_end ws <= v).

(** The distance from [v] to the end is a whole number of steps. *)
Definition cursor_aligned (ws : gomp_work_share) (v : Z) : Prop :=
  (incr ws | ws_end ws - v).

(** The loop described by [ws] is well formed at its cursor: the step is
    not zero and the distance from [ws->next] to the end is a nonnegative
    whole number of steps. *)
Definition loop_ok (ws : gomp_work_share) : Prop :=
  step_ok ws /\ cursor_ok ws (next ws) /\ cursor_aligned ws (next ws).

(** The distance from [ws->next] to the end still fits a [long] when it is
    rounded up by one step, as the static schedule does to count the
    iterations. *)
Definition span_fits (ws : gomp_work_share) : Prop :=
  in_long (ws_end ws - next ws + incr ws).

(** The chunk field as the dynamic schedule stores it: a nonnegative
    number of iterations multiplied by the step. *)
Definition chunk_scaled (ws : gomp_work_share) : Prop :=
  in_long (chunk_size ws) /\ exists c, 0 <= c /\ chunk_size ws = c * incr ws.

(** The chunk field as the static and guided schedules read it: a
    nonnegative number of iterations. *)
Definition chunk_count (ws : gomp_work_share) : Prop :=
  0 <= chunk_size ws <= LONG_MAX.

(** The values seen in [ws->next] by the compare-and-swap attempts of a
    call are cursor values of the same loop. *)
Definition seen_ok (ws : gomp_work_share) (seen : list Z) : Prop :=
  Forall (fun v => cursor_ok ws v /\ cursor_aligned ws v) seen.

(** The team, when there is one, has at least one thread, and the count
    is a value of type [unsigned]. *)
Definition team_ok (thr : gomp_thread) : Prop :=
  match team thr with
  | Some t => 1 <= nthreads t < UINT_MOD
  | None => True
  end.

(** A range [pstart, pend) is well formed for the step [incr]: it runs in
    the direction of the step over a whole number of steps. *)
Definition range_ok (incr pstart pend : Z) : Prop :=
  (0 < incr -> pstart <= pend /\ (pend - pstart) mod incr = 0)
  /\ (incr < 0 -> pend <= pstart /\ (pend - pstart) mod incr = 0).

(** [v] lies strictly past [start] in the direction of [incr], and not past
    [endv]. *)
Definition advances (incr start endv v : Z) : Prop :=
  v <> start
  /\ (0 < incr -> start < v <= endv)
  /\ (incr < 0 -> endv <= v < start).

(** [v] is at the end of the loop or past it in the direction of the
    step: the test that makes the fetch-and-add path return false. *)
Definition past_end (ws : gomp_work_share) (v : Z) : Prop :=
  (0 < incr ws -> ws_end ws <= v) /\ (incr ws < 0 -> v <= ws_end ws).

(** ** Sample configurations *)

(** The loop [for (i = 0; i < 10; i++)] under [schedule(static)]. *)
Definition ws_static_10 : gomp_work_share :=
  {| chunk_size := 0; ws_end := 10; incr := 1; next := 0; mode := false;
     start_t0 := 0; nb_iterations_left := 0; adaptive_chunks := [] |}.

(** Thread [i] of a team of four, before its first call. *)
Definition thr_of_4 (i : Z) : gomp_thread :=
  {| team := Some {| nthreads := 4 |}; team_id := i; static_trip := 0 |}.

(** The loop [for (i = 0; i < 10; i += 3)] under [schedule(guided, 100)]. *)
Definition ws_guided_10_by_3 : gomp_work_share :=
  {| chunk_size := 100; ws_end := 10; incr := 3; next := 0; mode := false;
     start_t0 := 0; nb_iterations_left := 0; adaptive_chunks := [] |}.

(** An adaptive loop over [0, 8) split between two workers: worker 0 has
    executed its four iterations, worker 1 has not started. *)
Definition ws_adaptive_8 : gomp_work_share :=
  {| chunk_size := 1; ws_end := 8; incr := 1; next := 0; mode := false;
     start_t0 := 0; nb_iterations_left := 8;
     adaptive_chunks :=
       [ {| begin := 4; chunk_end := 4; nb_exec := 4; is_init := true |};
         {| begin := 4; chunk_end := 8; nb_exec := 0; is_init := true |} ] |}.

(** The loop from 0 to 100 under [schedule(dynamic, 7)], with the
    fetch-and-add path enabled and the cursor at the end. *)
Definition ws_dynamic_100_done : gomp_work_share :=
  {| chunk_size := 7; ws_end := 100; incr := 1; next := 100; mode := true;
     start_t0 := 0; nb_iterations_left := 0; adaptive_chunks := [] |}.

(** The loop from 0 to 10 under [schedule(dynamic, 4)], taken under the
    lock. *)
Definition ws_dynamic_10_by_4 : gomp_work_share :=
  {| chunk_size := 4; ws_end := 10; incr := 1; next := 0; mode := false;
     start_t0 := 0; nb_iterations_left := 0; adaptive_chunks := [] |}.

Definition thr_of_2 (i : Z) : gomp_thread :=
  {| team := Some {| nthreads := 2 |}; team_id := i; static_trip := 0 |}.

(** An initialisation of the worker that leaves the work share as it is. *)
Definition init_worker_skip (ws : gomp_work_share) (_ : gomp_thread)
  (_ _ _ : Z) : gomp_work_share := ws.

(** ** Sequences of calls *)

(** The caller's loop: the ranges handed out by at most [k] successive
    calls of the scheduler [step], stopping at the first call that returns
    false, and the work share after them. *)
Fixpoint collect (step : gomp_work_share -> next_result) (k : nat)
  (ws : gomp_work_share) : list (Z * Z) * gomp_work_share :=
  match k with
  | O => ([], ws)
  | S k' =>
      match step ws with
      | (true, Some r, ws') =>
          let '(l, ws'') := collect step k' ws' in (r :: l, ws'')
      | (_, _, ws') => ([], ws')
      end
  end.

(** The ranges of [l] follow one another from [start] to [endv]: each one
    begins where the one before it ends. *)
Fixpoint chained (start : Z) (l : list (Z * Z)) (endv : Z) : Prop :=
  match l with
  | [] => start = endv
  | (a, b) :: l' => a = start /\ chained b l' endv
  end.

(** The same loop for the owner of an adaptive queue: the ranges taken by
    at most [k] successive calls of [gomp_iter_adaptive_try_local_work]. *)
Fixpoint local_collect (k : nat) (q : gomp_ws_adaptive_chunk) (cs : Z)
  : list (Z * Z) * gomp_ws_adaptive_chunk :=
  match k with
  | O => ([], q)
  | S k' =>
      match gomp_iter_adaptive_try_local_work q cs with
      | (true, Some r, q') =>
          let '(l, q'') := local_collect k' q' cs in (r :: l, q'')
      | (_, _, q') => ([], q')
      end
  end.

(** The values seen in [ws->next] by the successive compare-and-swap
    attempts of one call, after the value [v] it read first: each one is a
    cursor value of the loop and none is farther from the end than the one
    before it, as the cursor only moves toward the end. *)
Fixpoint seen_toward_end (ws : gomp_work_share) (v : Z) (seen : list Z)
  : Prop :=
  match seen with
  | [] => True
  | v' :: rest =>
      cursor_ok ws v'
      /\ Z.abs (ws_end ws - v') <= Z.abs (ws_end ws - v)
      /\ seen_toward_end ws v' rest
  end.

(** ** One adaptive queue under concurrent access

    The owner of a queue runs [gomp_iter_adaptive_try_local_work] on it
    while other threads run [gomp_iter_adaptive_steal] with this queue as
    their victim.  Both functions are cut at their accesses to the shared
    fields [begin] and [end] of the queue and to its lock, one step for an
    access; the steps of the threads interleave in any order, and each
    thread's own accesses happen in the order of the source, which the
    barriers [gomp_compiler_barrier] (a full [__sync_synchronize]) keep.
    [kaapi_atomic_lock], which is declared outside [iter.c], is taken to be
    a mutual exclusion lock: a thread that finds it held waits.

    A control point carries the locals of the function that are live
    there; the comments give the lines of [iter.c] just executed. *)

Inductive owner_pc : Type :=
  | OIdle                       (* outside the function *)
  | OAdded (b : Z)              (* 357-358: [begin] read and advanced *)
  | OBumped (b : Z)             (* 359: [local_queue->begin] written *)
  | OBack (b : Z)               (* 362 false, 371: [begin -= chunk_size] *)
  | OWait (b : Z)               (* 372: [begin] written back; at the lock *)
  | OLocked (b : Z)             (* 373: lock held *)
  | OSized (b size : Z)         (* 374-378: [size > 0], clamped, added *)
  | ODone (b size : Z).         (* 379, or 375 false: at the unlock *)

Inductive thief_pc : Type :=
  | TIdle                       (* outside the function *)
  | TEnd (e : Z)                (* 432: [end] read *)
  | TOpEnd (e : Z)              (* 433: the operand [end] read *)
  | TOpBegin (b : Z)            (* 433: the operand [begin] read *)
  | TWait (size : Z)            (* 433-438: [size > 0]; at the lock *)
  | TLocked (size : Z)          (* 440: lock held *)
  | TDec (size e : Z)           (* 441-444: [end] read and lowered *)
  | TCheck (size e : Z)         (* 445: [victim_queue->end] written *)
  | TUndo (size e : Z)          (* 447 true *)
  | TFail                       (* 449: [end] put back; at the unlock *)
  | TTaken (size e : Z).        (* 447 false, 454-458; at the unlock *)

Inductive lock_holder : Type :=
  | HeldByOwner
  | HeldByThief (i : nat).

(** The queue, its lock, the control points of its owner and of the
    threads that steal from it, and what has been handed out: [qs_taken]
    has the ranges stored by the owner's calls, the earliest first, and
    [qs_stolen] the blocks [[end, end + size)] cut off by the steals that
    passed the test of line 447, the latest first. *)
Record queue_state : Type := {
  qs_queue : gomp_ws_adaptive_chunk;
  qs_lock : option lock_holder;
  qs_owner : owner_pc;
  qs_thieves : list thief_pc;
  qs_taken : list (Z * Z);
  qs_stolen : list (Z * Z)
}.

Definition set_begin (q : gomp_ws_adaptive_chunk) (b : Z)
  : gomp_ws_adaptive_chunk :=
  {| begin := b; chunk_end := chunk_end q; nb_exec := nb_exec q;
     is_init := is_init q |}.

Definition add_nb_exec (q : gomp_ws_adaptive_chunk) (n : Z)
  : gomp_ws_adaptive_chunk :=
  {| begin := begin q; chunk_end := chunk_end q;
     nb_exec := ladd (nb_exec q) n; is_init := is_init q |}.

Definition owner_at (s : queue_state) (q : gomp_ws_adaptive_chunk)
  (o : owner_pc) : queue_state :=
  {| qs_queue := q; qs_lock := qs_lock s; qs_owner := o;
     qs_thieves := qs_thieves s; qs_taken := qs_taken s;
     qs_stolen := qs_stolen s |}.

Definition thief_at (s : queue_state) (q : gomp_ws_adaptive_chunk)
  (i : nat) (p : thief_pc) : queue_state :=
  {| qs_queue := q; qs_lock := qs_lock s; qs_owner := qs_owner s;
     qs_thieves := <[i := p]> (qs_thieves s); qs_taken := qs_taken s;
     qs_stolen := qs_stolen s |}.

Definition set_lock (s : queue_state) (l : option lock_holder) : queue_state :=
  {| qs_queue := qs_queue s; qs_lock := l; qs_owner := qs_owner s;
     qs_thieves := qs_thieves s; qs_taken := qs_taken s;
     qs_stolen := qs_stolen s |}.

Definition log_taken (s : queue_state) (r : Z * Z) : queue_state :=
  {| qs_queue := qs_queue s; qs_lock := qs_lock s; qs_owner := qs_owner s;
     qs_thieves := qs_thieves s; qs_taken := qs_taken s ++ [r];
     qs_stolen := qs_stolen s |}.

Definition log_stolen (s : queue_state) (r : Z * Z) : queue_state :=
  {| qs_queue := qs_queue s; qs_lock := qs_lock s; qs_owner := qs_owner s;
     qs_thieves := qs_thieves s; qs_taken := qs_taken s;
     qs_stolen := r :: qs_stolen s |}.

(** One step of the owner in [gomp_iter_adaptive_try_local_work]. *)
Definition owner_step (chunk_size : Z) (s : queue_state) : queue_state :=
  let q := qs_queue s in
  match qs_owner s with
  | OIdle => owner_at s q (OAdded (ladd (begin q) chunk_size))
  | OAdded b => owner_at s (set_begin q b) (OBumped b)
  | OBumped b =>
      if b <? chunk_end q then
        log_taken (owner_at s (add_nb_exec q chunk_size) OIdle)
          (lsub b chunk_size, b)
      else owner_at s q (OBack (lsub b chunk_size))
  | OBack b => owner_at s (set_begin q b) (OWait b)
  | OWait b =>
      match qs_lock s with
      | None => set_lock (owner_at s q (OLocked b)) (Some HeldByOwner)
      | Some _ => s
      end
  | OLocked b =>
      let size := lsub (chunk_end q) b in
      if size >? 0 then
        let size := if size >? chunk_size then chunk_size else size in
        owner_at s q (OSized (ladd b size) size)
      else owner_at s q (ODone b size)
  | OSized b size => owner_at s (set_begin q b) (ODone b size)
  | ODone b size =>
      if size >? 0 then
        log_taken (set_lock (owner_at s (add_nb_exec q size) OIdle) None)
          (lsub b size, b)
      else set_lock (owner_at s q OIdle) None
  end.

(** One step of thief [i] in [gomp_iter_adaptive_steal], from the label
    [do_steal] on, with this queue as [victim_queue].  The two operands of
    the subtraction of line 433 are read in either order: [begin_first]
    tells which.  After line 460 the function touches the thief's own queue
    only. *)
Definition thief_step (i : nat) (begin_first : bool) (s : queue_state)
  : queue_state :=
  let q := qs_queue s in
  match qs_thieves s !! i with
  | None => s
  | Some TIdle => thief_at s q i (TEnd (chunk_end q))
  | Some (TEnd _) =>
      thief_at s q i
        (if begin_first then TOpBegin (begin q) else TOpEnd (chunk_end q))
  | Some (TOpEnd e) =>
      let size := ldiv (lsub e (begin q)) 2 in
      thief_at s q i (if size <=? 0 then TIdle else TWait size)
  | Some (TOpBegin b) =>
      let size := ldiv (lsub (chunk_end q) b) 2 in
      thief_at s q i (if size <=? 0 then TIdle else TWait size)
  | Some (TWait size) =>
      match qs_lock s with
      | None => set_lock (thief_at s q i (TLocked size)) (Some (HeldByThief i))
      | Some _ => s
      end
  | Some (TLocked size) => thief_at s q i (TDec size (lsub (chunk_end q) size))
  | Some (TDec size e) => thief_at s (set_chunk_end q e) i (TCheck size e)
  | Some (TCheck size e) =>
      if e <? begin q then thief_at s q i (TUndo size e)
      else log_stolen (thief_at s q i (TTaken size e)) (e, ladd e size)
  | Some (TUndo size e) => thief_at s (set_chunk_end q (ladd e size)) i TFail
  | Some TFail => set_lock (thief_at s q i TIdle) None
  | Some (TTaken _ _) => set_lock (thief_at s q i TIdle) None
  end.

(** The thread that makes a step. *)
Inductive actor : Type :=
  | Owner
  | Thief (i : nat) (begin_first : bool).

Definition queue_step (chunk_size : Z) (s : queue_state) (a : actor)
  : queue_state :=
  match a with
  | Owner => owner_step chunk_size s
  | Thief i begin_first => thief_step i begin_first s
  end.

(** The state after the steps of the schedule [sched], in order. *)
Definition queue_run (chunk_size : Z) (sched : list actor) (s : queue_state)
  : queue_state :=
  fold_left (queue_step chunk_size) sched s.

(** The queue [q] with nobody inside a call, and [n] threads that may
    steal from it. *)
Definition queue_start (q : gomp_ws_adaptive_chunk) (n : nat) : queue_state :=
  {| qs_queue := q; qs_lock := None; qs_owner := OIdle;
     qs_thieves := replicate n TIdle; qs_taken := []; qs_stolen := [] |}.

(** No computation of the two functions on the queue [q] overflows: there
    is room for one chunk above [end], for the length of the queue below
    [begin] (a thief lowers [end] before it compares it with [begin]), and
    the differences of such values are representable. *)
Definition queue_fits (q : gomp_ws_adaptive_chunk) (chunk_size : Z) : Prop :=
  0 < chunk_size /\ begin q <= chunk_end q
  /\ in_long (begin q - (chunk_end q - begin q))
  /\ in_long (chunk_end q + chunk_size)
  /\ in_long (2 * (chunk_end q - begin q) + chunk_size)
  /\ in_long (nb_exec q) /\ in_long (nb_exec q + (chunk_end q - begin q)).

(** The control points at which a thread holds the lock. *)
Definition owner_locked (o : owner_pc) : bool :=
  match o with
  | OLocked _ | OSized _ _ | ODone _ _ => true
  | _ => false
  end.

Definition thief_locked (p : thief_pc) : bool :=
  match p with
  | TLocked _ | TDec _ _ | TCheck _ _ | TUndo _ _ | TFail | TTaken _ _ => true
  | _ => false
  end.

(** The value of [end] that a thief has written and not yet confirmed. *)
Definition thief_tentative (p : thief_pc) : option Z :=
  match p with
  | TCheck _ e | TUndo _ e => Some e
  | _ => None
  end.

(** The value of the field [end] when the blocks stolen so far begin at
    [t]: [t] itself, unless the holder of the lock is a thief between its
    write of line 445 and its test or its write of line 449. *)
Definition end_expected (t : Z) (l : option lock_holder)
  (ths : list thief_pc) : Z :=
  match l with
  | Some (HeldByThief i) =>
      match ths !! i with
      | Some p => match thief_tentative p with Some e => e | None => t end
      | None => t
      end
  | _ => t
  end.

(** What the locals of the owner are at each control point, when its
    ranges so far end at [c]. *)
Definition owner_inv (chunk_size c t : Z) (q : gomp_ws_adaptive_chunk)
  (o : owner_pc) : Prop :=
  match o with
  | OIdle => begin q = c
  | OAdded b => begin q = c /\ b = c + chunk_size
  | OBumped b => begin q = b /\ b = c + chunk_size
  | OBack b => begin q = c + chunk_size /\ b = c
  | OWait b | OLocked b => begin q = c /\ b = c
  | OSized b size =>
      begin q = c /\ 0 < size <= chunk_size /\ b = c + size /\ b <= t
  | ODone b size =>
      begin q = b
      /\ (0 < size -> size <= chunk_size /\ b = c + size /\ b <= t)
      /\ (size <= 0 -> b = c)
  end.

(** What the locals of a thief are at each control point. *)
Definition thief_inv (q0 : gomp_ws_adaptive_chunk) (chunk_size t : Z)
  (p : thief_pc) : Prop :=
  let len := chunk_end q0 - begin q0 in
  match p with
  | TIdle | TEnd _ | TFail | TTaken _ _ => True
  | TOpEnd e => begin q0 - len <= e <= chunk_end q0
  | TOpBegin b => begin q0 <= b <= chunk_end q0 + chunk_size
  | TWait size | TLocked size => 0 < size <= len
  | TDec size e | TCheck size e | TUndo size e =>
      0 < size <= len /\ e = t - size
  end.

(** The invariant of the queue that started as [q0]: the owner's ranges
    tile [[begin q0, c)], the stolen blocks tile [[t, end q0)], and the
    two do not meet. *)
Definition queue_inv (q0 : gomp_ws_adaptive_chunk) (chunk_size : Z)
  (s : queue_state) : Prop :=
  exists c t,
    chained (begin q0) (qs_taken s) c
    /\ chained t (qs_stolen s) (chunk_end q0)
    /\ Forall (fun r => fst r < snd r) (qs_taken s)
    /\ Forall (fun r => fst r < snd r) (qs_stolen s)
    /\ (begin q0 <= c /\ c <= t /\ t <= chunk_end q0)
    /\ owner_inv chunk_size c t (qs_queue s) (qs_owner s)
    /\ chunk_end (qs_queue s) = end_expected t (qs_lock s) (qs_thieves s)
    /\ Forall (thief_inv q0 chunk_size t) (qs_thieves s)
    /\ (owner_locked (qs_owner s) = true -> qs_lock s = Some HeldByOwner)
    /\ (forall i p, qs_thieves s !! i = Some p -> thief_locked p = true ->
                    qs_lock s = Some (HeldByThief i))
    /\ nb_exec (qs_queue s) = nb_exec q0 + (c - begin q0).

(** * Properties *)

(** ** Machine integers *)

Lemma to_long_id z : in_long z -> to_long z = z.
Proof.
  unfold in_long, to_long, ULONG_MOD, LONG_MIN, LONG_MAX. intros H.
  rewrite Z.mod_small; lia.
Qed.

Lemma to_ulong_id z : 0 <= z < ULONG_MOD -> to_ulong z = z.
Proof. unfold to_ulong. intros H. now apply Z.mod_small. Qed.

Lemma to_ulong_range z : 0 <= to_ulong z < ULONG_MOD.
Proof. unfold to_ulong, ULONG_MOD. apply Z.mod_pos_bound. lia. Qed.

Lemma to_long_range z : in_long (to_long z).
Proof.
  unfold in_long, to_long, ULONG_MOD, LONG_MIN, LONG_MAX.
  pose proof (Z.mod_pos_bound (z + 2 ^ 63) (2 ^ 64)). lia.
Qed.

(** Two values that differ by a multiple of 2^64 convert to the same [long]. *)
Lemma to_long_congr a b k : a = b + k * ULONG_MOD -> to_long a = to_long b.
Proof.
  intros ->. unfold to_long.
  replace (b + k * ULONG_MOD + 2 ^ 63) with (b + 2 ^ 63 + k * ULONG_MOD) by ring.
  now rewrite Z.mod_add by (unfold ULONG_MOD; lia).
Qed.

Lemma to_ulong_decomp z : exists k, to_ulong z = z + k * ULONG_MOD.
Proof.
  exists (- (z / ULONG_MOD)). unfold to_ulong.
  pose proof (Z.div_mod z ULONG_MOD). unfold ULONG_MOD in *. lia.
Qed.

(** The unsigned computation [start + q * incr], converted back to [long],
    is the signed value whenever that value fits. *)
Lemma to_long_unsigned_affine start q incr :
  to_long (uadd (to_ulong start) (umul q (to_ulong incr)))
  = to_long (start + q * incr).
Proof.
  unfold uadd, umul.
  destruct (to_ulong_decomp start) as [k1 E1].
  destruct (to_ulong_decomp incr) as [k2 E2].
  destruct (to_ulong_decomp (q * to_ulong incr)) as [k3 E3].
  destruct (to_ulong_decomp (to_ulong start + to_ulong (q * to_ulong incr)))
    as [k4 E4].
  rewrite E4, E3, E1, E2.
  apply to_long_congr with (k := k1 + q * k2 + k3 + k4). ring.
Qed.

Ltac long_simpl :=
  unfold ladd, lsub, lmul, ldiv;
  repeat rewrite to_long_id
    by (unfold in_long, LONG_MIN, LONG_MAX in *; lia).

(** ** Static schedule: return value and degenerate teams *)

Lemma static_calls_fixed thr ws :
  st_thr (gomp_iter_static_next thr ws) = thr ->
  forall k, static_calls k thr ws = thr.
Proof.
  intros Hfix k. induction k as [|k IH]; simpl; [reflexivity|].
  now rewrite Hfix.
Qed.

Lemma static_terminal thr ws :
  static_trip thr = -1 ->
  gomp_iter_static_next thr ws = {| st_ret := -1; st_out := None; st_thr := thr |}.
Proof. intros H. unfold gomp_iter_static_next. now rewrite H. Qed.

Lemma static_calls_terminal thr ws k :
  static_trip thr = -1 -> static_calls k thr ws = thr.
Proof.
  intros H. apply static_calls_fixed. now rewrite static_terminal.
Qed.

(** The value returned is -1, 0 or 1, and it tells what the call did. *)
Lemma static_cases thr ws :
  let r := gomp_iter_static_next thr ws in
  (static_trip thr = -1 /\ st_ret r = -1 /\ st_out r = None /\ st_thr r = thr)
  \/ (static_trip thr <> -1 /\ team_nthreads thr = 1
      /\ st_out r = Some (next ws, ws_end ws)
      /\ st_ret r = (if next ws =? ws_end ws then 1 else 0)
      /\ static_trip (st_thr r) = -1)
  \/ (static_trip thr <> -1 /\ team_nthreads thr <> 1
      /\ st_ret r = 1 /\ st_out r = None)
  \/ (static_trip thr <> -1 /\ team_nthreads thr <> 1
      /\ st_ret r = 0 /\ st_out r <> None).
Proof.
  unfold gomp_iter_static_next.
  destruct (Z.eqb_spec (static_trip thr) (-1)) as [Ht|Ht]; [left; auto|].
  destruct (Z.eqb_spec (team_nthreads thr) 1) as [Hn|Hn].
  { right; left. simpl. auto. }
  right; right.
  destruct (chunk_size ws =? 0).
  - destruct (static_trip thr >? 0); [left; cbn; auto|].
    cbv zeta.
    destruct (_ >=? _); [left | right];
      cbn [st_ret st_out]; repeat split; auto; discriminate.
  - cbv zeta.
    destruct (_ >=? static_niter ws); [left | right];
      cbn [st_ret st_out]; repeat split; auto; discriminate.
Qed.

(** C2 (counterexample).  Thread 3 of four on the loop [0, 10) receives the
    final range [9, 10) from its first call, which marks the terminal
    state, and that call returns 0: the return value specified for the
    call that produces the final range is not the one the code returns. *)
Lemma static_final_range_returns_zero :
  gomp_iter_static_next (thr_of_4 3) ws_static_10
  = {| st_ret := 0; st_out := Some (9, 10);
       st_thr := set_static_trip (thr_of_4 3) (-1) |}
  /\ ~ static_return_as_specified (thr_of_4 3) ws_static_10.
Proof.
  split; [reflexivity|].
  unfold static_return_as_specified.
  change (gomp_iter_static_next (thr_of_4 3) ws_static_10)
    with {| st_ret := 0; st_out := Some (9, 10);
            st_thr := set_static_trip (thr_of_4 3) (-1) |}.
  simpl. intros [[_ H] _].
  assert (0 < 0) by (apply H; split; [discriminate | reflexivity]). lia.
Qed.

(** C2 (amended).  [gomp_iter_static_next] returns a negative value, -1,
    exactly on the calls entered in the terminal state [static_trip == -1],
    that is on the calls that follow the one that produced the final range;
    such a call produces no range and changes nothing.  A call returns 0
    only if it produces a range, and in a team of more than one thread
    every call that produces a range returns 0, the final range included
    (that call sets [static_trip] to -1, so that the following call returns
    -1).  A call that produces no range returns 1 unless it was entered in
    the terminal state. *)
Theorem static_return_value thr ws :
  let r := gomp_iter_static_next thr ws in
  (st_ret r < 0 <-> static_trip thr = -1)
  /\ (static_trip thr = -1 ->
      st_ret r = -1 /\ st_out r = None /\ st_thr r = thr)
  /\ (st_ret r = 0 -> st_out r <> None)
  /\ (team_nthreads thr <> 1 -> st_out r <> None -> st_ret r = 0)
  /\ (st_out r = None -> static_trip thr <> -1 -> st_ret r = 1)
  /\ (static_trip (st_thr r) = -1 ->
      st_ret (gomp_iter_static_next (st_thr r) ws) = -1).
Proof.
  intros r.
  assert (Hnext : static_trip (st_thr r) = -1 ->
                  st_ret (gomp_iter_static_next (st_thr r) ws) = -1).
  { intros H. now rewrite static_terminal. }
  destruct (static_cases thr ws) as [C|[C|[C|C]]]; fold r in C.
  - destruct C as (Ht & Hr & Ho & Hs). rewrite Hr, Ho.
    repeat split; auto; try lia; try congruence.
  - destruct C as (Ht & Hn & Ho & Hr & Hs). rewrite Ho, Hr.
    destruct (next ws =? ws_end ws);
      repeat split; auto; try lia; try congruence.
  - destruct C as (Ht & Hn & Hr & Ho). rewrite Hr, Ho.
    repeat split; auto; try lia; try congruence.
  - destruct C as (Ht & Hn & Hr & Ho). rewrite Hr.
    repeat split; auto; try lia; try congruence.
Qed.

(** C10.  In a team of one thread (or without a team) the first call of
    [gomp_iter_static_next] stores [ws->next] and [ws->end] whatever the
    chunk size, sets [static_trip] to -1, and returns 0 when the range is
    not empty and 1 when it is empty, the stores being made in that case
    too; each later call returns -1 and stores nothing. *)
Theorem static_single_thread thr ws :
  team_nthreads thr = 1 ->
  static_trip thr <> -1 ->
  let r := gomp_iter_static_next thr ws in
  st_out r = Some (next ws, ws_end ws)
  /\ static_trip (st_thr r) = -1
  /\ (next ws <> ws_end ws -> st_ret r = 0)
  /\ (next ws = ws_end ws -> st_ret r = 1)
  /\ forall k,
       let r' := gomp_iter_static_next (static_calls k (st_thr r) ws) ws in
       st_ret r' = -1 /\ st_out r' = None.
Proof.
  intros Hn Ht r.
  assert (Hr : r = {| st_ret := if next ws =? ws_end ws then 1 else 0;
                      st_out := Some (next ws, ws_end ws);
                      st_thr := set_static_trip thr (-1) |}).
  { unfold r, gomp_iter_static_next.
    destruct (Z.eqb_spec (static_trip thr) (-1)); [contradiction|].
    now rewrite Hn. }
  rewrite Hr. simpl.
  repeat split.
  - intros H. now destruct (Z.eqb_spec (next ws) (ws_end ws)).
  - intros H. now destruct (Z.eqb_spec (next ws) (ws_end ws)).
  - rewrite static_calls_terminal by reflexivity.
    now rewrite static_terminal.
  - rewrite static_calls_terminal by reflexivity.
    now rewrite static_terminal.
Qed.

Lemma static_single_thread_witness :
  let thr := {| team := None; team_id := 0; static_trip := 0 |} in
  let r := gomp_iter_static_next thr ws_static_10 in
  st_out r = Some (0, 10) /\ static_trip (st_thr r) = -1.
Proof.
  intros thr r.
  destruct (static_single_thread thr ws_static_10) as (Ho & Ht & _).
  - reflexivity.
  - simpl. lia.
  - split; [exact Ho | exact Ht].
Defined.

(** C8.  With [chunk_size = 0], four threads and the loop from 0 to 10 by
    1, the first calls of threads 0, 1, 2 and 3 produce [0,3), [3,6),
    [6,9) and [9,10), and no later call of any of them produces a range. *)
Theorem static_four_threads_ten_iterations :
  map (fun i => st_out (gomp_iter_static_next (thr_of_4 i) ws_static_10))
      [0; 1; 2; 3]
  = [Some (0, 3); Some (3, 6); Some (6, 9); Some (9, 10)]
  /\ forall k : nat,
       map (fun i =>
              st_out (gomp_iter_static_next
                        (static_calls (S k) (thr_of_4 i) ws_static_10)
                        ws_static_10))
           [0; 1; 2; 3]
       = [None; None; None; None].
Proof.
  split; [reflexivity|].
  intros k. cbn [map static_calls].
  repeat match goal with
  | |- context [static_calls k ?t ws_static_10] =>
      rewrite (static_calls_fixed t ws_static_10) by reflexivity
  end.
  reflexivity.
Qed.

(** ** Exhaustion of the shared cursor *)

(** C7.  When [ws->next == ws->end], [gomp_iter_dynamic_next_locked] and
    [gomp_iter_guided_next_locked] return false, store nothing to
    [*pstart] and [*pend], and leave the work share as it was. *)
Theorem locked_next_exhausted thr ws :
  next ws = ws_end ws ->
  gomp_iter_dynamic_next_locked ws = (false, None, ws)
  /\ gomp_iter_guided_next_locked thr ws = (false, None, ws).
Proof.
  intros H.
  unfold gomp_iter_dynamic_next_locked, gomp_iter_guided_next_locked.
  rewrite H, Z.eqb_refl. split; reflexivity.
Qed.

Lemma locked_next_exhausted_witness :
  let ws := set_next ws_static_10 10 in
  gomp_iter_dynamic_next_locked ws = (false, None, ws)
  /\ gomp_iter_guided_next_locked (thr_of_4 0) ws = (false, None, ws).
Proof.
  intros ws. apply (locked_next_exhausted (thr_of_4 0) ws). reflexivity.
Defined.

(** ** Adaptive schedule *)

Lemma try_local_work_false q cs q' out :
  gomp_iter_adaptive_try_local_work q cs = (false, out, q') ->
  out = None /\ nb_exec q' = nb_exec q /\ chunk_end q' = chunk_end q
  /\ is_init q' = is_init q /\ begin q' = lsub (ladd (begin q) cs) cs.
Proof.
  unfold gomp_iter_adaptive_try_local_work.
  destruct (ladd (begin q) cs <? chunk_end q); [discriminate|].
  destruct (lsub (chunk_end q) (lsub (ladd (begin q) cs) cs) >? 0);
    [discriminate|].
  intros H. injection H as <- <-. simpl. auto.
Qed.

(** C1 (counterexample).  Worker 0 has no local work and has executed four
    iterations, while eight are still counted as left and worker 1 holds
    four of them.  The call returns false at once: the count is neither
    subtracted nor reset, nothing is stolen, and [nb_iterations_left] is
    not zero. *)
Lemma adaptive_next_false_with_iterations_left :
  gomp_iter_adaptive_next init_worker_skip (thr_of_2 0) ws_adaptive_8
  = Some (false, None, ws_adaptive_8)
  /\ nb_iterations_left ws_adaptive_8 = 8
  /\ ~ adaptive_false_as_specified init_worker_skip (thr_of_2 0) ws_adaptive_8.
Proof.
  split; [reflexivity|]. split; [reflexivity|].
  intros H.
  destruct (H None ws_adaptive_8
              {| begin := 4; chunk_end := 4; nb_exec := 4; is_init := true |}
              {| begin := 4; chunk_end := 4; nb_exec := 4; is_init := true |})
    as (_ & _ & H0); try reflexivity.
  discriminate H0.
Qed.

(** C1 (amended).  When a call of [gomp_iter_adaptive_next] finds no local
    work it returns false at once, storing nothing: [nb_iterations_left]
    is not changed, the executed count [nb_exec] of the worker is not
    reset, and the queue of no other worker is touched, since the block
    that publishes the count and steals is compiled out. *)
Theorem adaptive_next_without_local_work
  (init_worker : gomp_work_share -> gomp_thread -> Z -> Z -> Z -> gomp_work_share)
  (thr : gomp_thread) (ws : gomp_work_share)
  (slot local_chunk : gomp_ws_adaptive_chunk) :
  let tid := Z.to_nat (team_id thr) in
  let ws1 := if is_init slot then ws
             else init_worker ws thr (start_t0 ws) (ws_end ws) (incr ws) in
  adaptive_chunks ws !! tid = Some slot ->
  adaptive_chunks ws1 !! tid = Some local_chunk ->
  fst (fst (gomp_iter_adaptive_try_local_work local_chunk (chunk_size ws1)))
  = false ->
  exists ws' local_chunk',
    gomp_iter_adaptive_next init_worker thr ws = Some (false, None, ws')
    /\ nb_iterations_left ws' = nb_iterations_left ws1
    /\ adaptive_chunks ws' !! tid = Some local_chunk'
    /\ nb_exec local_chunk' = nb_exec local_chunk
    /\ chunk_end local_chunk' = chunk_end local_chunk
    /\ (forall j, j <> tid ->
        adaptive_chunks ws' !! j = adaptive_chunks ws1 !! j).
Proof.
  intros tid ws1 Hslot Hlocal Hfail.
  unfold gomp_iter_adaptive_next. fold tid. rewrite Hslot. fold ws1.
  rewrite Hlocal.
  destruct (gomp_iter_adaptive_try_local_work local_chunk (chunk_size ws1))
    as [[r out] q] eqn:E.
  simpl in Hfail. subst r.
  destruct (try_local_work_false _ _ _ _ E) as (-> & Hx & He & _ & _).
  eexists. exists q. split; [reflexivity|]. simpl.
  split; [reflexivity|]. split.
  - apply list_lookup_insert_eq. eapply lookup_lt_Some. exact Hlocal.
  - split; [exact Hx|]. split; [exact He|].
    intros j Hj. apply list_lookup_insert_ne. congruence.
Qed.

Lemma adaptive_next_without_local_work_witness :
  exists ws' local_chunk',
    gomp_iter_adaptive_next init_worker_skip (thr_of_2 0) ws_adaptive_8
    = Some (false, None, ws')
    /\ nb_iterations_left ws' = 8
    /\ adaptive_chunks ws' !! 0%nat = Some local_chunk'
    /\ nb_exec local_chunk' = 4.
Proof.
  destruct (adaptive_next_without_local_work init_worker_skip (thr_of_2 0)
              ws_adaptive_8
              {| begin := 4; chunk_end := 4; nb_exec := 4; is_init := true |}
              {| begin := 4; chunk_end := 4; nb_exec := 4; is_init := true |})
    as (ws' & lc' & H1 & H2 & H3 & H4 & _); try reflexivity.
  exists ws', lc'. repeat split; assumption.
Defined.

(** C5.  For a positive chunk size, when [begin + chunk_size] is at most
    the end of the queue, [gomp_iter_adaptive_try_local_work] returns true
    with the range from the old [begin] to the old [begin] plus
    [chunk_size], leaves [begin] at the end of that range and adds
    [chunk_size] to [nb_exec].  (When the new [begin] equals the end, the
    result is reached by the branch that takes the lock.) *)
Theorem adaptive_local_work_claim (q : gomp_ws_adaptive_chunk) (cs : Z) :
  0 < cs ->
  in_long cs ->
  in_long (begin q) ->
  in_long (chunk_end q) ->
  begin q + cs <= chunk_end q ->
  gomp_iter_adaptive_try_local_work q cs
  = (true, Some (begin q, begin q + cs),
     {| begin := begin q + cs; chunk_end := chunk_end q;
        nb_exec := ladd (nb_exec q) cs; is_init := is_init q |}).
Proof.
  intros Hcs Hc Hb He Hle.
  unfold gomp_iter_adaptive_try_local_work.
  assert (E1 : ladd (begin q) cs = begin q + cs)
    by (unfold in_long, LONG_MIN, LONG_MAX in *; long_simpl; reflexivity).
  rewrite E1.
  assert (E2 : lsub (begin q + cs) cs = begin q).
  { unfold lsub. replace (begin q + cs - cs) with (begin q) by ring.
    now apply to_long_id. }
  rewrite E2.
  destruct (Z.ltb_spec (begin q + cs) (chunk_end q)) as [Hlt|Hge];
    [reflexivity|].
  assert (Heq : chunk_end q = begin q + cs) by lia.
  assert (E3 : lsub (chunk_end q) (begin q) = cs).
  { unfold lsub. rewrite Heq. replace (begin q + cs - begin q) with cs by ring.
    apply to_long_id. unfold in_long, LONG_MIN, LONG_MAX in *. lia. }
  rewrite E3.
  destruct (Z.gtb_spec cs 0) as [_|Hn]; [|lia].
  destruct (Z.gtb_spec cs cs) as [Hn|_]; [lia|].
  rewrite E1, E2. reflexivity.
Qed.

Lemma adaptive_local_work_claim_witness :
  gomp_iter_adaptive_try_local_work
    {| begin := 4; chunk_end := 8; nb_exec := 0; is_init := true |} 4
  = (true, Some (4, 8),
     {| begin := 8; chunk_end := 8; nb_exec := 4; is_init := true |}).
Proof.
  apply (adaptive_local_work_claim
           {| begin := 4; chunk_end := 8; nb_exec := 0; is_init := true |} 4);
    unfold in_long, LONG_MIN, LONG_MAX; cbn [begin chunk_end]; lia.
Defined.

(** Boundary: with [chunk_size = 0] and an empty queue the call returns
    false. *)
Lemma adaptive_local_work_zero_chunk :
  gomp_iter_adaptive_try_local_work
    {| begin := 4; chunk_end := 4; nb_exec := 0; is_init := true |} 0
  = (false, None,
     {| begin := 4; chunk_end := 4; nb_exec := 0; is_init := true |}).
Proof. reflexivity. Qed.

(** ** Arithmetic of the remaining distance *)

Lemma team_nthreads_range thr :
  team_ok thr -> 1 <= team_nthreads thr < UINT_MOD.
Proof.
  unfold team_ok, team_nthreads, UINT_MOD. destruct (team thr) as [t|].
  - intros H. rewrite to_ulong_id; [exact H|]. unfold ULONG_MOD. lia.
  - lia.
Qed.

(** The quotient of C on operands that point the same way. *)
Lemma quot_same_sign a b :
  b <> 0 -> (0 < b -> 0 <= a) -> (b < 0 -> a <= 0) ->
  Z.quot a b = Z.abs a / Z.abs b.
Proof.
  intros Hb Hp Hn.
  destruct (Z.lt_trichotomy b 0) as [Hneg|[->|Hpos]]; [|contradiction|].
  - specialize (Hn Hneg).
    rewrite <- (Z.quot_opp_opp a b) by lia.
    rewrite Z.quot_div_nonneg by lia.
    rewrite (Z.abs_neq a), (Z.abs_neq b) by lia. reflexivity.
  - specialize (Hp Hpos).
    rewrite Z.quot_div_nonneg by lia.
    rewrite (Z.abs_eq a), (Z.abs_eq b) by lia. reflexivity.
Qed.

(** The number [n] of whole steps from the cursor [v] to the end. *)
Lemma steps_left_bounds ws v :
  step_ok ws -> cursor_ok ws v ->
  let n := Z.quot (ws_end ws - v) (incr ws) in
  0 <= n <= LONG_MAX
  /\ n * Z.abs (incr ws) <= Z.abs (ws_end ws - v)
  /\ Z.abs (ws_end ws - v) < (n + 1) * Z.abs (incr ws).
Proof.
  intros (Hi & Hil & Hel) (Hv & Hd & Hp & Hn) n.
  unfold in_long, LONG_MIN, LONG_MAX in *.
  assert (E : n = Z.abs (ws_end ws - v) / Z.abs (incr ws)).
  { unfold n. apply quot_same_sign; [assumption| |]; intros; lia. }
  assert (Hb : 0 < Z.abs (incr ws)) by lia.
  pose proof (Z.div_mod (Z.abs (ws_end ws - v)) (Z.abs (incr ws))) as Hdm.
  pose proof (Z.mod_pos_bound (Z.abs (ws_end ws - v)) (Z.abs (incr ws)) Hb).
  rewrite <- E in Hdm.
  assert (0 <= n) by (rewrite E; apply Z.div_pos; lia).
  generalize dependent (Z.abs (ws_end ws - v)).
  generalize dependent (Z.abs (incr ws)).
  intros B HB A HA E Hdm Hm. repeat split; nia.
Qed.

Lemma steps_left_aligned ws v :
  step_ok ws -> cursor_ok ws v -> cursor_aligned ws v ->
  Z.quot (ws_end ws - v) (incr ws) * incr ws = ws_end ws - v.
Proof.
  intros (Hi & _) _ [k Hk]. rewrite Hk.
  rewrite Z.quot_mul by assumption. reflexivity.
Qed.

(** ** Guided schedule: the value of a claim *)

(** The claim computed by the code, in unbounded arithmetic: [q] steps when
    [q <= n], and otherwise the end of the loop itself. *)
Lemma guided_claim_value thr ws v :
  step_ok ws -> team_ok thr -> cursor_ok ws v -> in_long (chunk_size ws) ->
  let n := Z.quot (ws_end ws - v) (incr ws) in
  let q := Z.max (ceil_div n (team_nthreads thr)) (to_ulong (chunk_size ws)) in
  guided_claim (team_nthreads thr) (ws_end ws) (incr ws) (chunk_size ws) v
  = if q <=? n then v + q * incr ws else ws_end ws.
Proof.
  intros Hs Ht Hc Hch n q.
  pose proof (steps_left_bounds ws v Hs Hc) as (Hn & Hlo & Hhi). fold n in Hn, Hlo, Hhi.
  pose proof (team_nthreads_range thr Ht) as Hnt.
  destruct Hs as (Hi & Hil & Hel). destruct Hc as (Hv & Hd & Hp & Hng).
  unfold guided_claim.
  assert (En : to_ulong (ldiv (lsub (ws_end ws) v) (incr ws)) = n).
  { unfold ldiv, lsub.
    rewrite (to_long_id (ws_end ws - v))
      by (unfold in_long, LONG_MIN, LONG_MAX in *; lia).
    fold n. rewrite to_long_id by (unfold in_long, LONG_MIN, LONG_MAX in *; lia).
    apply to_ulong_id. unfold ULONG_MOD, LONG_MAX in *. lia. }
  rewrite En.
  assert (Eq0 : udiv (usub (uadd n (team_nthreads thr)) 1) (team_nthreads thr)
                = ceil_div n (team_nthreads thr)).
  { unfold udiv, usub, uadd, ceil_div.
    rewrite (to_ulong_id (n + _))
      by (unfold ULONG_MOD, UINT_MOD, LONG_MAX in *; lia).
    rewrite to_ulong_id
      by (unfold ULONG_MOD, UINT_MOD, LONG_MAX in *; lia).
    reflexivity. }
  rewrite Eq0.
  assert (Eq : (if ceil_div n (team_nthreads thr) <? to_ulong (chunk_size ws)
                then to_ulong (chunk_size ws)
                else ceil_div n (team_nthreads thr)) = q).
  { unfold q. destruct (Z.ltb_spec (ceil_div n (team_nthreads thr))
                          (to_ulong (chunk_size ws))); lia. }
  rewrite Eq.
  destruct (Z.leb_spec q n) as [Hq|Hq]; [|reflexivity].
  rewrite to_long_unsigned_affine.
  assert (Hq0 : 0 <= q).
  { unfold q. pose proof (to_ulong_range (chunk_size ws)). lia. }
  apply to_long_id. unfold in_long, LONG_MIN, LONG_MAX in *.
  destruct (Z.lt_trichotomy (incr ws) 0) as [Hneg|[H0|Hpos]];
    [specialize (Hng Hneg)|contradiction|specialize (Hp Hpos)]; nia.
Qed.

(** The rounded-up share [ceil(n / nthreads)] is at least one when a step
    is left, and never more than [n]. *)
Lemma ceil_div_bounds n t :
  0 <= n -> 1 <= t ->
  0 <= ceil_div n t <= n /\ (1 <= n -> 1 <= ceil_div n t).
Proof.
  intros Hn Ht. unfold ceil_div.
  pose proof (Z.div_mod (n + t - 1) t) as Hdm.
  pose proof (Z.mod_pos_bound (n + t - 1) t) as Hm.
  assert (0 <= (n + t - 1) / t) by (apply Z.div_pos; lia).
  split; [split; [assumption|]|]; nia.
Qed.

Lemma guided_cas_loop_success seen nthr endv incr chunk start s e nxt :
  guided_cas_loop seen nthr endv incr chunk start = (true, Some (s, e), nxt) ->
  s <> endv /\ (s = start \/ In s seen)
  /\ e = guided_claim nthr endv incr chunk s /\ nxt = e.
Proof.
  revert start. induction seen as [|tmp seen IH]; intros start; simpl.
  - destruct (Z.eqb_spec start endv); [discriminate|].
    intros H. injection H as <- <- <-. auto.
  - destruct (Z.eqb_spec start endv); [discriminate|].
    destruct (tmp =? start).
    + intros H. injection H as <- <- <-. auto.
    + intros H. destruct (IH _ H) as (H1 & [H2|H2] & H3 & H4); auto.
Qed.

Lemma guided_target_value thr ws v :
  step_ok ws -> team_ok thr -> cursor_ok ws v -> chunk_count ws ->
  guided_claim (team_nthreads thr) (ws_end ws) (incr ws) (chunk_size ws) v
  = guided_target (team_nthreads thr) (ws_end ws) (incr ws) (chunk_size ws) v.
Proof.
  intros Hs Ht Hc Hch. unfold chunk_count, LONG_MAX in Hch.
  rewrite (guided_claim_value thr ws v Hs Ht Hc)
    by (unfold in_long, LONG_MIN, LONG_MAX; lia).
  unfold guided_target.
  rewrite (to_ulong_id (chunk_size ws)) by (unfold ULONG_MOD; lia).
  reflexivity.
Qed.

(** C4 (counterexample).  On the loop from 0 to 10 by 3 with a floor of
    100 iterations, [n = 3] and [q = 100]: the claim takes the cursor to
    the end of the loop, 10, and not to [0 + min(100, 3) * 3 = 9]. *)
Lemma guided_claim_reaches_end_not_multiple :
  gomp_iter_guided_next_locked (thr_of_4 0) ws_guided_10_by_3
  = (true, Some (0, 10), set_next ws_guided_10_by_3 10)
  /\ guided_claim_as_specified 4 10 3 100 0 = 9
  /\ next (snd (gomp_iter_guided_next_locked (thr_of_4 0) ws_guided_10_by_3))
     <> guided_claim_as_specified
          (team_nthreads (thr_of_4 0)) (ws_end ws_guided_10_by_3)
          (incr ws_guided_10_by_3) (chunk_size ws_guided_10_by_3)
          (next ws_guided_10_by_3).
Proof.
  split; [reflexivity|]. split; [reflexivity|].
  vm_compute. discriminate.
Qed.

(** C4 (amended).  On every successful guided claim, lock-held or by
    compare-and-swap, from an observed cursor value [start] other than the
    end, with [n = (end - start) / incr] and
    [q = max(ceil(n / nthreads), chunk_size)], the new cursor is
    [start + q * incr] when [q <= n] and the end of the loop otherwise;
    this is [start + min(q, n) * incr] whenever the distance from [start]
    to the end is a whole number of steps. *)
Theorem guided_claim_cursor thr ws seen :
  step_ok ws -> team_ok thr -> chunk_count ws ->
  cursor_ok ws (next ws) -> Forall (cursor_ok ws) seen ->
  let target :=
    guided_target (team_nthreads thr) (ws_end ws) (incr ws) (chunk_size ws) in
  (next ws <> ws_end ws ->
   gomp_iter_guided_next_locked thr ws
   = (true, Some (next ws, target (next ws)), set_next ws (target (next ws))))
  /\ (forall s e ws',
        gomp_iter_guided_next seen thr ws = (true, Some (s, e), ws') ->
        s <> ws_end ws /\ (s = next ws \/ In s seen)
        /\ e = target s /\ ws' = set_next ws e)
  /\ (forall v, cursor_ok ws v -> cursor_aligned ws v ->
        target v
        = guided_claim_as_specified (team_nthreads thr) (ws_end ws) (incr ws)
            (chunk_size ws) v).
Proof.
  intros Hs Ht Hch Hc Hseen target. split; [|split].
  - intros Hne. unfold gomp_iter_guided_next_locked.
    destruct (Z.eqb_spec (next ws) (ws_end ws)); [contradiction|].
    rewrite guided_target_value by assumption. reflexivity.
  - intros s e ws'. unfold gomp_iter_guided_next.
    destruct (guided_cas_loop seen (team_nthreads thr) (ws_end ws) (incr ws)
                (chunk_size ws) (next ws)) as [[r out] nxt] eqn:E.
    intros H. injection H as -> -> <-.
    destruct (guided_cas_loop_success _ _ _ _ _ _ _ _ _ E)
      as (H1 & H2 & H3 & H4).
    assert (Hcs : cursor_ok ws s).
    { destruct H2 as [->|Hin]; [assumption|].
      rewrite List.Forall_forall in Hseen. now apply Hseen. }
    rewrite guided_target_value in H3 by assumption.
    subst nxt. fold target in H3. auto.
  - intros v Hv Ha. unfold target, guided_target, guided_claim_as_specified.
    pose proof (steps_left_aligned ws v Hs Hv Ha) as Hal.
    set (n := Z.quot (ws_end ws - v) (incr ws)) in *.
    set (q := Z.max (ceil_div n (team_nthreads thr)) (chunk_size ws)).
    destruct (Z.leb_spec q n) as [Hq|Hq].
    + rewrite Z.min_l by assumption. reflexivity.
    + rewrite Z.min_r by lia. lia.
Qed.

Lemma guided_claim_cursor_witness :
  gomp_iter_guided_next_locked (thr_of_4 0) ws_guided_10_by_3
  = (true, Some (0, 10), set_next ws_guided_10_by_3 10).
Proof.
  assert (Hin : forall z, -10 <= z <= 100 -> in_long z)
    by (unfold in_long, LONG_MIN, LONG_MAX; lia).
  destruct (guided_claim_cursor (thr_of_4 0) ws_guided_10_by_3 [])
    as (H & _).
  - unfold step_ok; simpl. repeat split; try apply Hin; lia.
  - unfold team_ok, UINT_MOD; simpl. lia.
  - unfold chunk_count, LONG_MAX; simpl. lia.
  - unfold cursor_ok, LONG_MAX; simpl. repeat split; try apply Hin; lia.
  - constructor.
  - apply H. simpl. lia.
Defined.

(** ** Guided schedule: progress *)

Lemma to_ulong_nonzero z : in_long z -> z <> 0 -> 1 <= to_ulong z.
Proof.
  intros Hz Hne. pose proof (to_ulong_range z) as Hr.
  destruct (to_ulong_decomp z) as [k Hk].
  unfold in_long, LONG_MIN, LONG_MAX, ULONG_MOD in *.
  assert (to_ulong z <> 0) by lia. lia.
Qed.

(** A claim from a cursor value that is not the end moves strictly toward
    the end and not past it, and the new value is again a cursor value of
    the loop.  The floor [chunk_size] is not zero, or else the distance to
    the end is a whole number of steps. *)
Lemma guided_claim_advances thr ws v :
  step_ok ws -> team_ok thr -> in_long (chunk_size ws) ->
  cursor_ok ws v -> chunk_size ws <> 0 \/ cursor_aligned ws v ->
  v <> ws_end ws ->
  let e := guided_claim (team_nthreads thr) (ws_end ws) (incr ws)
             (chunk_size ws) v in
  advances (incr ws) v (ws_end ws) e
  /\ cursor_ok ws e
  /\ (chunk_size ws <> 0 \/ cursor_aligned ws e)
  /\ Z.abs (ws_end ws - e) < Z.abs (ws_end ws - v).
Proof.
  intros Hs Ht Hch Hc Hfl Hne e.
  unfold e. rewrite (guided_claim_value thr ws v Hs Ht Hc Hch).
  pose proof (steps_left_bounds ws v Hs Hc) as (Hn & Hlo & Hhi).
  pose proof (team_nthreads_range thr Ht) as Hnt.
  set (n := Z.quot (ws_end ws - v) (incr ws)) in *.
  pose proof (ceil_div_bounds n (team_nthreads thr) (proj1 Hn) (proj1 Hnt))
    as (Hcd & Hcd1).
  pose proof (to_ulong_range (chunk_size ws)) as Hur.
  set (q := Z.max (ceil_div n (team_nthreads thr)) (to_ulong (chunk_size ws))).
  assert (Hq1 : 1 <= q \/ q = 0 /\ cursor_aligned ws v /\ n = 0).
  { destruct (Z.eq_dec (chunk_size ws) 0) as [Hz|Hnz].
    - destruct Hfl as [Hfl|Hal]; [contradiction|].
      destruct (Z.eq_dec n 0) as [Hn0|Hn0].
      + right. unfold q. rewrite Hz. unfold to_ulong, ULONG_MOD.
        rewrite Z.mod_0_l by lia. split; [lia|auto].
      + left. unfold q. lia.
    - left. pose proof (to_ulong_nonzero _ Hch Hnz). unfold q. lia. }
  assert (Hq : 1 <= q).
  { destruct Hq1 as [H|(_ & Hal & Hn0)]; [assumption|].
    pose proof (steps_left_aligned ws v Hs Hc Hal) as Hx. fold n in Hx.
    rewrite Hn0 in Hx. lia. }
  clear Hq1.
  destruct Hs as (Hi & Hil & Hel). destruct Hc as (Hv & Hd & Hp & Hng).
  unfold advances, cursor_ok, cursor_aligned, in_long, LONG_MIN, LONG_MAX in *.
  destruct (Z.leb_spec q n) as [Hqn|Hqn].
  - assert (Hal' : chunk_size ws <> 0 \/ (incr ws | ws_end ws - (v + q * incr ws))).
    { destruct Hfl as [H|[k Hk]]; [left; assumption|right].
      exists (k - q). lia. }
    destruct (Z.lt_trichotomy (incr ws) 0) as [Hneg|[H0|Hpos]];
      [specialize (Hng Hneg)|contradiction|specialize (Hp Hpos)].
    + rewrite (Z.abs_neq (incr ws)) in * by lia.
      rewrite (Z.abs_neq (ws_end ws - v)) in * by lia.
      assert (q * incr ws <= -1) by nia.
      assert (ws_end ws - v <= q * incr ws) by nia.
      repeat split; try assumption; try lia.
    + rewrite (Z.abs_eq (incr ws)) in * by lia.
      rewrite (Z.abs_eq (ws_end ws - v)) in * by lia.
      assert (1 <= q * incr ws) by nia.
      assert (q * incr ws <= ws_end ws - v) by nia.
      repeat split; try assumption; try lia.
  - assert (Hal' : chunk_size ws <> 0 \/ (incr ws | ws_end ws - ws_end ws)).
    { right. exists 0. lia. }
    replace (ws_end ws - ws_end ws) with 0 in * by lia.
    repeat split; try assumption; try lia.
Qed.

Lemma guided_next_locked_claim thr ws :
  next ws <> ws_end ws ->
  gomp_iter_guided_next_locked thr ws
  = (true,
     Some (next ws,
           guided_claim (team_nthreads thr) (ws_end ws) (incr ws)
             (chunk_size ws) (next ws)),
     set_next ws (guided_claim (team_nthreads thr) (ws_end ws) (incr ws)
                    (chunk_size ws) (next ws))).
Proof.
  intros Hne. unfold gomp_iter_guided_next_locked.
  now destruct (Z.eqb_spec (next ws) (ws_end ws)).
Qed.

Lemma guided_drain_reaches_end thr (m : nat) :
  forall ws,
    step_ok ws -> team_ok thr -> in_long (chunk_size ws) ->
    cursor_ok ws (next ws) ->
    chunk_size ws <> 0 \/ cursor_aligned ws (next ws) ->
    Z.abs (ws_end ws - next ws) <= Z.of_nat m ->
    exists k, (k <= m)%nat /\ next (guided_drain k thr ws) = ws_end ws.
Proof.
  induction m as [|m IH]; intros ws Hs Ht Hch Hc Hfl Hm.
  - exists 0%nat. split; [lia|]. simpl. lia.
  - destruct (Z.eq_dec (next ws) (ws_end ws)) as [Heq|Hne].
    + exists 0%nat. split; [lia|]. exact Heq.
    + pose proof (guided_claim_advances thr ws (next ws) Hs Ht Hch Hc Hfl Hne)
        as (_ & Hc' & Hfl' & Hlt).
      set (e := guided_claim (team_nthreads thr) (ws_end ws) (incr ws)
                  (chunk_size ws) (next ws)) in *.
      destruct (IH (set_next ws e)) as (k & Hk & Hk'); try assumption.
      * simpl. lia.
      * exists (S k). split; [lia|]. simpl.
        rewrite guided_next_locked_claim by assumption. exact Hk'.
Qed.

(** C6.  Every successful guided claim, lock-held or by compare-and-swap,
    moves the cursor strictly past the observed start in the direction of
    the step and not past the end; hence repeated claims take the cursor
    from any value that has not passed the end to the end in finitely many
    steps, at most as many as the distance to the end.  The floor
    [chunk_size] is not zero, or else the distance to the end is a whole
    number of steps. *)
Theorem guided_claims_converge thr ws seen :
  step_ok ws -> team_ok thr -> in_long (chunk_size ws) ->
  cursor_ok ws (next ws) ->
  chunk_size ws <> 0 \/ cursor_aligned ws (next ws) ->
  Forall (fun v => cursor_ok ws v
                   /\ (chunk_size ws <> 0 \/ cursor_aligned ws v)) seen ->
  (next ws <> ws_end ws ->
   exists e,
     gomp_iter_guided_next_locked thr ws
     = (true, Some (next ws, e), set_next ws e)
     /\ advances (incr ws) (next ws) (ws_end ws) e)
  /\ (forall s e ws',
        gomp_iter_guided_next seen thr ws = (true, Some (s, e), ws') ->
        next ws' = e /\ advances (incr ws) s (ws_end ws) e)
  /\ (exists k,
        (k <= Z.to_nat (Z.abs (ws_end ws - next ws)))%nat
        /\ next (guided_drain k thr ws) = ws_end ws
        /\ gomp_iter_guided_next_locked thr (guided_drain k thr ws)
           = (false, None, guided_drain k thr ws)).
Proof.
  intros Hs Ht Hch Hc Hfl Hseen. split; [|split].
  - intros Hne. eexists. split.
    + apply guided_next_locked_claim. assumption.
    + apply (guided_claim_advances thr ws (next ws)); assumption.
  - intros s e ws'. unfold gomp_iter_guided_next.
    destruct (guided_cas_loop seen (team_nthreads thr) (ws_end ws) (incr ws)
                (chunk_size ws) (next ws)) as [[r out] nxt] eqn:E.
    intros H. injection H as -> -> <-.
    destruct (guided_cas_loop_success _ _ _ _ _ _ _ _ _ E)
      as (H1 & H2 & H3 & H4).
    subst nxt. split; [reflexivity|]. rewrite H3.
    destruct H2 as [->|Hin].
    + apply (guided_claim_advances thr ws (next ws)); assumption.
    + rewrite List.Forall_forall in Hseen.
      destruct (Hseen s Hin) as (Hcs & Hfs).
      apply (guided_claim_advances thr ws s); assumption.
  - destruct (guided_drain_reaches_end thr
                (Z.to_nat (Z.abs (ws_end ws - next ws))) ws)
      as (k & Hk & Hk'); try assumption.
    + lia.
    + exists k. split; [assumption|]. split; [assumption|].
      unfold gomp_iter_guided_next_locked.
      assert (Hend : ws_end (guided_drain k thr ws) = ws_end ws).
      { clear. revert ws. induction k as [|k IH]; intros ws; simpl; [reflexivity|].
        unfold gomp_iter_guided_next_locked.
        destruct (next ws =? ws_end ws); [reflexivity|].
        rewrite IH. reflexivity. }
      rewrite Hk', Hend, Z.eqb_refl. reflexivity.
Qed.

Lemma guided_claims_converge_witness :
  exists k, (k <= 10)%nat
            /\ next (guided_drain k (thr_of_4 0) ws_guided_10_by_3) = 10.
Proof.
  assert (Hin : forall z, -10 <= z <= 100 -> in_long z)
    by (unfold in_long, LONG_MIN, LONG_MAX; lia).
  destruct (guided_claims_converge (thr_of_4 0) ws_guided_10_by_3 [])
    as (_ & _ & k & Hk & Hk' & _).
  - unfold step_ok; simpl. repeat split; try apply Hin; lia.
  - unfold team_ok, UINT_MOD; simpl. lia.
  - apply Hin. simpl. lia.
  - unfold cursor_ok, LONG_MAX; simpl. repeat split; try apply Hin; lia.
  - left. simpl. lia.
  - constructor.
  - exists k. split; [exact Hk | exact Hk'].
Defined.

(** Boundary: with a floor of zero and less than one step left, the range
    handed out is empty and the cursor does not move. *)
Lemma guided_claim_zero_floor_stalls :
  let ws := {| chunk_size := 0; ws_end := 10; incr := 3; next := 9;
               mode := false; start_t0 := 0; nb_iterations_left := 0;
               adaptive_chunks := [] |} in
  gomp_iter_guided_next_locked (thr_of_4 0) ws = (true, Some (9, 9), ws).
Proof. reflexivity. Qed.

(** ** Dynamic schedule: the fetch-and-add path *)

Lemma dynamic_fast_step seen ws :
  mode ws = true ->
  snd (gomp_iter_dynamic_next seen ws)
  = set_next ws (ladd (next ws) (chunk_size ws)).
Proof.
  intros Hm. unfold gomp_iter_dynamic_next. rewrite Hm.
  destruct (incr ws >? 0).
  - destruct (next ws >=? ws_end ws); reflexivity.
  - destruct (next ws <=? ws_end ws); reflexivity.
Qed.

Lemma dynamic_fast_false seen ws :
  mode ws = true -> incr ws <> 0 -> past_end ws (next ws) ->
  gomp_iter_dynamic_next seen ws
  = (false, None, set_next ws (ladd (next ws) (chunk_size ws))).
Proof.
  intros Hm Hi (Hp & Hn). unfold gomp_iter_dynamic_next. rewrite Hm.
  destruct (Z.gtb_spec (incr ws) 0) as [Hpos|Hneg].
  - destruct (Z.geb_spec (next ws) (ws_end ws)); [reflexivity|].
    specialize (Hp ltac:(lia)). lia.
  - destruct (Z.leb_spec (next ws) (ws_end ws)); [reflexivity|].
    specialize (Hn ltac:(lia)). lia.
Qed.

Lemma dynamic_calls_drift c (k : nat) :
  forall ws,
    mode ws = true -> incr ws <> 0 -> 0 < c -> chunk_size ws = c * incr ws ->
    in_long (next ws) -> past_end ws (next ws) ->
    in_long (next ws + (Z.of_nat k + 1) * chunk_size ws) ->
    let ws_k := dynamic_calls k ws in
    mode ws_k = true /\ incr ws_k = incr ws /\ ws_end ws_k = ws_end ws
    /\ chunk_size ws_k = chunk_size ws
    /\ next ws_k = next ws + Z.of_nat k * chunk_size ws.
Proof.
  induction k as [|k IH]; intros ws Hm Hi Hc Hch Hl Hpast Hfit; simpl.
  - repeat split; auto. lia.
  - rewrite dynamic_fast_step by assumption.
    assert (Hstep : ladd (next ws) (chunk_size ws) = next ws + chunk_size ws).
    { unfold ladd. apply to_long_id.
      unfold in_long, LONG_MIN, LONG_MAX in *. nia. }
    rewrite Hstep.
    destruct (IH (set_next ws (next ws + chunk_size ws)))
      as (H1 & H2 & H3 & H4 & H5); simpl; try assumption.
    + unfold in_long, LONG_MIN, LONG_MAX in *. nia.
    + destruct Hpast as (Hp & Hn). unfold past_end. simpl.
      split; intros Hs; [specialize (Hp Hs)|specialize (Hn Hs)]; nia.
    + replace (next ws + chunk_size ws + (Z.of_nat k + 1) * chunk_size ws)
        with (next ws + (Z.of_nat (S k) + 1) * chunk_size ws) by lia.
      assumption.
    + simpl in *. repeat split; auto. lia.
Qed.

(** C9.  When [ws->mode] is set, every call of [gomp_iter_dynamic_next]
    adds the chunk field to [ws->next], whatever it returns.  From a cursor
    at or past the end, with a chunk of [c > 0] iterations stored as
    [c * incr] and as long as the cursor fits a [long], each further call
    returns false and stores nothing while it moves [ws->next] one chunk
    further past the end, so that the call does not leave [ws->next]
    unchanged; the locked variant at [ws->next == ws->end] returns false
    and changes nothing. *)
Theorem dynamic_fast_path_drift ws seen :
  mode ws = true ->
  snd (gomp_iter_dynamic_next seen ws)
  = set_next ws (ladd (next ws) (chunk_size ws))
  /\ (forall c (k : nat),
        incr ws <> 0 -> 0 < c -> chunk_size ws = c * incr ws ->
        in_long (next ws) -> past_end ws (next ws) ->
        in_long (next ws + (Z.of_nat k + 1) * chunk_size ws) ->
        let ws_k := dynamic_calls k ws in
        next ws_k = next ws + Z.of_nat k * chunk_size ws
        /\ gomp_iter_dynamic_next seen ws_k
           = (false, None, set_next ws_k (next ws_k + chunk_size ws))
        /\ next ws_k + chunk_size ws <> next ws_k
        /\ past_end ws (next ws_k + chunk_size ws)
        /\ next ws_k + chunk_size ws <> ws_end ws)
  /\ (next ws = ws_end ws ->
      gomp_iter_dynamic_next_locked ws = (false, None, ws)).
Proof.
  intros Hm. split; [now apply dynamic_fast_step|]. split.
  - intros c k Hi Hc Hch Hl Hpast Hfit ws_k.
    destruct (dynamic_calls_drift c k ws Hm Hi Hc Hch Hl Hpast Hfit)
      as (H1 & H2 & H3 & H4 & H5). fold ws_k in H1, H2, H3, H4, H5.
    assert (Hpk : past_end ws_k (next ws_k)).
    { destruct Hpast as (Hp & Hn). unfold past_end. rewrite H2, H3, H5.
      split; intros Hs; [specialize (Hp Hs)|specialize (Hn Hs)]; nia. }
    split; [assumption|]. split; [|split; [|split]].
    + rewrite dynamic_fast_false by (try assumption; rewrite H2; assumption).
      rewrite H4. unfold ladd. rewrite to_long_id; [reflexivity|].
      rewrite H5. unfold in_long, LONG_MIN, LONG_MAX in *. nia.
    + nia.
    + destruct Hpk as (Hp & Hn). rewrite H2, H3 in Hp, Hn.
      unfold past_end.
      split; intros Hs; [specialize (Hp Hs)|specialize (Hn Hs)]; nia.
    + destruct Hpk as (Hp & Hn). rewrite H2, H3 in Hp, Hn.
      destruct (Z.lt_trichotomy (incr ws) 0) as [Hs|[Hs|Hs]];
        [specialize (Hn Hs)|contradiction|specialize (Hp Hs)]; nia.
  - intros Heq. unfold gomp_iter_dynamic_next_locked.
    rewrite Heq, Z.eqb_refl. reflexivity.
Qed.

Lemma dynamic_fast_path_drift_witness :
  gomp_iter_dynamic_next [] (dynamic_calls 2 ws_dynamic_100_done)
  = (false, None, set_next ws_dynamic_100_done 121)
  /\ gomp_iter_dynamic_next_locked ws_dynamic_100_done
     = (false, None, ws_dynamic_100_done).
Proof.
  destruct (dynamic_fast_path_drift ws_dynamic_100_done [] eq_refl)
    as (_ & Hd & Hl).
  destruct (Hd 7 2%nat) as (_ & Hcall & _); simpl;
    try (unfold in_long, LONG_MIN, LONG_MAX; lia).
  - unfold past_end; simpl. lia.
  - split; [exact Hcall | apply Hl; reflexivity].
Defined.

(** ** Well-formed ranges *)

Lemma range_ok_steps incr v a b :
  0 <= a <= b -> range_ok incr (v + a * incr) (v + b * incr).
Proof.
  intros Hab. unfold range_ok.
  replace (v + b * incr - (v + a * incr)) with ((b - a) * incr) by ring.
  split; intros Hs; (split; [nia | apply Z.mod_mul; lia]).
Qed.

(** Under [loop_ok] the distance to the end is [k] steps for some
    [k >= 0], and [k] is what the static schedule computes as [n]. *)
Lemma loop_ok_steps ws :
  loop_ok ws ->
  exists k, 0 <= k <= LONG_MAX /\ ws_end ws - next ws = k * incr ws.
Proof.
  intros ((Hi & Hil & Hel) & (Hv & Hd & Hp & Hn) & [k Hk]).
  exists k. split; [|assumption].
  unfold in_long, LONG_MIN, LONG_MAX in *.
  destruct (Z.lt_trichotomy (incr ws) 0) as [Hs|[Hs|Hs]];
    [specialize (Hn Hs)|contradiction|specialize (Hp Hs)]; nia.
Qed.

Lemma static_niter_value ws k :
  loop_ok ws -> span_fits ws -> 0 <= k -> ws_end ws - next ws = k * incr ws ->
  static_niter ws = k.
Proof.
  intros ((Hi & Hil & Hel) & (Hv & Hd & Hp & Hn) & _) Hfit Hk0 Hk.
  unfold static_niter, span_fits, in_long, LONG_MIN, LONG_MAX in *.
  assert (Hkb : k <= 2 ^ 63 - 1) by nia.
  set (s := if incr ws >? 0 then -1 else 1).
  assert (Hs : s = if incr ws >? 0 then -1 else 1) by reflexivity.
  assert (E : Z.quot (ws_end ws - next ws + (incr ws + s)) (incr ws) = k).
  { rewrite quot_same_sign; try assumption.
    - symmetry. apply Z.div_unique_pos with (r := Z.abs (incr ws) - 1); [lia|].
      destruct (Z.gtb_spec (incr ws) 0); nia.
    - intros Hpos. destruct (Z.gtb_spec (incr ws) 0); nia.
    - intros Hneg. destruct (Z.gtb_spec (incr ws) 0); nia. }
  assert (E1 : ladd (incr ws) s = incr ws + s).
  { unfold ladd. apply to_long_id. unfold in_long, LONG_MIN, LONG_MAX.
    destruct (Z.gtb_spec (incr ws) 0); lia. }
  assert (E2 : lsub (ws_end ws) (next ws) = ws_end ws - next ws).
  { unfold lsub. apply to_long_id. unfold in_long, LONG_MIN, LONG_MAX. lia. }
  assert (E3 : ladd (ws_end ws - next ws) (incr ws + s)
               = ws_end ws - next ws + (incr ws + s)).
  { unfold ladd. apply to_long_id. unfold in_long, LONG_MIN, LONG_MAX.
    destruct (Z.gtb_spec (incr ws) 0); nia. }
  rewrite E1, E2, E3. unfold ldiv. rewrite E.
  rewrite to_long_id by (unfold in_long, LONG_MIN, LONG_MAX; lia).
  apply to_ulong_id. unfold ULONG_MOD. lia.
Qed.

Lemma static_point_value ws k j :
  loop_ok ws -> 0 <= k -> ws_end ws - next ws = k * incr ws ->
  0 <= j <= k ->
  static_point ws j = next ws + j * incr ws.
Proof.
  intros ((Hi & Hil & Hel) & (Hv & Hd & Hp & Hn) & _) Hk0 Hk Hj.
  unfold static_point, in_long, LONG_MIN, LONG_MAX in *.
  assert (Hkb : k <= 2 ^ 63 - 1) by nia.
  rewrite (to_long_id j) by (unfold in_long, LONG_MIN, LONG_MAX; lia).
  assert (Hb : - (2 ^ 63 - 1) <= j * incr ws <= 2 ^ 63 - 1) by nia.
  unfold lmul. rewrite to_long_id by (unfold in_long, LONG_MIN, LONG_MAX; lia).
  unfold ladd. rewrite to_long_id; [ring|].
  unfold in_long, LONG_MIN, LONG_MAX.
  destruct (Z.lt_trichotomy (incr ws) 0) as [Hs|[Hs|Hs]];
    [specialize (Hn Hs)|contradiction|specialize (Hp Hs)]; nia.
Qed.

Lemma static_range_ok thr ws ps pe :
  loop_ok ws -> span_fits ws -> chunk_count ws ->
  st_out (gomp_iter_static_next thr ws) = Some (ps, pe) ->
  range_ok (incr ws) ps pe.
Proof.
  intros Hok Hfit Hch.
  destruct (loop_ok_steps ws Hok) as (k & Hk0 & Hk).
  pose proof (static_niter_value ws k Hok Hfit (proj1 Hk0) Hk) as Hn.
  assert (Hpt : forall a b, 0 <= a <= b -> b <= k ->
                range_ok (incr ws) (static_point ws a) (static_point ws b)).
  { intros a b Hab Hb.
    rewrite (static_point_value ws k a), (static_point_value ws k b)
      by (try assumption; lia).
    now apply range_ok_steps. }
  unfold gomp_iter_static_next. rewrite Hn.
  destruct (static_trip thr =? -1); [discriminate|].
  destruct (team_nthreads thr =? 1).
  { simpl. intros Hout. injection Hout as <- <-.
    replace (ws_end ws) with (next ws + k * incr ws) by lia.
    replace (next ws) with (next ws + 0 * incr ws) at 1 by lia.
    apply range_ok_steps. lia. }
  destruct (chunk_size ws =? 0).
  - destruct (static_trip thr >? 0); [discriminate|].
    match goal with |- context [umul ?q ?i] => set (s0 := umul q i) end.
    match goal with |- context [uadd s0 ?q] => set (e1 := uadd s0 q) end.
    assert (Hs0 : 0 <= s0) by apply to_ulong_range.
    destruct (Z.gtb_spec e1 k) as [Hgt|Hle].
    + destruct (Z.geb_spec s0 k) as [Hge|Hlt]; [discriminate|]. simpl.
      intros Hout. injection Hout as <- <-. apply Hpt; lia.
    + destruct (Z.geb_spec s0 e1) as [Hge|Hlt]; [discriminate|]. simpl.
      intros Hout. injection Hout as <- <-. apply Hpt; lia.
  - match goal with |- context [umul ?q ?c >=? k] => set (s0 := umul q c) end.
    assert (Hs0 : 0 <= s0) by apply to_ulong_range.
    destruct (Z.geb_spec s0 k) as [Hge|Hlt]; [discriminate|]. simpl.
    intros Hout. injection Hout as <- <-.
    unfold chunk_count, LONG_MAX in *.
    destruct (Z.gtb_spec (uadd s0 (to_ulong (chunk_size ws))) k) as [Hgt|Hle].
    + apply Hpt; lia.
    + apply Hpt; [|assumption].
      unfold uadd.
      rewrite (to_ulong_id (chunk_size ws)) by (unfold ULONG_MOD; lia).
      rewrite to_ulong_id by (unfold ULONG_MOD; lia). lia.
Qed.

(** The clamped chunk of the dynamic schedule is again a nonnegative
    number of steps, and the claim it gives is a well-formed range that
    ends at a cursor value of the loop. *)
Lemma dynamic_clamp_ok ws v chunk :
  step_ok ws -> cursor_ok ws v -> cursor_aligned ws v ->
  (exists c, 0 <= c /\ chunk = c * incr ws) ->
  let chunk' := dynamic_clamp (incr ws) chunk (lsub (ws_end ws) v) in
  (exists c', 0 <= c' /\ chunk' = c' * incr ws)
  /\ ladd v chunk' = v + chunk'
  /\ range_ok (incr ws) v (v + chunk').
Proof.
  intros (Hi & Hil & Hel) (Hv & Hd & Hp & Hn) [k Hk] [c [Hc0 Hc]] chunk'.
  unfold in_long, LONG_MIN, LONG_MAX in *.
  assert (Hleft : lsub (ws_end ws) v = ws_end ws - v).
  { unfold lsub. apply to_long_id. unfold in_long, LONG_MIN, LONG_MAX. lia. }
  unfold chunk' in *. rewrite Hleft. unfold dynamic_clamp.
  assert (Hk0 : 0 <= k).
  { destruct (Z.lt_trichotomy (incr ws) 0) as [Hs|[Hs|Hs]];
      [specialize (Hn Hs)|contradiction|specialize (Hp Hs)]; nia. }
  assert (Hsel : forall x, (x = chunk /\ Z.abs chunk <= Z.abs (ws_end ws - v))
                           \/ x = ws_end ws - v ->
                 (exists c', 0 <= c' /\ x = c' * incr ws)
                 /\ ladd v x = v + x /\ range_ok (incr ws) v (v + x)).
  { intros x Hx.
    assert (Hx' : exists c', 0 <= c' /\ x = c' * incr ws
                             /\ Z.abs x <= Z.abs (ws_end ws - v)).
    { destruct Hx as [[-> Hb]| ->]; [exists c | exists k]; repeat split;
        try assumption; lia. }
    destruct Hx' as (c' & Hc'0 & Hc' & Hb).
    split; [exists c'; auto|]. split.
    - unfold ladd. apply to_long_id. unfold in_long, LONG_MIN, LONG_MAX.
      destruct (Z.lt_trichotomy (incr ws) 0) as [Hs|[Hs|Hs]];
        [specialize (Hn Hs)|contradiction|specialize (Hp Hs)]; nia.
    - rewrite Hc'. replace v with (v + 0 * incr ws) at 1 by ring.
      apply range_ok_steps. lia. }
  apply Hsel.
  destruct (Z.ltb_spec (incr ws) 0) as [Hs|Hs].
  - specialize (Hn Hs).
    destruct (Z.ltb_spec chunk (ws_end ws - v)); [right; reflexivity|left].
    split; [reflexivity|nia].
  - assert (Hpos : 0 < incr ws) by lia. specialize (Hp Hpos).
    destruct (Z.gtb_spec chunk (ws_end ws - v)); [right; reflexivity|left].
    split; [reflexivity|nia].
Qed.

Lemma dynamic_cas_loop_range ws seen :
  step_ok ws -> seen_ok ws seen ->
  forall chunk start r ps pe nxt,
    cursor_ok ws start -> cursor_aligned ws start ->
    (exists c, 0 <= c /\ chunk = c * incr ws) ->
    dynamic_cas_loop seen (ws_end ws) (incr ws) chunk start
    = (r, Some (ps, pe), nxt) ->
    range_ok (incr ws) ps pe.
Proof.
  intros Hs Hseen. induction Hseen as [|tmp seen [Htc Hta] Hseen IH];
    intros chunk start r ps pe nxt Hc Ha Hch; simpl;
    destruct (start =? ws_end ws); try discriminate;
    destruct (dynamic_clamp_ok ws start chunk Hs Hc Ha Hch) as (Hch' & He & Hr);
    rewrite He.
  - intros H. injection H as <- <- <- <-. exact Hr.
  - destruct (tmp =? start).
    + intros H. injection H as <- <- <- <-. exact Hr.
    + intros H. exact (IH _ tmp _ _ _ _ Htc Hta Hch' H).
Qed.

Lemma dynamic_range_ok ws seen r ps pe ws' :
  loop_ok ws -> seen_ok ws seen -> chunk_scaled ws ->
  (mode ws = true -> in_long (next ws + chunk_size ws)) ->
  gomp_iter_dynamic_next seen ws = (r, Some (ps, pe), ws') ->
  range_ok (incr ws) ps pe.
Proof.
  intros (Hs & Hc & Ha) Hseen (Hcl & Hch) Hfit.
  unfold gomp_iter_dynamic_next. destruct (mode ws).
  - specialize (Hfit eq_refl).
    assert (Hadd : ladd (next ws) (chunk_size ws) = next ws + chunk_size ws)
      by (unfold ladd; now apply to_long_id).
    rewrite Hadd. clear Hadd.
    destruct Hs as (Hi & _). destruct Hc as (_ & _ & Hp & Hn).
    destruct Ha as [k Hk]. destruct Hch as (c & Hc0 & Hc).
    assert (Hsel : forall x, (x = next ws + chunk_size ws
                              /\ Z.abs (chunk_size ws)
                                 <= Z.abs (ws_end ws - next ws))
                             \/ x = ws_end ws ->
                   0 <= k -> range_ok (incr ws) (next ws) x).
    { intros x [[-> Hb]| ->] Hk0.
      - rewrite Hc. replace (next ws) with (next ws + 0 * incr ws) at 1 by ring.
        apply range_ok_steps. lia.
      - replace (ws_end ws) with (next ws + k * incr ws) by lia.
        replace (next ws) with (next ws + 0 * incr ws) at 1 by ring.
        apply range_ok_steps. lia. }
    destruct (Z.gtb_spec (incr ws) 0) as [Hpos|Hneg].
    + specialize (Hp Hpos).
      destruct (Z.geb_spec (next ws) (ws_end ws)); [discriminate|].
      intros Hout. injection Hout as <- <- <- <-. apply Hsel; [|nia].
      destruct (Z.gtb_spec (next ws + chunk_size ws) (ws_end ws));
        [right; reflexivity|left]. split; [reflexivity|nia].
    + assert (Hneg' : incr ws < 0) by lia. specialize (Hn Hneg').
      destruct (Z.leb_spec (next ws) (ws_end ws)); [discriminate|].
      intros Hout. injection Hout as <- <- <- <-. apply Hsel; [|nia].
      destruct (Z.ltb_spec (next ws + chunk_size ws) (ws_end ws));
        [right; reflexivity|left]. split; [reflexivity|nia].
  - destruct (dynamic_cas_loop seen (ws_end ws) (incr ws) (chunk_size ws)
                (next ws)) as [[r0 out] nxt] eqn:E.
    intros Hout. injection Hout as <- -> <-.
    eapply dynamic_cas_loop_range; eauto.
Qed.

Lemma dynamic_locked_range_ok ws r ps pe ws' :
  loop_ok ws -> chunk_scaled ws ->
  gomp_iter_dynamic_next_locked ws = (r, Some (ps, pe), ws') ->
  range_ok (incr ws) ps pe.
Proof.
  intros (Hs & Hc & Ha) (Hcl & Hch).
  unfold gomp_iter_dynamic_next_locked.
  destruct (next ws =? ws_end ws); [discriminate|].
  destruct (dynamic_clamp_ok ws (next ws) (chunk_size ws) Hs Hc Ha Hch)
    as (_ & He & Hr).
  rewrite He. intros Hout. injection Hout as <- <- <- <-. exact Hr.
Qed.

Lemma guided_claim_range_ok thr ws v :
  step_ok ws -> team_ok thr -> in_long (chunk_size ws) ->
  cursor_ok ws v -> cursor_aligned ws v ->
  range_ok (incr ws) v
    (guided_claim (team_nthreads thr) (ws_end ws) (incr ws) (chunk_size ws) v).
Proof.
  intros Hs Ht Hch Hc Ha.
  rewrite (guided_claim_value thr ws v Hs Ht Hc Hch).
  pose proof (steps_left_bounds ws v Hs Hc) as (Hn & _).
  pose proof (steps_left_aligned ws v Hs Hc Ha) as Hal.
  pose proof (team_nthreads_range thr Ht) as Hnt.
  set (n := Z.quot (ws_end ws - v) (incr ws)) in *.
  pose proof (ceil_div_bounds n (team_nthreads thr) (proj1 Hn) (proj1 Hnt))
    as (Hcd & _).
  set (q := Z.max (ceil_div n (team_nthreads thr)) (to_ulong (chunk_size ws))).
  assert (Hq0 : 0 <= q) by (unfold q; lia).
  replace v with (v + 0 * incr ws) at 1 by ring.
  destruct (Z.leb_spec q n).
  - apply range_ok_steps. lia.
  - replace (ws_end ws) with (v + n * incr ws) by lia.
    apply range_ok_steps. lia.
Qed.

(** C3.  Under the preconditions set up when the loop is initialised (a
    nonzero step, a distance from [ws->next] to the end that is a
    nonnegative whole number of steps, and a chunk field that is a
    nonnegative count, stored multiplied by the step for the dynamic
    schedule), every range produced by the static, dynamic and guided
    schedulers runs in the direction of the step over a whole number of
    steps: [pstart <= pend] for a positive step, [pend <= pstart] for a
    negative one, and [(pend - pstart) mod incr = 0].  The values are
    those of 64-bit variables: for the static schedule the distance
    rounded up by one step fits a [long], and on the fetch-and-add path of
    the dynamic schedule so does the cursor advanced by one chunk. *)
Theorem returned_ranges_well_formed thr ws seen :
  loop_ok ws -> team_ok thr -> seen_ok ws seen ->
  (chunk_count ws -> span_fits ws ->
   forall ps pe,
     st_out (gomp_iter_static_next thr ws) = Some (ps, pe) ->
     range_ok (incr ws) ps pe)
  /\ (chunk_scaled ws ->
      forall r ps pe ws',
        gomp_iter_dynamic_next_locked ws = (r, Some (ps, pe), ws') ->
        range_ok (incr ws) ps pe)
  /\ (chunk_scaled ws ->
      (mode ws = true -> in_long (next ws + chunk_size ws)) ->
      forall r ps pe ws',
        gomp_iter_dynamic_next seen ws = (r, Some (ps, pe), ws') ->
        range_ok (incr ws) ps pe)
  /\ (in_long (chunk_size ws) ->
      forall r ps pe ws',
        gomp_iter_guided_next_locked thr ws = (r, Some (ps, pe), ws') ->
        range_ok (incr ws) ps pe)
  /\ (in_long (chunk_size ws) ->
      forall r ps pe ws',
        gomp_iter_guided_next seen thr ws = (r, Some (ps, pe), ws') ->
        range_ok (incr ws) ps pe).
Proof.
  intros Hok Ht Hseen.
  split; [|split; [|split; [|split]]].
  - intros Hch Hfit ps pe. now apply static_range_ok.
  - intros Hch r ps pe ws'. now apply dynamic_locked_range_ok.
  - intros Hch Hfit r ps pe ws'. now apply dynamic_range_ok.
  - intros Hch r ps pe ws'. destruct Hok as (Hs & Hc & Ha).
    unfold gomp_iter_guided_next_locked.
    destruct (next ws =? ws_end ws); [discriminate|].
    intros Hout. injection Hout as <- <- <- <-.
    now apply guided_claim_range_ok.
  - intros Hch r ps pe ws'. destruct Hok as (Hs & Hc & Ha).
    unfold gomp_iter_guided_next.
    destruct (guided_cas_loop seen (team_nthreads thr) (ws_end ws) (incr ws)
                (chunk_size ws) (next ws)) as [[r0 out] nxt] eqn:E.
    intros Hout. injection Hout as <- -> <-.
    destruct r0.
    + destruct (guided_cas_loop_success _ _ _ _ _ _ _ _ _ E)
        as (H1 & H2 & H3 & H4).
      rewrite H3. destruct H2 as [->|Hin].
      * now apply guided_claim_range_ok.
      * unfold seen_ok in Hseen. rewrite List.Forall_forall in Hseen.
        destruct (Hseen ps Hin). now apply guided_claim_range_ok.
    + exfalso. clear - E. revert E. generalize (next ws).
      induction seen as [|tmp seen IH]; intros start; simpl;
        destruct (start =? ws_end ws); try discriminate.
      destruct (tmp =? start); [discriminate|]. apply IH.
Qed.

Lemma returned_ranges_well_formed_witness :
  range_ok 1 9 10 /\ range_ok 1 0 0.
Proof.
  assert (Hin : forall z, -10 <= z <= 100 -> in_long z)
    by (unfold in_long, LONG_MIN, LONG_MAX; lia).
  destruct (returned_ranges_well_formed (thr_of_4 3) ws_static_10 [])
    as (Hstatic & Hdynamic & _).
  - unfold loop_ok, step_ok, cursor_ok, cursor_aligned, LONG_MAX; simpl.
    repeat split; try apply Hin; try lia. exists 10. lia.
  - unfold team_ok, UINT_MOD; simpl. lia.
  - constructor.
  - split.
    + apply (Hstatic ltac:(unfold chunk_count, LONG_MAX; simpl; lia)
                       ltac:(apply Hin; simpl; lia) 9 10).
      reflexivity.
    + assert (Hch : chunk_scaled ws_static_10).
      { split; [apply Hin; simpl; lia|]. exists 0. simpl. lia. }
      apply (Hdynamic Hch true 0 0 (set_next ws_static_10 0)). reflexivity.
Defined.

(** * Further properties of the schedulers *)

(** ** Draining the shared cursor *)

Section CollectTiles.

Variable step : gomp_work_share -> next_result.
Variable Inv : gomp_work_share -> Prop.
Variable P : Z * Z -> Prop.

Hypothesis step_done :
  forall ws, next ws = ws_end ws -> step ws = (false, None, ws).

Hypothesis step_claim :
  forall ws, Inv ws -> next ws <> ws_end ws ->
  exists e,
    step ws = (true, Some (next ws, e), set_next ws e)
    /\ Inv (set_next ws e) /\ P (next ws, e)
    /\ Z.abs (ws_end ws - e) < Z.abs (ws_end ws - next ws).

(** Calls of [step] repeated until it returns false hand out ranges that
    follow one another from the cursor to the end of the loop. *)
Lemma collect_tiles (m : nat) :
  forall ws,
    Inv ws -> Z.abs (ws_end ws - next ws) <= Z.of_nat m ->
    exists k l ws',
      (k <= m)%nat /\ collect step k ws = (l, ws')
      /\ length l = k
      /\ chained (next ws) l (ws_end ws) /\ Forall P l
      /\ next ws' = ws_end ws /\ step ws' = (false, None, ws').
Proof.
  induction m as [|m IH]; intros ws Hinv Hm.
  - assert (Heq : next ws = ws_end ws) by lia.
    exists 0%nat, [], ws. simpl. repeat split; auto.
  - destruct (Z.eq_dec (next ws) (ws_end ws)) as [Heq|Hne].
    + exists 0%nat, [], ws. simpl. repeat split; auto. lia.
    + destruct (step_claim ws Hinv Hne) as (e & Hstep & Hinv' & HP & Hlt).
      destruct (IH (set_next ws e) Hinv') as
        (k & l & ws' & Hk & Hcol & Hlen & Hch & Hall & Hend & Hfalse).
      { simpl. lia. }
      exists (S k), ((next ws, e) :: l), ws'. simpl in *.
      rewrite Hstep, Hcol. repeat split; auto. lia.
Qed.

End CollectTiles.

(** One claim of the dynamic schedule from a cursor value that is not the
    end: a whole chunk, or what is left when that is less. *)
Lemma dynamic_claim_advances ws v c :
  step_ok ws -> cursor_ok ws v -> in_long (chunk_size ws) ->
  0 < c -> chunk_size ws = c * incr ws -> v <> ws_end ws ->
  let chunk' := dynamic_clamp (incr ws) (chunk_size ws) (lsub (ws_end ws) v) in
  ladd v chunk' = v + chunk'
  /\ advances (incr ws) v (ws_end ws) (v + chunk')
  /\ (chunk' = chunk_size ws \/ v + chunk' = ws_end ws)
  /\ cursor_ok ws (v + chunk')
  /\ Z.abs (ws_end ws - (v + chunk')) < Z.abs (ws_end ws - v).
Proof.
  intros (Hi & Hil & Hel) (Hv & Hd & Hp & Hn) Hcl Hc Hch Hne chunk'.
  unfold in_long, LONG_MIN, LONG_MAX in *.
  assert (Hleft : lsub (ws_end ws) v = ws_end ws - v).
  { unfold lsub. apply to_long_id. unfold in_long, LONG_MIN, LONG_MAX. lia. }
  unfold chunk', dynamic_clamp. rewrite Hleft.
  unfold advances, cursor_ok, in_long, LONG_MIN, LONG_MAX.
  destruct (Z.ltb_spec (incr ws) 0) as [Hs|Hs].
  - specialize (Hn Hs).
    assert (chunk_size ws < 0) by nia.
    destruct (Z.ltb_spec (chunk_size ws) (ws_end ws - v)).
    + replace (v + (ws_end ws - v)) with (ws_end ws) by ring.
      unfold ladd. replace (v + (ws_end ws - v)) with (ws_end ws) by ring.
      rewrite to_long_id by (unfold in_long, LONG_MIN, LONG_MAX; lia).
      repeat split; try lia.
    + unfold ladd.
      rewrite to_long_id by (unfold in_long, LONG_MIN, LONG_MAX; lia).
      repeat split; try lia.
  - assert (Hpos : 0 < incr ws) by lia. specialize (Hp Hpos).
    assert (0 < chunk_size ws) by nia.
    destruct (Z.gtb_spec (chunk_size ws) (ws_end ws - v)).
    + replace (v + (ws_end ws - v)) with (ws_end ws) by ring.
      unfold ladd. replace (v + (ws_end ws - v)) with (ws_end ws) by ring.
      rewrite to_long_id by (unfold in_long, LONG_MIN, LONG_MAX; lia).
      repeat split; try lia.
    + unfold ladd.
      rewrite to_long_id by (unfold in_long, LONG_MIN, LONG_MAX; lia).
      repeat split; try lia.
Qed.

(** X1.  Calls of [gomp_iter_dynamic_next_locked] repeated until one
    returns false hand out ranges that follow one another from [ws->next]
    to [ws->end] without gap or overlap; each range is a whole chunk,
    except that the last one may be cut at the end of the loop; and the
    loop is exhausted after at most as many calls as the distance to the
    end.  The chunk field holds [c > 0] iterations multiplied by the
    step. *)
Theorem dynamic_locked_tiles ws c :
  step_ok ws -> cursor_ok ws (next ws) -> in_long (chunk_size ws) ->
  0 < c -> chunk_size ws = c * incr ws ->
  exists k l ws',
    (k <= Z.to_nat (Z.abs (ws_end ws - next ws)))%nat
    /\ collect gomp_iter_dynamic_next_locked k ws = (l, ws')
    /\ length l = k
    /\ chained (next ws) l (ws_end ws)
    /\ Forall (fun r => advances (incr ws) (fst r) (ws_end ws) (snd r)
                        /\ (snd r - fst r = chunk_size ws
                            \/ snd r = ws_end ws)) l
    /\ next ws' = ws_end ws
    /\ gomp_iter_dynamic_next_locked ws' = (false, None, ws').
Proof.
  intros Hs Hc Hcl Hc0 Hch.
  apply (collect_tiles gomp_iter_dynamic_next_locked
           (fun w => ws_end w = ws_end ws /\ incr w = incr ws
                     /\ chunk_size w = chunk_size ws /\ cursor_ok ws (next w))).
  - intros w Heq. unfold gomp_iter_dynamic_next_locked.
    rewrite Heq, Z.eqb_refl. reflexivity.
  - intros w (He & Hi & Hk & Hcw) Hne.
    unfold gomp_iter_dynamic_next_locked.
    destruct (Z.eqb_spec (next w) (ws_end w)) as [|_]; [contradiction|].
    rewrite He, Hi, Hk. rewrite He in Hne.
    destruct (dynamic_claim_advances ws (next w) c Hs Hcw Hcl Hc0 Hch Hne)
      as (Hadd & Hadv & Hsz & Hcur & Hlt).
    rewrite Hadd. eexists. split; [reflexivity|]. simpl.
    split; [auto|]. split; [|exact Hlt].
    split; [exact Hadv|].
    destruct Hsz as [Hsz|Hsz]; [left; lia|right; exact Hsz].
  - auto.
  - lia.
Qed.

Lemma dynamic_locked_tiles_witness :
  exists k l ws',
    (k <= 10)%nat
    /\ collect gomp_iter_dynamic_next_locked k ws_dynamic_10_by_4 = (l, ws')
    /\ chained 0 l 10.
Proof.
  assert (Hin : forall z, -10 <= z <= 100 -> in_long z)
    by (unfold in_long, LONG_MIN, LONG_MAX; lia).
  destruct (dynamic_locked_tiles ws_dynamic_10_by_4 4)
    as (k & l & ws' & Hk & Hcol & _ & Hch & _); simpl; try lia.
  - unfold step_ok; simpl. repeat split; try apply Hin; lia.
  - unfold cursor_ok, LONG_MAX; simpl. repeat split; try apply Hin; lia.
  - apply Hin. lia.
  - exists k, l, ws'. repeat split; assumption.
Defined.

(** ** The lock-free variants against the locked ones *)

(** X2.  With [ws->mode] set and a cursor that has not passed the end,
    [gomp_iter_dynamic_next] returns the same value and stores the same
    range as [gomp_iter_dynamic_next_locked]; the two differ only in the
    cursor they leave, which the fetch-and-add path advances by a whole
    chunk even when the range was cut at the end or nothing was left. *)
Theorem dynamic_fast_path_agrees ws seen :
  mode ws = true ->
  step_ok ws -> cursor_ok ws (next ws) ->
  in_long (next ws + chunk_size ws) ->
  fst (gomp_iter_dynamic_next seen ws) = fst (gomp_iter_dynamic_next_locked ws)
  /\ next (snd (gomp_iter_dynamic_next seen ws)) = next ws + chunk_size ws.
Proof.
  intros Hm (Hi & Hil & Hel) (Hv & Hd & Hp & Hn) Hfit.
  unfold gomp_iter_dynamic_next, gomp_iter_dynamic_next_locked.
  rewrite Hm.
  assert (Hadd : ladd (next ws) (chunk_size ws) = next ws + chunk_size ws)
    by (unfold ladd; now apply to_long_id).
  assert (Hleft : lsub (ws_end ws) (next ws) = ws_end ws - next ws).
  { unfold lsub. apply to_long_id.
    unfold in_long, LONG_MIN, LONG_MAX in *. lia. }
  assert (Hend : ladd (next ws) (ws_end ws - next ws) = ws_end ws).
  { unfold ladd. replace (next ws + (ws_end ws - next ws)) with (ws_end ws)
      by ring. now apply to_long_id. }
  rewrite Hadd, Hleft. unfold dynamic_clamp.
  destruct (Z.gtb_spec (incr ws) 0) as [Hpos|Hneg].
  - specialize (Hp Hpos).
    destruct (Z.ltb_spec (incr ws) 0) as [|_]; [lia|].
    destruct (Z.geb_spec (next ws) (ws_end ws)) as [Hge|Hlt].
    + assert (Heq : next ws = ws_end ws) by lia.
      rewrite Heq, Z.eqb_refl. simpl. rewrite <- Heq. auto.
    + destruct (Z.eqb_spec (next ws) (ws_end ws)) as [|_]; [lia|].
      destruct (Z.gtb_spec (next ws + chunk_size ws) (ws_end ws));
        destruct (Z.gtb_spec (chunk_size ws) (ws_end ws - next ws));
        try lia; simpl; rewrite ?Hend, ?Hadd; auto.
  - assert (Hneg' : incr ws < 0) by lia. specialize (Hn Hneg').
    destruct (Z.ltb_spec (incr ws) 0) as [_|]; [|lia].
    destruct (Z.leb_spec (next ws) (ws_end ws)) as [Hle|Hgt].
    + assert (Heq : next ws = ws_end ws) by lia.
      rewrite Heq, Z.eqb_refl. simpl. rewrite <- Heq. auto.
    + destruct (Z.eqb_spec (next ws) (ws_end ws)) as [|_]; [lia|].
      destruct (Z.ltb_spec (next ws + chunk_size ws) (ws_end ws));
        destruct (Z.ltb_spec (chunk_size ws) (ws_end ws - next ws));
        try lia; simpl; rewrite ?Hend, ?Hadd; auto.
Qed.

Lemma dynamic_fast_path_agrees_witness :
  let ws := {| chunk_size := 4; ws_end := 10; incr := 1; next := 8;
               mode := true; start_t0 := 0; nb_iterations_left := 0;
               adaptive_chunks := [] |} in
  fst (gomp_iter_dynamic_next [] ws) = (true, Some (8, 10))
  /\ next (snd (gomp_iter_dynamic_next [] ws)) = 12.
Proof.
  intros ws.
  assert (Hin : forall z, -10 <= z <= 100 -> in_long z)
    by (unfold in_long, LONG_MIN, LONG_MAX; lia).
  destruct (dynamic_fast_path_agrees ws []) as (H1 & H2).
  - reflexivity.
  - unfold step_ok; simpl. repeat split; try apply Hin; lia.
  - unfold cursor_ok, LONG_MAX; simpl. repeat split; try apply Hin; lia.
  - apply Hin. simpl. lia.
  - split; [rewrite H1; reflexivity | exact H2].
Defined.

(** Clamping a chunk that was clamped at a cursor farther from the end
    gives the clamp of the original chunk. *)
Lemma dynamic_clamp_twice incr chunk left left' :
  incr <> 0 ->
  (0 < incr -> 0 <= left' <= left) -> (incr < 0 -> left <= left' <= 0) ->
  dynamic_clamp incr (dynamic_clamp incr chunk left) left'
  = dynamic_clamp incr chunk left'.
Proof.
  intros Hi Hp Hn. unfold dynamic_clamp.
  destruct (Z.ltb_spec incr 0) as [Hs|Hs].
  - specialize (Hn Hs).
    destruct (Z.ltb_spec chunk left); destruct (Z.ltb_spec chunk left');
      try destruct (Z.ltb_spec left left'); try lia; try reflexivity;
      destruct (Z.ltb_spec chunk left'); lia.
  - assert (Hpos : 0 < incr) by lia. specialize (Hp Hpos).
    destruct (Z.gtb_spec chunk left); destruct (Z.gtb_spec chunk left');
      try destruct (Z.gtb_spec left left'); try lia; try reflexivity;
      destruct (Z.gtb_spec chunk left'); lia.
Qed.

Lemma dynamic_cas_loop_linearizes ws seen :
  step_ok ws ->
  forall chunk start prev,
    cursor_ok ws start -> seen_toward_end ws start seen ->
    cursor_ok ws prev ->
    Z.abs (ws_end ws - start) <= Z.abs (ws_end ws - prev) ->
    chunk = dynamic_clamp (incr ws) (chunk_size ws) (lsub (ws_end ws) prev)
    \/ chunk = chunk_size ws ->
    exists s,
      (s = start \/ In s seen)
      /\ (let '(r, out, nxt) :=
            dynamic_cas_loop seen (ws_end ws) (incr ws) chunk start in
          (r, out, set_next ws nxt))
         = gomp_iter_dynamic_next_locked (set_next ws s).
Proof.
  intros Hs. pose proof Hs as (Hi & Hil & Hel).
  assert (Hleft : forall v, cursor_ok ws v ->
                  lsub (ws_end ws) v = ws_end ws - v).
  { intros v (Hv & Hd & _). unfold lsub. apply to_long_id.
    unfold in_long, LONG_MIN, LONG_MAX in *. lia. }
  assert (Hclamp : forall chunk start prev,
            cursor_ok ws start -> cursor_ok ws prev ->
            Z.abs (ws_end ws - start) <= Z.abs (ws_end ws - prev) ->
            chunk = dynamic_clamp (incr ws) (chunk_size ws)
                      (lsub (ws_end ws) prev)
            \/ chunk = chunk_size ws ->
            dynamic_clamp (incr ws) chunk (lsub (ws_end ws) start)
            = dynamic_clamp (incr ws) (chunk_size ws) (lsub (ws_end ws) start)).
  { intros chunk start prev Hc Hpv Hle [-> | ->]; [|reflexivity].
    rewrite (Hleft _ Hc), (Hleft _ Hpv).
    destruct Hc as (_ & _ & Hp & Hn). destruct Hpv as (_ & _ & Hp' & Hn').
    apply dynamic_clamp_twice; [assumption| |]; intros Hsg;
      [specialize (Hp Hsg); specialize (Hp' Hsg)
      |specialize (Hn Hsg); specialize (Hn' Hsg)]; lia. }
  induction seen as [|tmp seen IH]; intros chunk start prev Hc Hseen Hpv Hle Hch;
    simpl.
  - exists start. split; [left; reflexivity|].
    unfold gomp_iter_dynamic_next_locked. simpl.
    destruct (start =? ws_end ws); [reflexivity|].
    rewrite (Hclamp chunk start prev) by assumption. reflexivity.
  - destruct Hseen as (Htc & Htle & Hrest).
    destruct (Z.eqb_spec start (ws_end ws)) as [Heq|Hne].
    + exists start. split; [left; reflexivity|].
      unfold gomp_iter_dynamic_next_locked. simpl.
      rewrite Heq, Z.eqb_refl. reflexivity.
    + destruct (Z.eqb_spec tmp start) as [Het|Hnt].
      * exists start. split; [left; reflexivity|].
        unfold gomp_iter_dynamic_next_locked. simpl.
        destruct (Z.eqb_spec start (ws_end ws)); [contradiction|].
        rewrite (Hclamp chunk start prev) by assumption. reflexivity.
      * destruct (IH (dynamic_clamp (incr ws) chunk (lsub (ws_end ws) start))
                    tmp start Htc Hrest Hc Htle) as (s & Hin & Heq).
        { left. apply (Hclamp chunk start prev); assumption. }
        exists s. split; [destruct Hin; auto|exact Heq].
Qed.

(** X3.  Without [ws->mode], a call of [gomp_iter_dynamic_next] whose
    compare-and-swap attempts were disturbed by other threads behaves as
    one call of [gomp_iter_dynamic_next_locked] made at the cursor value it
    saw last: same return value, same range, same cursor afterwards.  The
    values seen move toward the end only, so that the chunk clamped at an
    earlier attempt is still right at a later one. *)
Theorem dynamic_cas_as_locked ws seen :
  mode ws = false ->
  step_ok ws -> cursor_ok ws (next ws) ->
  seen_toward_end ws (next ws) seen ->
  exists s,
    (s = next ws \/ In s seen)
    /\ gomp_iter_dynamic_next seen ws
       = gomp_iter_dynamic_next_locked (set_next ws s).
Proof.
  intros Hm Hs Hc Hseen.
  destruct (dynamic_cas_loop_linearizes ws seen Hs (chunk_size ws) (next ws)
              (next ws) Hc Hseen Hc ltac:(lia) ltac:(right; reflexivity))
    as (s & Hin & Heq).
  exists s. split; [exact Hin|].
  unfold gomp_iter_dynamic_next. rewrite Hm. exact Heq.
Qed.

Lemma dynamic_cas_as_locked_witness :
  gomp_iter_dynamic_next [4; 8] ws_dynamic_10_by_4
  = (true, Some (8, 10), set_next ws_dynamic_10_by_4 10).
Proof.
  assert (Hin : forall z, -10 <= z <= 100 -> in_long z)
    by (unfold in_long, LONG_MIN, LONG_MAX; lia).
  assert (Hc : forall v, 0 <= v <= 10 -> cursor_ok ws_dynamic_10_by_4 v).
  { intros v Hv. unfold cursor_ok, LONG_MAX; simpl.
    repeat split; try apply Hin; lia. }
  destruct (dynamic_cas_as_locked ws_dynamic_10_by_4 [4; 8])
    as (s & Hs & Heq).
  - reflexivity.
  - unfold step_ok; simpl. repeat split; try apply Hin; lia.
  - apply Hc. simpl. lia.
  - simpl. repeat split; try apply Hc; simpl; lia.
  - reflexivity.
Defined.

Lemma guided_cas_loop_linearizes thr ws seen :
  forall start,
    exists s,
      (s = start \/ In s seen)
      /\ (let '(r, out, nxt) :=
            guided_cas_loop seen (team_nthreads thr) (ws_end ws) (incr ws)
              (chunk_size ws) start in
          (r, out, set_next ws nxt))
         = gomp_iter_guided_next_locked thr (set_next ws s).
Proof.
  induction seen as [|tmp seen IH]; intros start; simpl.
  - exists start. split; [left; reflexivity|].
    unfold gomp_iter_guided_next_locked. simpl.
    destruct (start =? ws_end ws); reflexivity.
  - destruct (Z.eqb_spec start (ws_end ws)) as [Heq|Hne].
    + exists start. split; [left; reflexivity|].
      unfold gomp_iter_guided_next_locked. simpl.
      rewrite Heq, Z.eqb_refl. reflexivity.
    + destruct (Z.eqb_spec tmp start) as [Het|Hnt].
      * exists start. split; [left; reflexivity|].
        unfold gomp_iter_guided_next_locked. simpl.
        destruct (Z.eqb_spec start (ws_end ws)); [contradiction|reflexivity].
      * destruct (IH tmp) as (s & Hin & Heq).
        exists s. split; [destruct Hin; auto|exact Heq].
Qed.

(** X4.  A call of [gomp_iter_guided_next], however its compare-and-swap
    attempts were disturbed, behaves as one call of
    [gomp_iter_guided_next_locked] made at a cursor value it saw: same
    return value, same range, same cursor afterwards. *)
Theorem guided_cas_as_locked thr ws seen :
  exists s,
    (s = next ws \/ In s seen)
    /\ gomp_iter_guided_next seen thr ws
       = gomp_iter_guided_next_locked thr (set_next ws s).
Proof.
  destruct (guided_cas_loop_linearizes thr ws seen (next ws))
    as (s & Hin & Heq).
  exists s. split; [exact Hin|].
  unfold gomp_iter_guided_next. exact Heq.
Qed.

(** ** Guided schedule: the sequence of claims *)

(** X5.  Calls of [gomp_iter_guided_next_locked] repeated until one
    returns false hand out ranges that follow one another from [ws->next]
    to [ws->end] without gap or overlap, none of them empty, in at most as
    many calls as the distance to the end.  The floor [chunk_size] is not
    zero, or else the distance to the end is a whole number of steps. *)
Theorem guided_locked_tiles thr ws :
  step_ok ws -> team_ok thr -> in_long (chunk_size ws) ->
  cursor_ok ws (next ws) ->
  chunk_size ws <> 0 \/ cursor_aligned ws (next ws) ->
  exists k l ws',
    (k <= Z.to_nat (Z.abs (ws_end ws - next ws)))%nat
    /\ collect (gomp_iter_guided_next_locked thr) k ws = (l, ws')
    /\ length l = k
    /\ chained (next ws) l (ws_end ws)
    /\ Forall (fun r => advances (incr ws) (fst r) (ws_end ws) (snd r)) l
    /\ next ws' = ws_end ws
    /\ gomp_iter_guided_next_locked thr ws' = (false, None, ws').
Proof.
  intros Hs Ht Hcl Hc Hfl.
  apply (collect_tiles (gomp_iter_guided_next_locked thr)
           (fun w => ws_end w = ws_end ws /\ incr w = incr ws
                     /\ chunk_size w = chunk_size ws /\ cursor_ok ws (next w)
                     /\ (chunk_size ws <> 0 \/ cursor_aligned ws (next w)))).
  - intros w Heq. unfold gomp_iter_guided_next_locked.
    rewrite Heq, Z.eqb_refl. reflexivity.
  - intros w (He & Hi & Hk & Hcw & Hfw) Hne.
    rewrite guided_next_locked_claim by assumption.
    rewrite He, Hi, Hk. rewrite He in Hne.
    destruct (guided_claim_advances thr ws (next w) Hs Ht Hcl Hcw Hfw Hne)
      as (Hadv & Hcur & Hfl' & Hlt).
    eexists. split; [reflexivity|]. simpl. auto 10.
  - auto 10.
  - lia.
Qed.

Lemma guided_locked_tiles_witness :
  exists k l ws',
    (k <= 10)%nat
    /\ collect (gomp_iter_guided_next_locked (thr_of_4 0)) k
         ws_guided_10_by_3 = (l, ws')
    /\ chained 0 l 10.
Proof.
  assert (Hin : forall z, -10 <= z <= 100 -> in_long z)
    by (unfold in_long, LONG_MIN, LONG_MAX; lia).
  destruct (guided_locked_tiles (thr_of_4 0) ws_guided_10_by_3)
    as (k & l & ws' & Hk & Hcol & _ & Hch & _).
  - unfold step_ok; simpl. repeat split; try apply Hin; lia.
  - unfold team_ok, UINT_MOD; simpl. lia.
  - apply Hin. simpl. lia.
  - unfold cursor_ok, LONG_MAX; simpl. repeat split; try apply Hin; lia.
  - left. simpl. lia.
  - exists k, l, ws'. repeat split; assumption.
Defined.

Lemma ceil_div_mono a b t :
  0 <= a <= b -> 1 <= t -> ceil_div a t <= ceil_div b t.
Proof.
  intros Hab Ht. unfold ceil_div. apply Z.div_le_mono; lia.
Qed.

(** The two cases of a guided claim from the cursor [v], with what is left
    after it when it stops short of the end. *)
Lemma guided_claim_cases thr ws v :
  step_ok ws -> team_ok thr -> in_long (chunk_size ws) -> cursor_ok ws v ->
  let n := Z.quot (ws_end ws - v) (incr ws) in
  let q := Z.max (ceil_div n (team_nthreads thr)) (to_ulong (chunk_size ws)) in
  let e := guided_claim (team_nthreads thr) (ws_end ws) (incr ws)
             (chunk_size ws) v in
  0 <= q
  /\ ((q <= n /\ e = v + q * incr ws /\ cursor_ok ws e
       /\ Z.quot (ws_end ws - e) (incr ws) = n - q)
      \/ (n < q /\ e = ws_end ws)).
Proof.
  intros Hs Ht Hcl Hc n q e.
  unfold e. rewrite (guided_claim_value thr ws v Hs Ht Hc Hcl).
  fold n. fold q.
  pose proof (steps_left_bounds ws v Hs Hc) as (Hn & Hlo & Hhi).
  fold n in Hn, Hlo, Hhi.
  pose proof (to_ulong_range (chunk_size ws)) as Hur.
  assert (Hq0 : 0 <= q) by (unfold q; lia).
  split; [assumption|].
  destruct (Z.leb_spec q n) as [Hq|Hq]; [left|right; auto].
  split; [assumption|]. split; [reflexivity|].
  destruct Hs as (Hi & Hil & Hel). destruct Hc as (Hv & Hd & Hp & Hng).
  assert (Hcur : cursor_ok ws (v + q * incr ws)).
  { unfold cursor_ok, in_long, LONG_MIN, LONG_MAX in *.
    destruct (Z.lt_trichotomy (incr ws) 0) as [Hneg|[H0|Hpos]];
      [specialize (Hng Hneg)|contradiction|specialize (Hp Hpos)].
    - rewrite (Z.abs_neq (incr ws)) in * by lia.
      rewrite (Z.abs_neq (ws_end ws - v)) in * by lia.
      assert (ws_end ws - v <= q * incr ws <= 0) by nia.
      repeat split; try lia.
    - rewrite (Z.abs_eq (incr ws)) in * by lia.
      rewrite (Z.abs_eq (ws_end ws - v)) in * by lia.
      assert (0 <= q * incr ws <= ws_end ws - v) by nia.
      repeat split; try lia. }
  split; [exact Hcur|].
  replace (ws_end ws - (v + q * incr ws))
    with (ws_end ws - v + (- q) * incr ws) by ring.
  unfold n.
  destruct (Z.lt_trichotomy (incr ws) 0) as [Hneg|[H0|Hpos]];
    [specialize (Hng Hneg)|contradiction|specialize (Hp Hpos)].
  - rewrite (Z.abs_neq (incr ws)) in * by lia.
    rewrite (Z.abs_neq (ws_end ws - v)) in * by lia.
    rewrite Z.quot_add; [fold n; lia|assumption|]. fold n.
    assert (ws_end ws - v + - q * incr ws <= 0) by nia.
    assert (ws_end ws - v <= 0) by lia. nia.
  - rewrite (Z.abs_eq (incr ws)) in * by lia.
    rewrite (Z.abs_eq (ws_end ws - v)) in * by lia.
    rewrite Z.quot_add; [fold n; lia|assumption|]. fold n.
    assert (0 <= ws_end ws - v + - q * incr ws) by nia.
    assert (0 <= ws_end ws - v) by lia. nia.
Qed.

Lemma guided_next_locked_true thr ws s e ws1 :
  gomp_iter_guided_next_locked thr ws = (true, Some (s, e), ws1) ->
  next ws <> ws_end ws /\ s = next ws
  /\ e = guided_claim (team_nthreads thr) (ws_end ws) (incr ws)
           (chunk_size ws) (next ws)
  /\ ws1 = set_next ws e.
Proof.
  unfold gomp_iter_guided_next_locked.
  destruct (Z.eqb_spec (next ws) (ws_end ws)) as [|Hne]; [discriminate|].
  intros H. injection H as <- <- <-. auto.
Qed.

(** A guided claim that follows another one from where it ended is not
    longer than it. *)
Lemma guided_claim_shrinks thr ws v e e2 :
  step_ok ws -> team_ok thr -> in_long (chunk_size ws) -> cursor_ok ws v ->
  e = guided_claim (team_nthreads thr) (ws_end ws) (incr ws)
        (chunk_size ws) v ->
  e2 = guided_claim (team_nthreads thr) (ws_end ws) (incr ws)
         (chunk_size ws) e ->
  e <> ws_end ws ->
  Z.abs (e2 - e) <= Z.abs (e - v).
Proof.
  intros Hs Ht Hcl Hc Ee Ee2 Hne'.
  pose proof (team_nthreads_range thr Ht) as Hnt.
  pose proof (steps_left_bounds ws v Hs Hc) as (Hn & _).
  destruct (guided_claim_cases thr ws v Hs Ht Hcl Hc) as (Hq0 & Hcase).
  rewrite <- Ee in Hcase.
  remember (Z.quot (ws_end ws - v) (incr ws)) as n eqn:En.
  remember (Z.max (ceil_div n (team_nthreads thr)) (to_ulong (chunk_size ws)))
    as q eqn:Eq.
  destruct Hcase as [(Hq & He & Hce & Hn')|(Hq & He)]; [|contradiction].
  pose proof (steps_left_bounds ws e Hs Hce) as (Hn2 & Hlo2 & Hhi2).
  destruct (guided_claim_cases thr ws e Hs Ht Hcl Hce) as (Hq0' & Hcase).
  rewrite <- Ee2 in Hcase. rewrite Hn' in *.
  remember (Z.max (ceil_div (n - q) (team_nthreads thr))
              (to_ulong (chunk_size ws))) as q' eqn:Eq'.
  assert (Hmono : q' <= q).
  { rewrite Eq', Eq. apply Z.max_le_compat_r.
    apply ceil_div_mono; [split|]; lia. }
  assert (Hd1 : Z.abs (e - v) = q * Z.abs (incr ws)).
  { rewrite He. replace (v + q * incr ws - v) with (q * incr ws) by ring.
    rewrite Z.abs_mul. rewrite (Z.abs_eq q) by assumption. reflexivity. }
  rewrite Hd1.
  destruct Hcase as [(Hq' & He2 & _)|(Hq' & He2)].
  - rewrite He2. replace (e + q' * incr ws - e) with (q' * incr ws) by ring.
    rewrite Z.abs_mul. rewrite (Z.abs_eq q') by assumption.
    apply Z.mul_le_mono_nonneg_r; lia.
  - rewrite He2.
    assert (0 <= Z.abs (incr ws)) by lia.
    clear - Hhi2 Hq' Hmono H Hq0 Hq0'.
    generalize dependent (Z.abs (ws_end ws - e)).
    generalize dependent (Z.abs (incr ws)). intros. nia.
Qed.

(** X6.  The claims of the guided schedule never grow: when two
    successive calls of [gomp_iter_guided_next_locked] both hand out a
    range, the second range starts where the first ends and is not longer
    than the first. *)
Theorem guided_claims_shrink thr ws s e ws1 s' e' ws2 :
  step_ok ws -> team_ok thr -> in_long (chunk_size ws) ->
  cursor_ok ws (next ws) ->
  gomp_iter_guided_next_locked thr ws = (true, Some (s, e), ws1) ->
  gomp_iter_guided_next_locked thr ws1 = (true, Some (s', e'), ws2) ->
  s = next ws /\ s' = e /\ Z.abs (e' - s') <= Z.abs (e - s).
Proof.
  intros Hs Ht Hcl Hc H1 H2.
  destruct (guided_next_locked_true _ _ _ _ _ H1) as (Hne & -> & Ee & ->).
  destruct (guided_next_locked_true _ _ _ _ _ H2) as (Hne' & -> & Ee2 & _).
  cbn [next ws_end incr chunk_size set_next] in Hne', Ee2 |- *.
  split; [reflexivity|]. split; [reflexivity|].
  now apply (guided_claim_shrinks thr ws (next ws) e e').
Qed.

Lemma guided_claims_shrink_witness :
  let ws := {| chunk_size := 1; ws_end := 1000; incr := 1; next := 0;
               mode := false; start_t0 := 0; nb_iterations_left := 0;
               adaptive_chunks := [] |} in
  Z.abs (438 - 250) <= Z.abs (250 - 0).
Proof.
  intros ws.
  assert (Hin : forall z, -10 <= z <= 1000 -> in_long z)
    by (unfold in_long, LONG_MIN, LONG_MAX; lia).
  apply (guided_claims_shrink (thr_of_4 0) ws 0 250 (set_next ws 250)
           250 438 (set_next ws 438)).
  - unfold step_ok; simpl. repeat split; try apply Hin; lia.
  - unfold team_ok, UINT_MOD; simpl. lia.
  - apply Hin. simpl. lia.
  - unfold cursor_ok, LONG_MAX; simpl. repeat split; try apply Hin; lia.
  - reflexivity.
  - reflexivity.
Defined.

(** ** Static schedule: the partition of the iterations *)













(** ** Adaptive schedule: the owner's side of the queue *)

(** One call of [gomp_iter_adaptive_try_local_work] on any queue: the
    owner takes [len] iterations from the head, where [len] is
    [chunk_size], or what is left when that is less, or nothing when the
    queue is empty or was emptied behind its [begin]. *)
Lemma try_local_work_step (q : gomp_ws_adaptive_chunk) (cs : Z) :
  0 < cs -> in_long (begin q) -> in_long (chunk_end q) ->
  in_long (begin q + cs) -> in_long (chunk_end q - begin q) ->
  let len := Z.max 0 (Z.min cs (chunk_end q - begin q)) in
  gomp_iter_adaptive_try_local_work q cs
  = (0 <? len,
     if 0 <? len then Some (begin q, begin q + len) else None,
     {| begin := begin q + len; chunk_end := chunk_end q;
        nb_exec := if 0 <? len then ladd (nb_exec q) len else nb_exec q;
        is_init := is_init q |}).
Proof.
  intros Hcs Hb He Hbc Hd len.
  unfold gomp_iter_adaptive_try_local_work.
  assert (E1 : ladd (begin q) cs = begin q + cs)
    by (unfold ladd; now apply to_long_id).
  rewrite E1.
  assert (E2 : lsub (begin q + cs) cs = begin q).
  { unfold lsub. replace (begin q + cs - cs) with (begin q) by ring.
    now apply to_long_id. }
  rewrite E2.
  assert (E3 : lsub (chunk_end q) (begin q) = chunk_end q - begin q)
    by (unfold lsub; now apply to_long_id).
  rewrite E3.
  destruct (Z.ltb_spec (begin q + cs) (chunk_end q)) as [Hlt|Hge].
  - assert (Hl : len = cs) by (unfold len; lia). rewrite Hl.
    destruct (Z.ltb_spec 0 cs); [reflexivity|lia].
  - destruct (Z.gtb_spec (chunk_end q - begin q) 0) as [Hpos|Hnp].
    + assert (Hl : len = chunk_end q - begin q) by (unfold len; lia).
      rewrite Hl.
      destruct (Z.gtb_spec (chunk_end q - begin q) cs); [lia|].
      assert (E4 : ladd (begin q) (chunk_end q - begin q) = chunk_end q).
      { unfold ladd.
        replace (begin q + (chunk_end q - begin q)) with (chunk_end q) by ring.
        now apply to_long_id. }
      rewrite E4.
      assert (E5 : lsub (chunk_end q) (chunk_end q - begin q) = begin q).
      { unfold lsub.
        replace (chunk_end q - (chunk_end q - begin q)) with (begin q) by ring.
        now apply to_long_id. }
      rewrite E5.
      replace (begin q + (chunk_end q - begin q)) with (chunk_end q) by ring.
      destruct (Z.ltb_spec 0 (chunk_end q - begin q)); [reflexivity|lia].
    + assert (Hl : len = 0) by (unfold len; lia). rewrite Hl.
      cbn [Z.ltb Z.compare]. rewrite Z.add_0_r. reflexivity.
Qed.

(** X9.  A call of [gomp_iter_adaptive_try_local_work] returns false
    exactly when the queue holds no iteration ([end <= begin]), and then
    stores nothing and leaves [begin], [end] and [nb_exec] as they were;
    otherwise it hands out the head of the queue, [chunk_size] iterations
    or all that is left when that is less, advances [begin] past them and
    adds their number to [nb_exec].  [begin] never passes [end]. *)
Theorem adaptive_local_work_cases (q : gomp_ws_adaptive_chunk) (cs : Z) :
  0 < cs -> in_long (begin q) -> in_long (chunk_end q) ->
  in_long (begin q + cs) -> in_long (chunk_end q - begin q) ->
  (chunk_end q <= begin q ->
   gomp_iter_adaptive_try_local_work q cs = (false, None, q))
  /\ (begin q < chunk_end q ->
      let len := Z.min cs (chunk_end q - begin q) in
      gomp_iter_adaptive_try_local_work q cs
      = (true, Some (begin q, begin q + len),
         {| begin := begin q + len; chunk_end := chunk_end q;
            nb_exec := ladd (nb_exec q) len; is_init := is_init q |})
      /\ begin q + len <= chunk_end q).
Proof.
  intros Hcs Hb He Hbc Hd.
  pose proof (try_local_work_step q cs Hcs Hb He Hbc Hd) as Hstep.
  cbv zeta in Hstep. split.
  - intros Hempty. rewrite Hstep.
    replace (Z.max 0 (Z.min cs (chunk_end q - begin q))) with 0 by lia.
    cbn [Z.ltb Z.compare]. rewrite Z.add_0_r. destruct q; reflexivity.
  - intros Hwork len. rewrite Hstep.
    replace (Z.max 0 (Z.min cs (chunk_end q - begin q))) with len
      by (unfold len; lia).
    assert (0 < len) by (unfold len; lia).
    destruct (Z.ltb_spec 0 len); [|lia].
    split; [reflexivity|unfold len; lia].
Qed.

Lemma adaptive_local_work_cases_witness :
  gomp_iter_adaptive_try_local_work
    {| begin := 6; chunk_end := 8; nb_exec := 2; is_init := true |} 4
  = (true, Some (6, 8),
     {| begin := 8; chunk_end := 8; nb_exec := 4; is_init := true |}).
Proof.
  assert (Hin : forall z, -10 <= z <= 100 -> in_long z)
    by (unfold in_long, LONG_MIN, LONG_MAX; lia).
  destruct (adaptive_local_work_cases
              {| begin := 6; chunk_end := 8; nb_exec := 2; is_init := true |} 4)
    as (_ & Hwork); try (apply Hin; cbn [begin chunk_end]; lia); try lia.
  destruct Hwork as (Heq & _); [cbn [begin chunk_end]; lia|].
  exact Heq.
Defined.

(** The owner's calls repeated until one returns false. *)
Lemma local_collect_tiles cs (m : nat) :
  0 < cs -> in_long cs ->
  forall q,
    in_long (begin q) -> in_long (chunk_end q) ->
    in_long (chunk_end q + cs) ->
    0 <= nb_exec q -> in_long (nb_exec q + (chunk_end q - begin q)) ->
    0 <= chunk_end q - begin q <= Z.of_nat m ->
    exists k l q',
      (k <= m)%nat /\ local_collect k q cs = (l, q')
      /\ length l = k
      /\ chained (begin q) l (chunk_end q)
      /\ Forall (fun r => 0 < snd r - fst r <= cs) l
      /\ begin q' = chunk_end q /\ chunk_end q' = chunk_end q
      /\ nb_exec q' = nb_exec q + (chunk_end q - begin q)
      /\ is_init q' = is_init q.
Proof.
  intros Hcs Hcl.
  induction m as [|m IH]; intros q Hb He Hec Hx Hxs Hm.
  - exists 0%nat, [], q. simpl. repeat split; auto; lia.
  - destruct (Z.eq_dec (begin q) (chunk_end q)) as [Heq|Hne].
    + exists 0%nat, [], q. simpl. repeat split; auto; lia.
    + assert (Hbc : in_long (begin q + cs))
        by (unfold in_long, LONG_MIN, LONG_MAX in *; lia).
      assert (Hd : in_long (chunk_end q - begin q))
        by (unfold in_long, LONG_MIN, LONG_MAX in *; lia).
      pose proof (try_local_work_step q cs Hcs Hb He Hbc Hd) as Hstep.
      cbv zeta in Hstep.
      remember (Z.min cs (chunk_end q - begin q)) as len eqn:Elen.
      replace (Z.max 0 len) with len in Hstep by lia.
      assert (Hlen : 0 < len <= cs) by lia.
      assert (Hle : begin q + len <= chunk_end q) by lia.
      destruct (Z.ltb_spec 0 len) as [_|]; [|lia].
      assert (Hadd : ladd (nb_exec q) len = nb_exec q + len).
      { unfold ladd. apply to_long_id.
        unfold in_long, LONG_MIN, LONG_MAX in *. lia. }
      rewrite Hadd in Hstep.
      destruct (IH {| begin := begin q + len; chunk_end := chunk_end q;
                      nb_exec := nb_exec q + len; is_init := is_init q |})
        as (k & l & q' & Hk & Hcol & Hlen' & Hch & Hall & Hb' & He' & Hx' & Hi');
        cbn [begin chunk_end nb_exec is_init];
        try (unfold in_long, LONG_MIN, LONG_MAX in *; lia).
      cbn [begin chunk_end nb_exec is_init] in *.
      exists (S k), ((begin q, begin q + len) :: l), q'.
      cbn [local_collect]. rewrite Hstep, Hcol. cbn [length chained].
      repeat split; auto; try lia.
      constructor; [cbn [fst snd]; lia|exact Hall].
Qed.

(** X10.  The owner of an adaptive queue who calls
    [gomp_iter_adaptive_try_local_work] until it returns false, with nobody
    stealing, receives ranges that follow one another from [begin] to
    [end] without gap or overlap, none empty and none longer than
    [chunk_size]; at the end the queue is empty and [nb_exec] has grown by
    the number of iterations the queue held. *)
Theorem adaptive_local_drain (q : gomp_ws_adaptive_chunk) (cs : Z) :
  0 < cs -> in_long cs ->
  in_long (begin q) -> in_long (chunk_end q) -> in_long (chunk_end q + cs) ->
  0 <= nb_exec q -> in_long (nb_exec q + (chunk_end q - begin q)) ->
  begin q <= chunk_end q ->
  exists k l q',
    (k <= Z.to_nat (chunk_end q - begin q))%nat
    /\ local_collect k q cs = (l, q')
    /\ length l = k
    /\ chained (begin q) l (chunk_end q)
    /\ Forall (fun r => 0 < snd r - fst r <= cs) l
    /\ begin q' = chunk_end q /\ chunk_end q' = chunk_end q
    /\ nb_exec q' = nb_exec q + (chunk_end q - begin q)
    /\ gomp_iter_adaptive_try_local_work q' cs = (false, None, q').
Proof.
  intros Hcs Hcl Hb He Hec Hx Hxs Hle.
  destruct (local_collect_tiles cs (Z.to_nat (chunk_end q - begin q)) Hcs Hcl
              q Hb He Hec Hx Hxs ltac:(lia))
    as (k & l & q' & Hk & Hcol & Hlen & Hch & Hall & Hb' & He' & Hx' & Hi').
  exists k, l, q'. repeat split; auto.
  assert (Hstep : in_long (begin q') -> in_long (chunk_end q')
                  -> in_long (begin q' + cs)
                  -> in_long (chunk_end q' - begin q')
                  -> gomp_iter_adaptive_try_local_work q' cs = (false, None, q')).
  { intros Hb1 He1 Hbc Hd.
    rewrite (try_local_work_step q' cs Hcs Hb1 He1 Hbc Hd).
    replace (Z.max 0 (Z.min cs (chunk_end q' - begin q'))) with 0 by lia.
    cbn [Z.ltb Z.compare]. rewrite Z.add_0_r. destruct q'; reflexivity. }
  apply Hstep; rewrite ?Hb', ?He'; unfold in_long, LONG_MIN, LONG_MAX in *; lia.
Qed.

Lemma adaptive_local_drain_witness :
  exists k l q',
    (k <= 4)%nat
    /\ local_collect k
         {| begin := 4; chunk_end := 8; nb_exec := 0; is_init := true |} 3
       = (l, q')
    /\ chained 4 l 8 /\ nb_exec q' = 4.
Proof.
  assert (Hin : forall z, -10 <= z <= 100 -> in_long z)
    by (unfold in_long, LONG_MIN, LONG_MAX; lia).
  destruct (adaptive_local_drain
              {| begin := 4; chunk_end := 8; nb_exec := 0; is_init := true |} 3
              ltac:(lia) ltac:(apply Hin; lia)
              ltac:(apply Hin; cbn [begin]; lia)
              ltac:(apply Hin; cbn [chunk_end]; lia)
              ltac:(apply Hin; cbn [chunk_end]; lia)
              ltac:(cbn [nb_exec]; lia)
              ltac:(apply Hin; cbn [begin chunk_end nb_exec]; lia)
              ltac:(cbn [begin chunk_end]; lia))
    as (k & l & q' & Hk & Hcol & _ & Hch & _ & _ & _ & Hx & _).
  exists k, l, q'. repeat split; assumption.
Defined.

(** ** Adaptive schedule: the choice of a victim *)

Lemma pick_loop_sound draws n self v rest :
  0 < n -> Forall (fun r => 0 <= r) draws ->
  pick_loop draws n self = Some (v, rest) ->
  0 <= v < n /\ v <> self /\ (length rest < length draws)%nat.
Proof.
  intros Hn Hall. revert v rest.
  induction Hall as [|r draws Hr Hall IH]; intros v rest; simpl;
    [discriminate|].
  destruct (Z.eqb_spec (Z.rem r n) self) as [Heq|Hne].
  - intros H. destruct (IH _ _ H) as (H1 & H2 & H3). repeat split; auto; lia.
  - intros H. injection H as <- <-.
    pose proof (Z.rem_bound_pos r n Hr Hn). repeat split; auto; lia.
Qed.

Lemma pick_loop_total draws n self :
  Exists (fun r => Z.rem r n <> self) draws ->
  exists v rest, pick_loop draws n self = Some (v, rest).
Proof.
  induction 1 as [r draws Hr|r draws Hex IH]; simpl.
  - destruct (Z.eqb_spec (Z.rem r n) self); [contradiction|]. eauto.
  - destruct (Z.rem r n =? self); eauto.
Qed.

(** X11.  [gomp_loop_adaptive_random_pick_victim] returns the null
    pointer exactly when the team has one thread, and then without
    drawing; otherwise it never returns the caller itself: the victim is
    an index of the team other than [team_id], reached after at least one
    draw, and one is found as soon as some draw falls on another thread.
    The draws of [rand_r] are not negative. *)
Theorem random_pick_victim_valid draws thr t :
  team thr = Some t -> 1 <= nthreads t ->
  Forall (fun r => 0 <= r) draws ->
  (nthreads t = 1 ->
   gomp_loop_adaptive_random_pick_victim draws thr = Some (None, draws))
  /\ (nthreads t <> 1 ->
      forall vq rest,
        gomp_loop_adaptive_random_pick_victim draws thr = Some (vq, rest) ->
        exists v, vq = Some v /\ 0 <= v < nthreads t /\ v <> team_id thr
                  /\ (length rest < length draws)%nat)
  /\ (nthreads t <> 1 ->
      Exists (fun r => Z.rem r (nthreads t) <> team_id thr) draws ->
      exists v rest,
        gomp_loop_adaptive_random_pick_victim draws thr = Some (Some v, rest)).
Proof.
  intros Hteam Hn Hall.
  unfold gomp_loop_adaptive_random_pick_victim. rewrite Hteam.
  split; [|split].
  - intros ->. reflexivity.
  - intros Hne vq rest.
    destruct (Z.eqb_spec (nthreads t) 1); [contradiction|].
    destruct (pick_loop draws (nthreads t) (team_id thr)) as [[v r]|] eqn:E;
      [|discriminate].
    intros H. injection H as <- <-.
    exists v. split; [reflexivity|].
    apply (pick_loop_sound draws (nthreads t) (team_id thr) v r);
      [lia|assumption|assumption].
  - intros Hne Hex.
    destruct (Z.eqb_spec (nthreads t) 1); [contradiction|].
    destruct (pick_loop_total _ _ _ Hex) as (v & rest & ->). eauto.
Qed.

Lemma random_pick_victim_valid_witness :
  gomp_loop_adaptive_random_pick_victim [4; 7] (thr_of_2 0) = Some (Some 1, []).
Proof.
  destruct (random_pick_victim_valid [4; 7] (thr_of_2 0) {| nthreads := 2 |})
    as (_ & _ & Hfound).
  - reflexivity.
  - simpl. lia.
  - repeat constructor; lia.
  - destruct Hfound as (v & rest & Hpick).
    + simpl. lia.
    + apply Exists_cons_tl. apply Exists_cons_hd. vm_compute. discriminate.
    + reflexivity.
Defined.

Lemma pick_loop_not_self draws n self v rest :
  pick_loop draws n self = Some (v, rest) -> v <> self.
Proof.
  induction draws as [|d draws IH]; simpl; [discriminate|].
  destruct (Z.eqb_spec (Z.rem d n) self); [exact IH|].
  intros H. injection H as <- _. assumption.
Qed.

(** X12.  [gomp_loop_adaptive_numa_pick_victim] returns the null pointer
    without drawing when the caller is alone on its node; otherwise the
    victim is the team index that the node's table holds at a position
    other than the caller's own position in the node. *)
Theorem numa_pick_victim_on_node draws ctx node :
  numa_info ctx !! numaid ctx = Some node ->
  (numa_size node = 1 ->
   gomp_loop_adaptive_numa_pick_victim draws ctx = Some (None, draws))
  /\ (numa_size node <> 1 ->
      forall vq rest,
        gomp_loop_adaptive_numa_pick_victim draws ctx = Some (vq, rest) ->
        exists v j,
          vq = Some v /\ team_ids node !! j = Some v
          /\ Z.of_nat j <> index_numanode ctx).
Proof.
  intros Hnode. unfold gomp_loop_adaptive_numa_pick_victim. rewrite Hnode.
  split.
  - intros ->. reflexivity.
  - intros Hne vq rest.
    destruct (Z.eqb_spec (numa_size node) 1); [contradiction|].
    destruct (pick_loop draws (numa_size node) (index_numanode ctx))
      as [[j r]|] eqn:E; [|discriminate].
    destruct (Z.ltb_spec j 0) as [|Hj]; [discriminate|].
    destruct (team_ids node !! Z.to_nat j) as [v|] eqn:Ev; [|discriminate].
    intros H. injection H as <- <-.
    exists v, (Z.to_nat j). split; [reflexivity|]. split; [exact Ev|].
    rewrite Z2Nat.id by assumption.
    exact (pick_loop_not_self _ _ _ _ _ E).
Qed.

Lemma numa_pick_victim_on_node_witness :
  let node := {| numa_size := 2; team_ids := [3; 5] |} in
  let ctx := {| numa_info := [node]; numaid := 0; index_numanode := 0 |} in
  gomp_loop_adaptive_numa_pick_victim [6; 9] ctx = Some (Some 5, []).
Proof.
  intros node ctx.
  destruct (numa_pick_victim_on_node [6; 9] ctx node eq_refl) as (_ & Hv).
  destruct (Hv ltac:(simpl; lia) (Some 5) [] eq_refl) as (v & j & _).
  reflexivity.
Defined.

Lemma numa_attempts_sound (k : nat) ctx ws node :
  numa_info ctx !! numaid ctx = Some node ->
  forall draws v rest,
    numa_attempts k draws ctx ws = Some (Some v, rest) ->
    exists j q,
      team_ids node !! j = Some v /\ Z.of_nat j <> index_numanode ctx
      /\ 0 <= v /\ adaptive_chunks ws !! Z.to_nat v = Some q
      /\ begin q < chunk_end q.
Proof.
  intros Hnode. induction k as [|k IH]; intros draws v rest; simpl;
    [discriminate|].
  destruct (gomp_loop_adaptive_numa_pick_victim draws ctx)
    as [[[w|] r]|] eqn:E; [|apply IH|discriminate].
  destruct (Z.ltb_spec w 0) as [|Hw]; [discriminate|].
  destruct (adaptive_chunks ws !! Z.to_nat w) as [q|] eqn:Eq; [|discriminate].
  destruct (Z.gtb_spec (chunk_end q) (begin q)) as [Hgt|_]; [|apply IH].
  intros H. injection H as <- <-.
  unfold gomp_loop_adaptive_numa_pick_victim in E. rewrite Hnode in E.
  destruct (numa_size node =? 1); [discriminate|].
  destruct (pick_loop draws (numa_size node) (index_numanode ctx))
    as [[j r']|] eqn:Ep; [|discriminate].
  destruct (Z.ltb_spec j 0) as [|Hj]; [discriminate|].
  destruct (team_ids node !! Z.to_nat j) as [v'|] eqn:Ev; [|discriminate].
  injection E as <- <-.
  exists (Z.to_nat j), q. repeat split; auto; try lia.
  rewrite Z2Nat.id by assumption.
  exact (pick_loop_not_self _ _ _ _ _ Ep).
Qed.

(** X13.  In the NUMA configuration with [LIBGOMP_USE_PWS_STRICT], a
    victim chosen by [gomp_iter_adaptive_steal] is always a thread of the
    caller's own node, at another position than the caller's, and its
    queue held work ([begin < end]) when it was chosen: the strict
    configuration never steals across nodes. *)
Theorem strict_victim_on_node ctx draws thr ws node v rest :
  numa_info ctx !! numaid ctx = Some node ->
  adaptive_select_victim (Numa ctx true) draws thr ws = Some (Some v, rest) ->
  exists j q,
    team_ids node !! j = Some v /\ Z.of_nat j <> index_numanode ctx
    /\ 0 <= v /\ adaptive_chunks ws !! Z.to_nat v = Some q
    /\ begin q < chunk_end q.
Proof.
  intros Hnode. unfold adaptive_select_victim. rewrite Hnode.
  destruct (numa_attempts (Z.to_nat (1 + Z.quot (numa_size node) 2)) draws
              ctx ws) as [[[w|] r]|] eqn:E; [| |discriminate].
  - intros H. injection H as <- <-.
    exact (numa_attempts_sound _ ctx ws node Hnode _ _ _ E).
  - destruct (gomp_loop_adaptive_is_finished ws); discriminate.
Qed.

Lemma strict_victim_on_node_witness :
  let node := {| numa_size := 2; team_ids := [0; 1] |} in
  let ctx := {| numa_info := [node]; numaid := 0; index_numanode := 0 |} in
  adaptive_select_victim (Numa ctx true) [5] (thr_of_2 0) ws_adaptive_8
  = Some (Some 1, []).
Proof.
  intros node ctx.
  destruct (strict_victim_on_node ctx [5] (thr_of_2 0) ws_adaptive_8 node 1 []
              eq_refl eq_refl) as (j & q & _).
  reflexivity.
Defined.

(** ** Adaptive schedule: stealing *)

(** The size a thief computes from a queue of at least two iterations:
    half of them, rounded down. *)
Lemma steal_size_value (victim : gomp_ws_adaptive_chunk) :
  in_long (chunk_end victim - begin victim) ->
  let size := ldiv (lsub (chunk_end victim) (begin victim)) 2 in
  (chunk_end victim - begin victim <= 1 -> size <= 0)
  /\ (2 <= chunk_end victim - begin victim ->
      size = (chunk_end victim - begin victim) / 2
      /\ 1 <= size /\ size <= chunk_end victim - begin victim - size).
Proof.
  intros Hd size. unfold size, ldiv, lsub.
  rewrite (to_long_id (chunk_end victim - begin victim)) by assumption.
  set (len := chunk_end victim - begin victim) in *.
  unfold in_long, LONG_MIN, LONG_MAX in *.
  split.
  - intros Hle.
    destruct (Z.le_gt_cases 0 len) as [Hpos|Hneg].
    + rewrite Z.quot_div_nonneg by lia.
      assert (len / 2 = 0) by (apply Z.div_small; lia).
      rewrite H. rewrite to_long_id; [lia|].
      unfold in_long, LONG_MIN, LONG_MAX. lia.
    + pose proof (Z.quot_opp_l len 2 ltac:(lia)) as Ho.
      assert (Hq : 0 <= Z.quot (- len) 2 <= - len).
      { rewrite Z.quot_div_nonneg by lia.
        split; [apply Z.div_pos; lia|].
        apply Z.div_le_upper_bound; lia. }
      rewrite to_long_id; [lia|].
      unfold in_long, LONG_MIN, LONG_MAX. lia.
  - intros Hge. rewrite Z.quot_div_nonneg by lia.
    pose proof (Z.div_mod len 2 ltac:(lia)) as Hdm.
    pose proof (Z.mod_pos_bound len 2 ltac:(lia)) as Hm.
    rewrite to_long_id by (unfold in_long, LONG_MIN, LONG_MAX; lia).
    repeat split; lia.
Qed.

(** X14.  [gomp_iter_adaptive_steal] gives up without touching anything
    when there is nothing to take: when no victim is chosen (the null
    pointer, or an early return), and when the chosen victim's queue holds
    fewer than two iterations, so that half of it is nothing.  It returns
    false, stores no range and leaves every queue as it was. *)
Theorem adaptive_steal_nothing_to_take cfg draws disturb thr lq cs ws :
  (forall rest,
     adaptive_select_victim cfg draws thr ws = Some (None, rest) ->
     gomp_iter_adaptive_steal cfg draws disturb thr lq cs ws
     = Some ((false, None, ws), rest))
  /\ (forall v rest victim,
        adaptive_select_victim cfg draws thr ws = Some (Some v, rest) ->
        0 <= v ->
        adaptive_chunks ws !! Z.to_nat v = Some victim ->
        in_long (chunk_end victim - begin victim) ->
        chunk_end victim - begin victim <= 1 ->
        gomp_iter_adaptive_steal cfg draws disturb thr lq cs ws
        = Some ((false, None, ws), rest)).
Proof.
  unfold gomp_iter_adaptive_steal. split.
  - intros rest ->. reflexivity.
  - intros v rest victim -> Hv Hvictim Hd Hle.
    destruct (Z.ltb_spec v 0); [lia|].
    unfold adaptive_steal_from. rewrite Hvictim.
    destruct (steal_size_value victim Hd) as (Hsmall & _).
    specialize (Hsmall Hle). cbv zeta in Hsmall.
    destruct (Z.leb_spec
                (ldiv (lsub (chunk_end victim) (begin victim)) 2) 0);
      [reflexivity|lia].
Qed.

Lemma set_chunk_end_same q : set_chunk_end q (chunk_end q) = q.
Proof. destruct q. reflexivity. Qed.



(** X16.  When the owner of the victim's queue, or another thief, has made
    the queue too short between the thief's unlocked read of its size and
    the lock, the thief finds the new [end] below [begin], puts [end] back
    and returns false: it stores no range, its own queue is not changed,
    and the victim's queue is exactly as the other threads left it. *)
Theorem adaptive_steal_rolls_back cfg draws disturb thr lq cs ws v rest
  victim :
  adaptive_select_victim cfg draws thr ws = Some (Some v, rest) ->
  0 <= v ->
  adaptive_chunks ws !! Z.to_nat v = Some victim ->
  in_long (chunk_end victim - begin victim) ->
  2 <= chunk_end victim - begin victim ->
  let d := disturb victim in
  let size := (chunk_end victim - begin victim) / 2 in
  in_long (chunk_end d) -> in_long (chunk_end d - size) ->
  chunk_end d - size < begin d ->
  gomp_iter_adaptive_steal cfg draws disturb thr lq cs ws
  = Some ((false, None,
           set_adaptive_chunks ws (<[Z.to_nat v := d]> (adaptive_chunks ws))),
          rest).
Proof.
  intros Hsel Hv Hvictim Hd Hlen d size Hde He Hrace.
  destruct (steal_size_value victim Hd) as (_ & Hbig).
  destruct (Hbig Hlen) as (Hsize & Hs1 & Hs2). cbv zeta in Hsize, Hs1, Hs2.
  rewrite Hsize in Hs1, Hs2. fold size in Hsize, Hs1, Hs2.
  unfold gomp_iter_adaptive_steal. rewrite Hsel.
  destruct (Z.ltb_spec v 0); [lia|].
  unfold adaptive_steal_from. rewrite Hvictim. cbv zeta.
  rewrite Hsize. fold d.
  destruct (Z.leb_spec size 0); [lia|].
  assert (E1 : lsub (chunk_end d) size = chunk_end d - size)
    by (unfold lsub; now apply to_long_id).
  rewrite E1.
  destruct (Z.ltb_spec (chunk_end d - size) (begin d)); [|lia].
  assert (E4 : ladd (chunk_end d - size) size = chunk_end d).
  { unfold ladd. replace (chunk_end d - size + size) with (chunk_end d) by ring.
    now apply to_long_id. }
  rewrite E4, set_chunk_end_same. reflexivity.
Qed.

Lemma adaptive_steal_rolls_back_witness :
  let owner_took_three (q : gomp_ws_adaptive_chunk) :=
    {| begin := begin q + 3; chunk_end := chunk_end q; nb_exec := nb_exec q + 3;
       is_init := is_init q |} in
  gomp_iter_adaptive_steal NoNuma [5] owner_took_three (thr_of_2 0) 0 1
    ws_adaptive_8
  = Some ((false, None,
           set_adaptive_chunks ws_adaptive_8
             [ {| begin := 4; chunk_end := 4; nb_exec := 4; is_init := true |};
               {| begin := 7; chunk_end := 8; nb_exec := 3; is_init := true |} ]),
          []).
Proof.
  intros owner_took_three.
  assert (Hin : forall z, -10 <= z <= 100 -> in_long z)
    by (unfold in_long, LONG_MIN, LONG_MAX; lia).
  exact (adaptive_steal_rolls_back NoNuma [5] owner_took_three (thr_of_2 0)
           0%nat 1 ws_adaptive_8 1 []
           {| begin := 4; chunk_end := 8; nb_exec := 0; is_init := true |}
           eq_refl ltac:(lia) eq_refl
           ltac:(apply Hin; cbn [begin chunk_end]; lia)
           ltac:(cbn [begin chunk_end]; lia)
           ltac:(apply Hin; vm_compute; split; discriminate)
           ltac:(apply Hin; vm_compute; split; discriminate)
           ltac:(vm_compute; reflexivity)).
Defined.

(** X17.  Once the worker's queue is initialised, a call of
    [gomp_iter_adaptive_next] is a call of
    [gomp_iter_adaptive_try_local_work] on the worker's own queue and
    nothing more: it does not call the initialisation again, and it
    changes neither the queue of any other worker nor
    [nb_iterations_left], whatever it returns. *)
Theorem adaptive_next_own_queue_only init_worker thr ws local_chunk :
  adaptive_chunks ws !! Z.to_nat (team_id thr) = Some local_chunk ->
  is_init local_chunk = true ->
  exists r out q',
    gomp_iter_adaptive_try_local_work local_chunk (chunk_size ws)
    = (r, out, q')
    /\ gomp_iter_adaptive_next init_worker thr ws
       = Some (r, out,
               set_adaptive_chunks ws
                 (<[Z.to_nat (team_id thr) := q']> (adaptive_chunks ws)))
    /\ is_init q' = true.
Proof.
  intros Hslot Hinit.
  unfold gomp_iter_adaptive_next. rewrite Hslot, Hinit, Hslot.
  destruct (gomp_iter_adaptive_try_local_work local_chunk (chunk_size ws))
    as [[r out] q'] eqn:E.
  exists r, out, q'. split; [reflexivity|]. split.
  - destruct r; reflexivity.
  - revert E. unfold gomp_iter_adaptive_try_local_work.
    repeat match goal with
    | |- context [if ?c then _ else _] => destruct c
    end; intros H; injection H as <- <- <-; exact Hinit.
Qed.

Lemma adaptive_next_own_queue_only_witness :
  gomp_iter_adaptive_next init_worker_skip (thr_of_2 1) ws_adaptive_8
  = Some (true, Some (4, 5),
          set_adaptive_chunks ws_adaptive_8
            [ {| begin := 4; chunk_end := 4; nb_exec := 4; is_init := true |};
              {| begin := 5; chunk_end := 8; nb_exec := 1; is_init := true |} ]).
Proof.
  destruct (adaptive_next_own_queue_only init_worker_skip (thr_of_2 1)
              ws_adaptive_8
              {| begin := 4; chunk_end := 8; nb_exec := 0; is_init := true |}
              eq_refl eq_refl) as (r & out & q' & Hlocal & Hnext & _).
  rewrite Hnext. vm_compute in Hlocal. injection Hlocal as <- <- <-.
  reflexivity.
Defined.

(** ** Adaptive schedule: the owner and the thieves of one queue *)

Lemma chained_snoc start l mid e :
  chained start l mid -> chained start (l ++ [(mid, e)]) e.
Proof.
  revert start. induction l as [|[a b] l IH]; intros start; simpl.
  - intros ->. auto.
  - intros (-> & H). split; [reflexivity|]. apply IH, H.
Qed.

Lemma half_positive x :
  in_long x -> 0 < ldiv x 2 -> 0 < ldiv x 2 <= x.
Proof.
  intros Hx. unfold ldiv.
  assert (Hq : in_long (Z.quot x 2)).
  { unfold in_long, LONG_MIN, LONG_MAX in *.
    destruct (Z_lt_le_dec x 0) as [Hneg|Hpos].
    - pose proof (Z.quot_opp_l x 2 ltac:(lia)) as Ho.
      assert (Hp : 0 <= Z.quot (- x) 2 <= - x).
      { rewrite Z.quot_div_nonneg by lia.
        split; [apply Z.div_pos; lia|].
        apply Z.div_le_upper_bound; lia. }
      lia.
    - rewrite Z.quot_div_nonneg by lia.
      split; [assert (0 <= x / 2) by (apply Z.div_pos; lia); lia|].
      assert (x / 2 <= x) by (apply Z.div_le_upper_bound; lia). lia. }
  rewrite (to_long_id _ Hq). intros Hpos.
  destruct (Z_lt_le_dec x 0) as [Hneg|Hnn].
  - pose proof (Z.quot_opp_l x 2 ltac:(lia)) as Ho.
    assert (0 <= Z.quot (- x) 2)
      by (rewrite Z.quot_div_nonneg by lia; apply Z.div_pos; lia).
    lia.
  - rewrite Z.quot_div_nonneg in * by lia.
    split; [assumption|]. apply Z.div_le_upper_bound; lia.
Qed.

(** A step of a thief between two control points with the same pending
    write does not change what [end] has to be. *)
Lemma end_expected_insert t l ths i p p' :
  ths !! i = Some p -> thief_tentative p' = thief_tentative p ->
  end_expected t l (<[i := p']> ths) = end_expected t l ths.
Proof.
  intros Hi Ht. unfold end_expected.
  destruct l as [[|j]|]; try reflexivity.
  destruct (Nat.eq_dec j i) as [->|Hne].
  - rewrite list_lookup_insert_eq by (eapply lookup_lt_Some; eauto).
    rewrite Hi, Ht. reflexivity.
  - rewrite list_lookup_insert_ne by auto. reflexivity.
Qed.

Lemma end_expected_holder t ths i p p' :
  ths !! i = Some p ->
  end_expected t (Some (HeldByThief i)) (<[i := p']> ths)
  = match thief_tentative p' with Some e => e | None => t end.
Proof.
  intros Hi. unfold end_expected.
  rewrite list_lookup_insert_eq by (eapply lookup_lt_Some; eauto).
  reflexivity.
Qed.

Lemma end_expected_bounds q0 cs t l ths :
  Forall (thief_inv q0 cs t) ths ->
  begin q0 <= t <= chunk_end q0 ->
  begin q0 - (chunk_end q0 - begin q0) <= end_expected t l ths <= t.
Proof.
  intros Hall Ht. unfold end_expected.
  destruct l as [[|i]|]; try lia.
  destruct (ths !! i) as [p|] eqn:Hi; [|lia].
  pose proof (Forall_lookup_1 _ _ _ _ Hall Hi) as Hp.
  destruct p; simpl in *; lia.
Qed.

(** Outside the lock, the locals of a thread do not depend on where the
    stolen blocks begin. *)
Lemma thief_inv_unlocked q0 cs t t' p :
  thief_locked p = false -> thief_inv q0 cs t p -> thief_inv q0 cs t' p.
Proof. destruct p; simpl; auto; discriminate. Qed.

Lemma owner_inv_unlocked cs c t t' q o :
  owner_locked o = false -> owner_inv cs c t q o -> owner_inv cs c t' q o.
Proof. destruct o; simpl; auto; discriminate. Qed.

Lemma owner_inv_begin cs c t q o :
  0 < cs -> owner_inv cs c t q o -> c <= begin q <= c + cs.
Proof. destruct o; simpl; intros; lia. Qed.

Lemma queue_start_inv q0 cs n :
  queue_fits q0 cs -> queue_inv q0 cs (queue_start q0 n).
Proof.
  intros (Hcs & Hle & _).
  exists (begin q0), (chunk_end q0). simpl.
  repeat split; auto; try lia.
  - apply Forall_forall. intros p Hp.
    apply elem_of_replicate in Hp as (-> & _). exact I.
  - intros i p Hi. apply lookup_replicate in Hi as (-> & _). discriminate.
Qed.

(** The steps of the owner keep the invariant. *)
Lemma owner_step_inv q0 cs s :
  queue_fits q0 cs -> queue_inv q0 cs s -> queue_inv q0 cs (owner_step cs s).
Proof.
  intros (Hcs & Hle & Hlow & Hhigh & Hdiff & Hnb0 & Hnb1).
  intros (c & t & Htk & Hst & Htkp & Hstp & (Hc0 & Hct & Hte) & Ho & He & Hth
          & Hlo & Hlt & Hnb).
  pose proof (end_expected_bounds q0 cs t (qs_lock s) (qs_thieves s) Hth
                ltac:(lia)) as Heb.
  rewrite <- He in Heb.
  unfold in_long, LONG_MIN, LONG_MAX in *.
  assert (Hid : forall z, - 2 ^ 63 <= z <= 2 ^ 63 - 1 -> to_long z = z)
    by (intros z Hz; apply to_long_id; unfold in_long, LONG_MIN, LONG_MAX; lia).
  unfold owner_step.
  destruct (qs_owner s) as [|b|b|b|b|b|b size|b size] eqn:Eo;
    cbn [owner_inv owner_locked] in Ho, Hlo.
  - (* OIdle *)
    exists c, t. cbn. unfold ladd. rewrite Hid by lia.
    repeat split; auto; try lia; discriminate.
  - (* OAdded *)
    exists c, t. cbn. repeat split; auto; try lia; discriminate.
  - (* OBumped *)
    destruct Ho as (Hb & Hbc).
    destruct (Z.ltb_spec b (chunk_end (qs_queue s))) as [Hlt'|Hge].
    + exists b, t. cbn. unfold lsub, ladd.
      replace (b - cs) with c by lia. rewrite !Hid by lia.
      repeat split; auto; try lia; try discriminate.
      * apply chained_snoc, Htk.
      * apply Forall_app. split; [exact Htkp|].
        constructor; [cbn; lia|constructor].
    + exists c, t. cbn. unfold lsub. rewrite Hid by lia.
      repeat split; auto; try lia; discriminate.
  - (* OBack *)
    exists c, t. cbn. repeat split; auto; try lia; discriminate.
  - (* OWait *)
    destruct (qs_lock s) as [h|] eqn:El.
    + exists c, t. rewrite Eo, El. repeat split; auto; lia.
    + exists c, t. cbn. repeat split; auto; try lia.
      intros i p Hi Hp. specialize (Hlt i p Hi Hp). discriminate.
  - (* OLocked *)
    destruct Ho as (Hb & Hbc).
    assert (Het : chunk_end (qs_queue s) = t)
      by (rewrite He, (Hlo eq_refl); reflexivity).
    unfold lsub. rewrite Hid by lia.
    destruct (Z.gtb_spec (chunk_end (qs_queue s) - b) 0) as [Hpos|Hnp].
    + exists c, t. cbn. unfold ladd.
      destruct (Z.gtb_spec (chunk_end (qs_queue s) - b) cs);
        rewrite Hid by lia; repeat split; auto; try lia.
    + exists c, t. cbn. repeat split; auto; lia.
  - (* OSized *)
    exists c, t. cbn. repeat split; auto; lia.
  - (* ODone *)
    destruct Ho as (Hb & Hpos & Hnp).
    pose proof (Hlo eq_refl) as El.
    assert (Het : chunk_end (qs_queue s) = t)
      by (rewrite He, El; reflexivity).
    assert (Hfree : forall i p, qs_thieves s !! i = Some p ->
                                thief_locked p = true -> False).
    { intros i p Hi Hp. specialize (Hlt i p Hi Hp).
      rewrite El in Hlt. discriminate. }
    destruct (Z.gtb_spec size 0) as [Hs|Hs].
    + destruct (Hpos Hs) as (Hscs & Hbc & Hbt).
      exists b, t. cbn. unfold lsub, ladd.
      replace (b - size) with c by lia. rewrite !Hid by lia.
      repeat split; auto; try lia; try discriminate.
      * apply chained_snoc, Htk.
      * apply Forall_app. split; [exact Htkp|].
        constructor; [cbn; lia|constructor].
      * intros i p Hi Hp. destruct (Hfree i p Hi Hp).
    + specialize (Hnp Hs). exists c, t. cbn.
      repeat split; auto; try lia; try discriminate.
      intros i p Hi Hp. destruct (Hfree i p Hi Hp).
Qed.

Lemma thieves_locked_insert (l : option lock_holder)
  (ths : list thief_pc) i p' :
  (forall k p, k <> i -> ths !! k = Some p -> thief_locked p = true ->
               l = Some (HeldByThief k)) ->
  (thief_locked p' = true -> l = Some (HeldByThief i)) ->
  forall k p, <[i := p']> ths !! k = Some p -> thief_locked p = true ->
              l = Some (HeldByThief k).
Proof.
  intros Hall Hp' k p Hk Hp.
  destruct (Nat.eq_dec k i) as [->|Hne].
  - destruct (ths !! i) as [p0|] eqn:Hi.
    + rewrite list_lookup_insert_eq in Hk by (eapply lookup_lt_Some; eauto).
      injection Hk as <-. auto.
    + rewrite list_insert_ge in Hk by (apply lookup_ge_None; exact Hi).
      rewrite Hi in Hk. discriminate.
  - rewrite list_lookup_insert_ne in Hk by auto. eauto.
Qed.

(** The holder of the lock is the only thread inside. *)
Lemma thieves_unlocked_others (l : option lock_holder)
  (ths : list thief_pc) i :
  (forall k p, ths !! k = Some p -> thief_locked p = true ->
               l = Some (HeldByThief k)) ->
  l = Some (HeldByThief i) ->
  forall k p, k <> i -> ths !! k = Some p -> thief_locked p = false.
Proof.
  intros Hall Hl k p Hne Hk.
  destruct (thief_locked p) eqn:Hp; [|reflexivity].
  specialize (Hall k p Hk Hp). rewrite Hl in Hall.
  injection Hall as ->. contradiction.
Qed.

(** The steps of a thief keep the invariant. *)
Lemma thief_step_inv q0 cs i bf s :
  queue_fits q0 cs -> queue_inv q0 cs s ->
  queue_inv q0 cs (thief_step i bf s).
Proof.
  intros (Hcs & Hle & Hlow & Hhigh & Hdiff & Hnb0 & Hnb1) Hinv.
  unfold thief_step.
  destruct (qs_thieves s !! i) as [p|] eqn:Hi; [|exact Hinv].
  destruct Hinv as (c & t & Htk & Hst & Htkp & Hstp & (Hc0 & Hct & Hte) & Ho
                    & He & Hth & Hlo & Hlt & Hnb).
  pose proof (end_expected_bounds q0 cs t (qs_lock s) (qs_thieves s) Hth
                ltac:(lia)) as Heb.
  rewrite <- He in Heb.
  pose proof (owner_inv_begin _ _ _ _ _ Hcs Ho) as Hbb.
  pose proof (Forall_lookup_1 _ _ _ _ Hth Hi) as Hp.
  pose proof (Hlt i p Hi) as Hheld.
  unfold in_long, LONG_MIN, LONG_MAX in *.
  assert (Hid : forall z, - 2 ^ 63 <= z <= 2 ^ 63 - 1 -> to_long z = z)
    by (intros z Hz; apply to_long_id; unfold in_long, LONG_MIN, LONG_MAX; lia).
  assert (Hhalf : forall x, - 2 ^ 63 <= x <= 2 ^ 63 - 1 -> 0 < ldiv x 2 ->
                            0 < ldiv x 2 <= x).
  { intros x Hx. apply half_positive.
    unfold in_long, LONG_MIN, LONG_MAX. lia. }
  (* a step that keeps the lock and the value expected in [end] *)
  assert (Hkeep : forall q' p',
    thief_tentative p' = thief_tentative p ->
    (thief_locked p' = true -> qs_lock s = Some (HeldByThief i)) ->
    begin q' = begin (qs_queue s) -> chunk_end q' = chunk_end (qs_queue s) ->
    nb_exec q' = nb_exec (qs_queue s) ->
    thief_inv q0 cs t p' ->
    queue_inv q0 cs (thief_at s q' i p')).
  { intros q' p' Htent Hlock Hb' He' Hn' Hp'.
    exists c, t. cbn [thief_at qs_queue qs_lock qs_owner qs_thieves qs_taken
                      qs_stolen].
    rewrite (end_expected_insert _ _ _ _ _ _ Hi Htent), He', Hn'.
    repeat split; auto.
    - destruct (qs_owner s); cbn [owner_inv] in *; rewrite ?Hb'; exact Ho.
    - apply Forall_insert; assumption.
    - apply thieves_locked_insert; [|assumption].
      intros k p0 _. apply Hlt. }
  destruct p as [|e|e|b|size|size|size e|size e|size e| |size e];
    cbn [thief_inv thief_locked] in Hp, Hheld.
  - (* TIdle *)
    apply Hkeep; auto; discriminate.
  - (* TEnd *)
    destruct bf; apply Hkeep; auto; try discriminate; cbn [thief_inv]; lia.
  - (* TOpEnd *)
    unfold lsub. rewrite Hid by lia.
    destruct (Z.leb_spec (ldiv (e - begin (qs_queue s)) 2) 0) as [Hnp|Hpos];
      apply Hkeep; auto; try discriminate; cbn [thief_inv]; auto.
    specialize (Hhalf (e - begin (qs_queue s)) ltac:(lia) Hpos). lia.
  - (* TOpBegin *)
    unfold lsub. rewrite Hid by lia.
    destruct (Z.leb_spec (ldiv (chunk_end (qs_queue s) - b) 2) 0) as [Hnp|Hpos];
      apply Hkeep; auto; try discriminate; cbn [thief_inv]; auto.
    specialize (Hhalf (chunk_end (qs_queue s) - b) ltac:(lia) Hpos). lia.
  - (* TWait *)
    destruct (qs_lock s) as [h|] eqn:El.
    + exists c, t. rewrite El. repeat split; auto.
    + exists c, t.
      cbn [set_lock thief_at qs_queue qs_lock qs_owner qs_thieves qs_taken
           qs_stolen].
      rewrite (end_expected_holder _ _ _ _ _ Hi). cbn [thief_tentative].
      repeat split; auto.
      * apply Forall_insert; assumption.
      * intros Hol. specialize (Hlo Hol). discriminate.
      * apply thieves_locked_insert; [|reflexivity].
        intros k p _ Hk Hpk. specialize (Hlt k p Hk Hpk). discriminate.
  - (* TLocked *)
    specialize (Hheld eq_refl).
    assert (Het : chunk_end (qs_queue s) = t).
    { rewrite He, Hheld. unfold end_expected. rewrite Hi. reflexivity. }
    unfold lsub. rewrite Hid by lia.
    apply Hkeep; auto. cbn [thief_inv]. lia.
  - (* TDec *)
    specialize (Hheld eq_refl).
    exists c, t.
    cbn [thief_at set_chunk_end qs_queue qs_lock qs_owner qs_thieves qs_taken
         qs_stolen begin chunk_end nb_exec].
    rewrite Hheld, (end_expected_holder _ _ _ _ _ Hi). cbn [thief_tentative].
    repeat split; auto.
    + apply Forall_insert; assumption.
    + intros Hol. rewrite <- Hheld. auto.
    + rewrite <- Hheld. apply thieves_locked_insert; [|auto].
      intros k p0 _. apply Hlt.
  - (* TCheck *)
    specialize (Hheld eq_refl). destruct Hp as (Hsz & Hes).
    assert (Hnot : owner_locked (qs_owner s) = false).
    { destruct (owner_locked (qs_owner s)); [|reflexivity].
      rewrite (Hlo eq_refl) in Hheld. discriminate. }
    destruct (Z.ltb_spec e (begin (qs_queue s))) as [Hlt'|Hge].
    + apply Hkeep; auto. cbn [thief_inv]. lia.
    + exists c, e.
      cbn [log_stolen thief_at qs_queue qs_lock qs_owner qs_thieves qs_taken
           qs_stolen chained].
      rewrite Hheld, (end_expected_holder _ _ _ _ _ Hi). cbn [thief_tentative].
      unfold ladd. rewrite Hid by lia. replace (e + size) with t by lia.
      assert (Hee : chunk_end (qs_queue s) = e).
      { rewrite He, Hheld. unfold end_expected. rewrite Hi. reflexivity. }
      repeat split; auto; try lia.
      * constructor; [cbn [fst snd]; lia|exact Hstp].
      * apply (owner_inv_unlocked _ _ t); assumption.
      * apply Forall_lookup_2. intros k p Hk.
        destruct (Nat.eq_dec k i) as [->|Hne].
        -- rewrite list_lookup_insert_eq in Hk
             by (eapply lookup_lt_Some; eauto).
           injection Hk as <-. exact I.
        -- rewrite list_lookup_insert_ne in Hk by auto.
           apply (thief_inv_unlocked _ _ t);
             [|exact (Forall_lookup_1 _ _ _ _ Hth Hk)].
           exact (thieves_unlocked_others _ _ _ Hlt Hheld k p Hne Hk).
      * intros Hol. rewrite Hnot in Hol. discriminate.
      * rewrite <- Hheld. apply thieves_locked_insert; [|auto].
      intros k p0 _. apply Hlt.
  - (* TUndo *)
    specialize (Hheld eq_refl). destruct Hp as (Hsz & Hes).
    exists c, t.
    cbn [thief_at set_chunk_end qs_queue qs_lock qs_owner qs_thieves qs_taken
         qs_stolen begin chunk_end nb_exec].
    rewrite Hheld, (end_expected_holder _ _ _ _ _ Hi). cbn [thief_tentative].
    unfold ladd. rewrite Hid by lia.
    repeat split; auto; try lia.
    + apply Forall_insert; [assumption|exact I].
    + intros Hol. rewrite <- Hheld. auto.
    + rewrite <- Hheld. apply thieves_locked_insert; [|auto].
      intros k p0 _. apply Hlt.
  - (* TFail *)
    specialize (Hheld eq_refl).
    assert (Het : chunk_end (qs_queue s) = t).
    { rewrite He, Hheld. unfold end_expected. rewrite Hi. reflexivity. }
    exists c, t.
    cbn [set_lock thief_at qs_queue qs_lock qs_owner qs_thieves qs_taken
         qs_stolen end_expected].
    repeat split; auto.
    + apply Forall_insert; [assumption|exact I].
    + intros Hol. specialize (Hlo Hol). rewrite Hlo in Hheld. discriminate.
    + apply thieves_locked_insert; [|cbn [thief_locked]; discriminate].
      intros k p Hne Hk Hpk.
      rewrite (thieves_unlocked_others _ _ _ Hlt Hheld k p Hne Hk) in Hpk.
      discriminate.
  - (* TTaken *)
    specialize (Hheld eq_refl).
    assert (Het : chunk_end (qs_queue s) = t).
    { rewrite He, Hheld. unfold end_expected. rewrite Hi. reflexivity. }
    exists c, t.
    cbn [set_lock thief_at qs_queue qs_lock qs_owner qs_thieves qs_taken
         qs_stolen end_expected].
    repeat split; auto.
    + apply Forall_insert; [assumption|exact I].
    + intros Hol. specialize (Hlo Hol). rewrite Hlo in Hheld. discriminate.
    + apply thieves_locked_insert; [|cbn [thief_locked]; discriminate].
      intros k p Hne Hk Hpk.
      rewrite (thieves_unlocked_others _ _ _ Hlt Hheld k p Hne Hk) in Hpk.
      discriminate.
Qed.

Lemma queue_run_inv q0 cs sched :
  queue_fits q0 cs ->
  forall s, queue_inv q0 cs s -> queue_inv q0 cs (queue_run cs sched s).
Proof.
  intros Hfit. unfold queue_run.
  induction sched as [|a sched IH]; intros s Hinv; [exact Hinv|].
  cbn [fold_left]. apply IH. destruct a as [|i bf]; cbn [queue_step].
  - apply owner_step_inv; assumption.
  - apply thief_step_inv; assumption.
Qed.

(** X18.  However the steps of the owner inside
    [gomp_iter_adaptive_try_local_work] and of any number of threads
    inside [gomp_iter_adaptive_steal] on the same queue interleave, no
    iteration is handed out twice: the ranges stored by the owner follow
    one another upward from the initial [begin], the blocks cut off by
    the thieves follow one another downward from the initial [end], none
    is empty, and the owner's ranges end at or below the point where the
    stolen blocks begin. *)
Theorem adaptive_queue_no_overlap (q0 : gomp_ws_adaptive_chunk) (cs : Z)
  (n : nat) (sched : list actor) :
  queue_fits q0 cs ->
  let s := queue_run cs sched (queue_start q0 n) in
  exists c t,
    chained (begin q0) (qs_taken s) c
    /\ chained t (qs_stolen s) (chunk_end q0)
    /\ begin q0 <= c /\ c <= t /\ t <= chunk_end q0
    /\ Forall (fun r => fst r < snd r) (qs_taken s ++ qs_stolen s).
Proof.
  intros Hfit s.
  destruct (queue_run_inv q0 cs sched Hfit _ (queue_start_inv q0 cs n Hfit))
    as (c & t & Htk & Hst & Htkp & Hstp & (Hc0 & Hct & Hte) & _).
  exists c, t. repeat split; try assumption.
  apply Forall_app. split; assumption.
Qed.

(** A thief cuts [[5, 8)] off the queue [[0, 8)] between the steps of
    the owner, who takes [[0, 2)]. *)
Lemma adaptive_queue_no_overlap_witness :
  let q0 := {| begin := 0; chunk_end := 8; nb_exec := 0; is_init := true |} in
  let sched :=
    [Owner; Thief 0 false; Owner; Thief 0 false; Thief 0 false; Thief 0 false;
     Thief 0 false; Thief 0 false; Owner; Thief 0 false; Thief 0 false] in
  let s := queue_run 2 sched (queue_start q0 1) in
  exists c t,
    chained 0 (qs_taken s) c /\ chained t (qs_stolen s) 8
    /\ 0 <= c /\ c <= t /\ t <= 8
    /\ Forall (fun r => fst r < snd r) (qs_taken s ++ qs_stolen s).
Proof.
  intros q0 sched.
  apply (adaptive_queue_no_overlap q0 2 1 sched).
  unfold queue_fits, in_long, LONG_MIN, LONG_MAX, q0.
  cbn [begin chunk_end nb_exec]. lia.
Defined.

(** X19.  Whenever the owner is outside
    [gomp_iter_adaptive_try_local_work] and the lock of its queue is
    free, the queue holds exactly the iterations that were handed to
    nobody: [begin] is where the owner's ranges end, [end] is where the
    stolen blocks begin, [begin <= end], and [nb_exec] has grown by the
    number of iterations the owner took.  The attempts of thieves that
    gave up have left no trace. *)
Theorem adaptive_queue_at_rest (q0 : gomp_ws_adaptive_chunk) (cs : Z)
  (n : nat) (sched : list actor) :
  queue_fits q0 cs ->
  let s := queue_run cs sched (queue_start q0 n) in
  qs_owner s = OIdle -> qs_lock s = None ->
  chained (begin q0) (qs_taken s) (begin (qs_queue s))
  /\ chained (chunk_end (qs_queue s)) (qs_stolen s) (chunk_end q0)
  /\ begin (qs_queue s) <= chunk_end (qs_queue s)
  /\ nb_exec (qs_queue s) = nb_exec q0 + (begin (qs_queue s) - begin q0).
Proof.
  intros Hfit s Hidle Hfree.
  destruct (queue_run_inv q0 cs sched Hfit _ (queue_start_inv q0 cs n Hfit))
    as (c & t & Htk & Hst & _ & _ & (Hc0 & Hct & Hte) & Ho & He & _ & _ & _
        & Hnb).
  fold s in Htk, Hst, Ho, He, Hnb.
  rewrite Hidle in Ho. cbn [owner_inv] in Ho.
  rewrite Hfree in He. cbn [end_expected] in He.
  rewrite Ho, He. repeat split; assumption.
Qed.

(** The owner's fast path fails against the lowered [end] of a thief that
    then gives up; the owner takes [[0, 3)] under the lock, [nb_exec]
    counts the three iterations, and [end] is 4 again. *)
Lemma adaptive_queue_at_rest_witness :
  let q0 := {| begin := 0; chunk_end := 4; nb_exec := 0; is_init := true |} in
  let sched :=
    [Thief 0 true; Thief 0 true; Thief 0 true; Thief 0 true; Thief 0 true;
     Owner; Owner; Thief 0 true; Owner; Thief 0 true; Thief 0 true;
     Thief 0 true; Owner; Owner; Owner; Owner; Owner] in
  let s := queue_run 3 sched (queue_start q0 1) in
  qs_queue s = {| begin := 3; chunk_end := 4; nb_exec := 3; is_init := true |}
  /\ chained 0 (qs_taken s) 3 /\ chained 4 (qs_stolen s) 4.
Proof.
  intros q0 sched s.
  assert (Hfit : queue_fits q0 3).
  { unfold queue_fits, in_long, LONG_MIN, LONG_MAX, q0.
    cbn [begin chunk_end nb_exec]. lia. }
  destruct (adaptive_queue_at_rest q0 3 1 sched Hfit eq_refl eq_refl)
    as (Htk & Hst & _).
  split; [reflexivity|]. split; [exact Htk|exact Hst].
Defined.

(** X20.  Run by the owner alone, with a positive [chunk_size], the lock
    free and no other thread making a step in between, the steps of
    [gomp_iter_adaptive_try_local_work] come back to the caller after at
    most eight of them, with the queue and the range of the function run in
    one piece. *)
Theorem owner_alone_is_sequential (cs : Z) (s : queue_state) :
  0 < cs -> qs_owner s = OIdle -> qs_lock s = None ->
  exists k,
    (k <= 8)%nat
    /\ queue_run cs (repeat Owner k) s
       = (let '(_, out, q') :=
            gomp_iter_adaptive_try_local_work (qs_queue s) cs in
          {| qs_queue := q'; qs_lock := None; qs_owner := OIdle;
             qs_thieves := qs_thieves s;
             qs_taken :=
               qs_taken s ++ match out with Some r => [r] | None => [] end;
             qs_stolen := qs_stolen s |}).
Proof.
  destruct s as [q l o ths tk st]. cbn [qs_owner qs_lock qs_queue qs_thieves
                                         qs_taken qs_stolen].
  intros Hcs -> ->.
  unfold gomp_iter_adaptive_try_local_work, queue_run.
  set (b := ladd (begin q) cs).
  destruct (b <? chunk_end q) eqn:Efast.
  - exists 3%nat. split; [lia|].
    cbn [repeat fold_left queue_step owner_step owner_at set_begin add_nb_exec
         log_taken set_lock qs_owner qs_lock qs_queue qs_thieves qs_taken
         qs_stolen begin chunk_end nb_exec is_init fst snd].
    fold b. rewrite Efast.
    cbn [log_taken owner_at add_nb_exec qs_owner qs_lock qs_queue qs_thieves
         qs_taken qs_stolen begin chunk_end nb_exec is_init].
    reflexivity.
  - set (b1 := lsub b cs).
    destruct (lsub (chunk_end q) b1 >? 0) eqn:Eslow.
    + exists 8%nat. split; [lia|].
      cbn [repeat fold_left queue_step owner_step owner_at set_begin
           add_nb_exec log_taken set_lock qs_owner qs_lock qs_queue qs_thieves
           qs_taken qs_stolen begin chunk_end nb_exec is_init fst snd].
      fold b. rewrite Efast.
      cbn [repeat fold_left queue_step owner_step owner_at set_begin
           add_nb_exec log_taken set_lock qs_owner qs_lock qs_queue qs_thieves
           qs_taken qs_stolen begin chunk_end nb_exec is_init fst snd].
      fold b1. rewrite Eslow.
      set (size := if lsub (chunk_end q) b1 >? cs then cs
                   else lsub (chunk_end q) b1).
      assert (Hsize : (size >? 0) = true).
      { unfold size. destruct (Z.gtb_spec (lsub (chunk_end q) b1) cs);
          [|exact Eslow].
        apply Z.gtb_lt in Eslow. apply Z.gtb_lt. lia. }
      cbn [repeat fold_left queue_step owner_step owner_at set_begin
           add_nb_exec log_taken set_lock qs_owner qs_lock qs_queue qs_thieves
           qs_taken qs_stolen begin chunk_end nb_exec is_init fst snd].
      rewrite Hsize.
      cbn [log_taken owner_at set_lock add_nb_exec qs_owner qs_lock qs_queue
           qs_thieves qs_taken qs_stolen begin chunk_end nb_exec is_init].
      reflexivity.
    + exists 7%nat. split; [lia|].
      cbn [repeat fold_left queue_step owner_step owner_at set_begin
           add_nb_exec log_taken set_lock qs_owner qs_lock qs_queue qs_thieves
           qs_taken qs_stolen begin chunk_end nb_exec is_init fst snd].
      fold b. rewrite Efast.
      cbn [repeat fold_left queue_step owner_step owner_at set_begin
           add_nb_exec log_taken set_lock qs_owner qs_lock qs_queue qs_thieves
           qs_taken qs_stolen begin chunk_end nb_exec is_init fst snd].
      fold b1. rewrite Eslow.
      cbn [repeat fold_left queue_step owner_step owner_at set_begin
           add_nb_exec log_taken set_lock qs_owner qs_lock qs_queue qs_thieves
           qs_taken qs_stolen begin chunk_end nb_exec is_init fst snd].
      rewrite Eslow.
      cbn [owner_at set_lock qs_owner qs_lock qs_queue qs_thieves qs_taken
           qs_stolen].
      rewrite app_nil_r. reflexivity.
Qed.

(** The owner of the queue [[6, 8)] asks for four iterations: the fast
    path fails and the call takes the two that are left under the lock. *)
Lemma owner_alone_is_sequential_witness :
  exists k,
    (k <= 8)%nat
    /\ queue_run 4 (repeat Owner k)
         (queue_start
            {| begin := 6; chunk_end := 8; nb_exec := 2; is_init := true |} 1)
       = {| qs_queue :=
              {| begin := 8; chunk_end := 8; nb_exec := 4; is_init := true |};
            qs_lock := None; qs_owner := OIdle; qs_thieves := [TIdle];
            qs_taken := [(6, 8)]; qs_stolen := [] |}.
Proof.
  destruct (owner_alone_is_sequential 4
              (queue_start
                 {| begin := 6; chunk_end := 8; nb_exec := 2;
                    is_init := true |} 1)
              ltac:(lia) eq_refl eq_refl) as (k & Hk & Hrun).
  exists k. split; [exact Hk|]. rewrite Hrun. reflexivity.
Defined.

Lemma queue_run_next cs a sched s :
  queue_run cs (a :: sched) s = queue_run cs sched (queue_step cs s a).
Proof. reflexivity. Qed.

Lemma queue_run_app cs l1 l2 s :
  queue_run cs (l1 ++ l2) s = queue_run cs l2 (queue_run cs l1 s).
Proof. apply fold_left_app. Qed.

Ltac qs_norm :=
  unfold thief_at, set_lock, log_stolen;
  cbn [qs_owner qs_lock qs_queue qs_thieves qs_taken qs_stolen set_chunk_end
       begin chunk_end nb_exec is_init].

(* one step of a thief whose control point is known *)
Ltac thief_one :=
  rewrite queue_run_next; cbn [queue_step]; unfold thief_step; qs_norm;
  rewrite ?list_lookup_insert_eq by assumption; qs_norm;
  rewrite ?list_insert_insert_eq.

(** A steal run by one thief alone, in terms of the function run in one
    piece. *)
Lemma thief_alone_run (cs : Z) (i : nat) (bf : bool)
  (s : queue_state) (v lq : nat) (ws : gomp_work_share)
  (local_queue : gomp_ws_adaptive_chunk) :
  qs_thieves s !! i = Some TIdle -> qs_lock s = None ->
  adaptive_chunks ws !! v = Some (qs_queue s) ->
  adaptive_chunks ws !! lq = Some local_queue -> v <> lq ->
  exists k r out ws',
    (k <= 9)%nat
    /\ adaptive_steal_from id v lq cs ws = Some (r, out, ws')
    /\ queue_run cs (repeat (Thief i bf) k) s
       = {| qs_queue := default (qs_queue s) (adaptive_chunks ws' !! v);
            qs_lock := None; qs_owner := qs_owner s;
            qs_thieves := qs_thieves s; qs_taken := qs_taken s;
            qs_stolen :=
              match out, adaptive_chunks ws' !! lq with
              | Some (pstart, _), Some q' =>
                  (pstart, chunk_end q') :: qs_stolen s
              | _, _ => qs_stolen s
              end |}
    /\ is_Some (adaptive_chunks ws' !! v).
Proof.
  destruct s as [q l o ths tk st].
  cbn [qs_owner qs_lock qs_queue qs_thieves qs_taken qs_stolen].
  intros Hi -> Hv Hlq Hne.
  pose proof (lookup_lt_Some _ _ _ Hi) as Hlen.
  pose proof (lookup_lt_Some _ _ _ Hv) as Hvlen.
  pose proof (lookup_lt_Some _ _ _ Hlq) as Hlqlen.
  unfold adaptive_steal_from. rewrite Hv. cbn [id].
  set (size := ldiv (lsub (chunk_end q) (begin q)) 2).
  assert (Hstart :
    queue_run cs (repeat (Thief i bf) 3)
      {| qs_queue := q; qs_lock := None; qs_owner := o; qs_thieves := ths;
         qs_taken := tk; qs_stolen := st |}
    = {| qs_queue := q; qs_lock := None; qs_owner := o;
         qs_thieves := <[i := if size <=? 0 then TIdle else TWait size]> ths;
         qs_taken := tk; qs_stolen := st |}).
  { cbn [repeat].
    rewrite queue_run_next; cbn [queue_step]; unfold thief_step; qs_norm.
    rewrite Hi. qs_norm.
    thief_one. destruct bf; thief_one; reflexivity. }
  destruct (size <=? 0) eqn:Esize.
  - exists 3%nat, false, None, ws. split; [lia|]. split; [reflexivity|].
    rewrite Hstart, Hv, (list_insert_id _ _ _ Hi). cbn [default].
    split; [reflexivity|eauto].
  - set (e := lsub (chunk_end q) size).
    assert (Hlock :
      queue_run cs (repeat (Thief i bf) 6)
        {| qs_queue := q; qs_lock := None; qs_owner := o; qs_thieves := ths;
           qs_taken := tk; qs_stolen := st |}
      = {| qs_queue := set_chunk_end q e; qs_lock := Some (HeldByThief i);
           qs_owner := o; qs_thieves := <[i := TCheck size e]> ths;
           qs_taken := tk; qs_stolen := st |}).
    { change 6%nat with (3 + 3)%nat. rewrite repeat_app, queue_run_app, Hstart.
      cbn [repeat].
      do 3 thief_one. reflexivity. }
    fold e.
    destruct (e <? begin q) eqn:Echeck.
    + exists 9%nat, false, None.
      eexists. split; [lia|]. split; [reflexivity|].
      cbn [set_adaptive_chunks adaptive_chunks].
      rewrite list_lookup_insert_eq by assumption.
      cbn [default]. split; [|eauto].
      change 9%nat with (6 + 3)%nat. rewrite repeat_app, queue_run_app, Hlock.
      cbn [repeat].
      thief_one. rewrite Echeck. qs_norm.
      do 2 thief_one.
      rewrite (list_insert_id _ _ _ Hi). reflexivity.
    + rewrite list_lookup_insert_ne by assumption. rewrite Hlq.
      exists 8%nat, true. do 2 eexists.
      split; [lia|]. split; [reflexivity|].
      cbn [set_adaptive_chunks adaptive_chunks].
      rewrite list_lookup_insert_ne by auto.
      rewrite list_lookup_insert_eq by assumption.
      rewrite list_lookup_insert_eq by (rewrite length_insert; assumption).
      cbn [default chunk_end]. split; [|eauto].
      change 8%nat with (6 + 2)%nat. rewrite repeat_app, queue_run_app, Hlock.
      cbn [repeat].
      thief_one. rewrite Echeck. qs_norm.
      thief_one.
      rewrite (list_insert_id _ _ _ Hi). reflexivity.
Qed.

(** X21.  Run by one thief alone, with the lock free and no other thread
    making a step in between, the steps of [gomp_iter_adaptive_steal]
    come back to the caller after at most nine of them and leave the
    victim's queue as the function run in one piece leaves it; the block
    recorded as stolen is the range the function stores together with the
    queue it gives the thief, [[*pstart, local_queue->end)], and nothing
    is recorded when the function returns false. *)
Theorem thief_alone_is_sequential (cs : Z) (i : nat) (bf : bool)
  (s : queue_state) (v lq : nat) (ws : gomp_work_share)
  (local_queue : gomp_ws_adaptive_chunk) :
  qs_thieves s !! i = Some TIdle -> qs_lock s = None ->
  adaptive_chunks ws !! v = Some (qs_queue s) ->
  adaptive_chunks ws !! lq = Some local_queue -> v <> lq ->
  exists k r out ws',
    (k <= 9)%nat
    /\ adaptive_steal_from id v lq cs ws = Some (r, out, ws')
    /\ let s' := queue_run cs (repeat (Thief i bf) k) s in
       adaptive_chunks ws' !! v = Some (qs_queue s')
       /\ qs_stolen s'
          = match out, adaptive_chunks ws' !! lq with
            | Some (pstart, _), Some q' =>
                (pstart, chunk_end q') :: qs_stolen s
            | _, _ => qs_stolen s
            end
       /\ qs_lock s' = None /\ qs_thieves s' = qs_thieves s
       /\ qs_owner s' = qs_owner s /\ qs_taken s' = qs_taken s.
Proof.
  intros Hi Hfree Hv Hlq Hne.
  destruct (thief_alone_run cs i bf s v lq ws local_queue Hi Hfree Hv Hlq Hne)
    as (k & r & out & ws' & Hk & Hseq & Hrun & q' & Hq').
  exists k, r, out, ws'. split; [exact Hk|]. split; [exact Hseq|].
  cbv zeta. rewrite Hrun, Hq'.
  cbn [qs_queue qs_lock qs_owner qs_thieves qs_taken qs_stolen default].
  repeat split; reflexivity.
Qed.

(** Thread 1 steals from the queue [[0, 8)] of thread 0 with
    [chunk_size] 2: the victim keeps [[0, 4)], the block [[4, 8)] goes to
    the thief. *)
Lemma thief_alone_is_sequential_witness :
  let victim := {| begin := 0; chunk_end := 8; nb_exec := 0;
                   is_init := true |} in
  let thief := {| begin := 8; chunk_end := 8; nb_exec := 0;
                  is_init := true |} in
  exists k,
    (k <= 9)%nat
    /\ qs_queue (queue_run 2 (repeat (Thief 0 false) k) (queue_start victim 1))
       = set_chunk_end victim 4
    /\ qs_stolen
         (queue_run 2 (repeat (Thief 0 false) k) (queue_start victim 1))
       = [(4, 8)].
Proof.
  intros victim thief.
  destruct (thief_alone_is_sequential 2 0 false (queue_start victim 1) 0 1
              {| chunk_size := 2; ws_end := 16; incr := 1; next := 0;
                 mode := false; start_t0 := 0; nb_iterations_left := 16;
                 adaptive_chunks := [victim; thief] |} thief
              eq_refl eq_refl eq_refl eq_refl ltac:(lia))
    as (k & r & out & ws' & Hk & Hseq & Hv & Hst & _).
  vm_compute in Hseq. injection Hseq as <- <- <-.
  exists k. split; [exact Hk|]. split.
  - cbn in Hv. injection Hv as <-. reflexivity.
  - rewrite Hst. reflexivity.
Defined.

(** ** Static schedule: a thread that has been served *)

(** X22.  Once [gomp_iter_static_next] has told a thread that there is
    nothing for it, by a call that stores no range, it tells the same
    on every later call: the calls that follow store nothing, return
    the same nonzero value, and leave the state of the thread as that
    call left it. *)
Theorem static_exhausted_stays (thr : gomp_thread) (ws : gomp_work_share)
  (k : nat) :
  let r := gomp_iter_static_next thr ws in
  st_out r = None ->
  let r' := gomp_iter_static_next (static_calls k (st_thr r) ws) ws in
  st_out r' = None /\ st_ret r' = st_ret r /\ st_ret r' <> 0
  /\ st_thr r' = st_thr r.
Proof.
  intros r Hout.
  assert (Hnext : gomp_iter_static_next (st_thr r) ws
                  = {| st_ret := st_ret r; st_out := None;
                       st_thr := st_thr r |} /\ st_ret r <> 0).
  { revert Hout. unfold r, gomp_iter_static_next.
    destruct (Z.eqb_spec (static_trip thr) (-1)) as [Ht|Ht].
    { intros _. cbn [st_thr st_ret]. rewrite Ht. cbn. split; [reflexivity|lia]. }
    destruct (Z.eqb_spec (team_nthreads thr) 1) as [Hn|Hn];
      [discriminate|].
    destruct (Z.eqb_spec (chunk_size ws) 0) as [Hc|Hc].
    - destruct (Z.gtb_spec (static_trip thr) 0) as [Hpos|Hnp].
      + intros _. cbn [st_thr st_ret].
        destruct (Z.eqb_spec (static_trip thr) (-1)); [contradiction|].
        destruct (Z.eqb_spec (team_nthreads thr) 1); [contradiction|].
        destruct (Z.gtb_spec (static_trip thr) 0); [|lia].
        split; [reflexivity|lia].
      + cbv zeta. destruct (_ >=? _); [|discriminate].
        intros _. cbn [st_thr st_ret set_static_trip static_trip].
        unfold team_nthreads in *. cbn [team set_static_trip].
        destruct (Z.eqb_spec (match team thr with
                              | Some t => to_ulong (nthreads t)
                              | None => 1
                              end) 1); [contradiction|].
        cbn. split; [reflexivity|lia].
    - cbv zeta. destruct (_ >=? _) eqn:Ege; [|discriminate].
      intros _. cbn [st_thr st_ret].
      destruct (Z.eqb_spec (static_trip thr) (-1)); [contradiction|].
      destruct (Z.eqb_spec (team_nthreads thr) 1); [contradiction|].
      rewrite Ege. split; [reflexivity|lia]. }
  destruct Hnext as (Hnext & Hnz).
  assert (Hfix : static_calls k (st_thr r) ws = st_thr r).
  { apply static_calls_fixed. rewrite Hnext. reflexivity. }
  intros r'. unfold r'. rewrite Hfix, Hnext. cbn [st_out st_ret st_thr].
  repeat split; auto.
Qed.

(** Thread 3 of four has no share of a loop of three iterations. *)
Lemma static_exhausted_stays_witness :
  let ws := {| chunk_size := 0; ws_end := 3; incr := 1; next := 0;
               mode := false; start_t0 := 0; nb_iterations_left := 3;
               adaptive_chunks := [] |} in
  st_ret (gomp_iter_static_next
            (static_calls 5 (st_thr (gomp_iter_static_next (thr_of_4 3) ws))
               ws) ws) = 1.
Proof.
  intros ws.
  destruct (static_exhausted_stays (thr_of_4 3) ws 5 eq_refl)
    as (_ & Hret & _).
  rewrite Hret. reflexivity.
Defined.

(** X23.  With [chunk_size = 0], and in a team of one thread, a thread
    receives at most one range: whatever a call of
    [gomp_iter_static_next] did, the call after it stores nothing and
    returns a nonzero value. *)
Theorem static_one_range_per_thread (thr : gomp_thread)
  (ws : gomp_work_share) :
  chunk_size ws = 0 \/ team_nthreads thr = 1 ->
  let r' := gomp_iter_static_next (st_thr (gomp_iter_static_next thr ws)) ws in
  st_out r' = None /\ st_ret r' <> 0.
Proof.
  intros Hcase.
  assert (Htrip : static_trip (st_thr (gomp_iter_static_next thr ws)) = -1
                  \/ 0 < static_trip (st_thr (gomp_iter_static_next thr ws))
                     /\ chunk_size ws = 0).
  { unfold gomp_iter_static_next.
    destruct (Z.eqb_spec (static_trip thr) (-1)) as [Ht|Ht]; [left; exact Ht|].
    destruct (Z.eqb_spec (team_nthreads thr) 1) as [Hn|Hn];
      [left; reflexivity|].
    destruct Hcase as [Hc|Hone]; [|contradiction].
    rewrite Hc. cbn [Z.eqb].
    destruct (Z.gtb_spec (static_trip thr) 0) as [Hpos|Hnp].
    - right. cbn [st_thr]. split; [lia|reflexivity].
    - cbv zeta. destruct (_ >=? _).
      + right. cbn [st_thr set_static_trip static_trip].
        split; [lia|reflexivity].
      + cbn [st_thr set_static_trip static_trip].
        destruct (_ =? _); [left; reflexivity|right].
        split; [lia|reflexivity]. }
  assert (Hteam : team_nthreads (st_thr (gomp_iter_static_next thr ws))
                  = team_nthreads thr).
  { unfold gomp_iter_static_next.
    repeat match goal with
           | |- context [if ?c then _ else _] => destruct c
           end; reflexivity. }
  set (thr' := st_thr (gomp_iter_static_next thr ws)) in *.
  intros r'. unfold r', gomp_iter_static_next.
  destruct Htrip as [Hend|(Hpos & Hc)].
  - rewrite Hend. cbn. split; [reflexivity|lia].
  - destruct (Z.eqb_spec (static_trip thr') (-1)) as [|_];
      [cbn; split; [reflexivity|lia]|].
    destruct (Z.eqb_spec (team_nthreads thr') 1) as [Hn|Hn].
    + (* a team of one thread leaves the terminal trip *)
      exfalso. rewrite Hteam in Hn. unfold thr', gomp_iter_static_next in Hpos.
      destruct (Z.eqb_spec (static_trip thr) (-1)) as [Ht|Ht];
        [cbn [st_thr] in Hpos; lia|].
      destruct (Z.eqb_spec (team_nthreads thr) 1); [|contradiction].
      cbn [st_thr set_static_trip static_trip] in Hpos. lia.
    + rewrite Hc. cbn [Z.eqb].
      destruct (Z.gtb_spec (static_trip thr') 0); [|lia].
      cbn. split; [reflexivity|lia].
Qed.

(** Thread 0 of four, after its share of ten iterations. *)
Lemma static_one_range_per_thread_witness :
  st_out (gomp_iter_static_next
            (st_thr (gomp_iter_static_next (thr_of_4 0) ws_static_10))
            ws_static_10) = None.
Proof.
  destruct (static_one_range_per_thread (thr_of_4 0) ws_static_10
              ltac:(left; reflexivity)) as (Hout & _).
  exact Hout.
Defined.
